(** * Payee-name matching pipeline: a shallow embedding and its properties

    The development follows the layout of [finexio-matcher/app]:
    [canonicalize.py], [candidates.py], [features.py], [classifier.py],
    [matching.py] and the batch helper of [utils.py]; the handlers of
    [routers/review.py] and [compute_idf] of [utils.py] come after them.

    Conventions of the embedding.
    - A Python [str] is a list of characters; a character is a Unicode code
      point below 256 (Latin-1), which is what the type [ascii] holds.
    - A Python [float] is an exact rational ([Q]): sums, products and
      comparisons are the mathematical ones, rounding is not modelled.
    - A Python [int] is a [Z].
    - Services the repository calls but does not contain (Double Metaphone,
      rapidfuzz, the storage engine's similarity searches, the language
      model, number formatting) are variables of the sections that use
      them.
    - [db.execute] records the statement that is sent; the server is taken
      to accept it.  A statement that the server refuses, the failed
      transaction it leaves and the session that the names of a chunk share
      are not modelled.  What a similarity search returns is one of the
      variables above, and a search that fails is its value [None].
    - A Python [set] is a [gset].  Where the code reads a set as a list,
      the order is that of [elements]; in Python it varies from run to run.
      Of the features only [initials_match] depends on it.  *)

From Stdlib Require Import List String Ascii NArith ZArith QArith Qminmax Lia Lra Permutation.
From stdpp Require Import base decidable option list sets gmap strings sorting.
Import ListNotations.
Open Scope list_scope.

Abbreviation str := (list ascii).

(** ** Python built-ins used by the application *)
Module Py.

(** A string literal. *)
Definition lit (s : string) : str := list_ascii_of_string s.

Definition code (c : ascii) : N := N_of_ascii c.

Definition between (lo hi : N) (c : ascii) : bool :=
  ((lo <=? code c) && (code c <=? hi))%N.

Definition is_code (n : N) (c : ascii) : bool := (code c =? n)%N.

(** [str.isspace], which is also what [str.split], [str.strip] and the
    regular-expression class [\s] use. *)
Definition isspace (c : ascii) : bool :=
  between 9 13 c || between 28 32 c || is_code 133 c || is_code 160 c.

(** [\w] of the [re] module on [str] patterns: alphanumeric or underscore. *)
Definition is_word (c : ascii) : bool :=
  between 48 57 c || between 65 90 c || is_code 95 c || between 97 122 c
  || is_code 170 c || between 178 179 c || is_code 181 c
  || between 185 186 c || between 188 190 c
  || between 192 214 c || between 216 246 c || between 248 255 c.

(** [\d] *)
Definition is_digit (c : ascii) : bool := between 48 57 c.

(** [[a-z]] *)
Definition is_az (c : ascii) : bool := between 97 122 c.

Definition isalpha (c : ascii) : bool :=
  between 65 90 c || between 97 122 c
  || is_code 170 c || is_code 181 c || is_code 186 c
  || between 192 214 c || between 216 246 c || between 248 255 c.

(** [str.lower] on one character. *)
Definition lower_char (c : ascii) : ascii :=
  if between 65 90 c || (between 192 222 c && negb (is_code 215 c))
  then ascii_of_N (code c + 32) else c.

Definition lower (s : str) : str := map lower_char s.

(** [str.upper] on one character.  The result can leave Latin-1
    ([ÿ] gives U+0178, [µ] gives U+039C) or be two characters ([ß] gives
    [SS]), so it is a list of code points. *)
Definition upper_char (c : ascii) : list N :=
  if is_code 181 c then [924%N]
  else if is_code 223 c then [83%N; 83%N]
  else if is_code 255 c then [376%N]
  else if between 97 122 c || (between 224 254 c && negb (is_code 247 c))
  then [(code c - 32)%N] else [code c].

Fixpoint lstrip (s : str) : str :=
  match s with
  | [] => []
  | c :: r => if isspace c then lstrip r else s
  end.

Definition rstrip (s : str) : str := rev (lstrip (rev s)).

Definition strip (s : str) : str := rstrip (lstrip s).

Definition flush (cur : str) : list str :=
  match cur with [] => [] | _ => [cur] end.

(** [str.split()] without argument: the maximal runs of characters that
    are not whitespace.  [cur] is the run being read. *)
Fixpoint split_go (cur : str) (s : str) : list str :=
  match s with
  | [] => flush cur
  | c :: r =>
      if isspace c then flush cur ++ split_go [] r
      else split_go (cur ++ [c]) r
  end.

Definition split (s : str) : list str := split_go [] s.

(** [sep.join(l)] *)
Fixpoint join (sep : str) (l : list str) : str :=
  match l with
  | [] => []
  | [x] => x
  | x :: r => x ++ sep ++ join sep r
  end.

(** [s.split(sep)[0]] for a one-character separator. *)
Fixpoint before_sep (sep : ascii) (s : str) : str :=
  match s with
  | [] => []
  | c :: r => if decide (c = sep) then [] else c :: before_sep sep r
  end.

Fixpoint startswith (p s : str) : bool :=
  match p, s with
  | [], _ => true
  | _ :: _, [] => false
  | a :: p', b :: s' => bool_decide (a = b) && startswith p' s'
  end.

(** [s.replace(old, new)] for a non-empty [old]: the occurrences are taken
    from the left and do not overlap.  [skip] counts the characters of a
    replaced occurrence that are still to be passed over. *)
Fixpoint replace_go (old new : str) (skip : nat) (s : str) : str :=
  match s with
  | [] => []
  | c :: r =>
      match skip with
      | S k => replace_go old new k r
      | O =>
          if startswith old s
          then new ++ replace_go old new (length old - 1) r
          else c :: replace_go old new 0 r
      end
  end.

Definition replace (old new s : str) : str := replace_go old new 0 s.

(** [l[:k]] *)
Definition slice_to {A} (k : Z) (l : list A) : list A :=
  if (0 <=? k)%Z then take (Z.to_nat k) l
  else take (length l - Z.to_nat (- k))%nat l.

(** [sorted] and [list.sort] are stable.  [le x y] says that [x] may stand
    before [y]; an element is put before the first later element it may
    stand before, so elements that compare equal keep their order. *)
Fixpoint insert_by {A} (le : A → A → bool) (x : A) (l : list A) : list A :=
  match l with
  | [] => [x]
  | y :: l' => if le x y then x :: l else y :: insert_by le x l'
  end.

Definition sorted {A} (le : A → A → bool) (l : list A) : list A :=
  foldr (insert_by le) [] l.

(** Comparison of strings: by code point, the shorter of two strings that
    agree being the smaller. *)
Fixpoint str_leb (a b : str) : bool :=
  match a, b with
  | [], _ => true
  | _ :: _, [] => false
  | x :: a', y :: b' =>
      if (code x <? code y)%N then true
      else if (code x =? code y)%N then str_leb a' b' else false
  end.

(** [x < y] on numbers can be tested. *)
#[global] Instance Qlt_decision (x y : Q) : Decision (x < y)%Q :=
  match Qlt_le_dec x y with
  | left H => left H
  | right H => right (Qle_not_lt _ _ H)
  end.

#[global] Instance Qle_decision (x y : Q) : Decision (x <= y)%Q :=
  match Qlt_le_dec y x with
  | left H => right (Qlt_not_le _ _ H)
  | right H => left H
  end.

(** A [dict] keeps its keys in insertion order; assigning to a key that
    is present keeps its place. *)
Section Dict.
Context {K V : Type} `{EqDecision K}.

Fixpoint dict_get (d : list (K * V)) (k : K) : option V :=
  match d with
  | [] => None
  | (k', v) :: r => if decide (k' = k) then Some v else dict_get r k
  end.

Fixpoint dict_set (d : list (K * V)) (k : K) (v : V) : list (K * V) :=
  match d with
  | [] => [(k, v)]
  | (k', v') :: r =>
      if decide (k' = k) then (k, v) :: r else (k', v') :: dict_set r k v
  end.

Definition dict_values (d : list (K * V)) : list V := map snd d.
Definition dict_keys (d : list (K * V)) : list K := map fst d.

(** [dict(pairs)] *)
Definition dict_of (l : list (K * V)) : list (K * V) :=
  fold_left (λ d kv, dict_set d kv.1 kv.2) l [].

(** [d.get(k, default)] *)
Definition dict_get_default (d : list (K * V)) (k : K) (default : V) : V :=
  match dict_get d k with Some v => v | None => default end.
End Dict.

End Py.

Import Py.

(** ** [app/canonicalize.py] *)
Module Canonicalize.

Definition GENERIC_WORDS : gset str :=
  list_to_set (map lit
    ["the"; "of"; "and"; "group"; "company"; "services";
     "holdings"; "solutions"; "global"; "international";
     "enterprises"; "partners"; "associates"; "consulting"]%string).

Definition CORPORATE_SUFFIXES : gset str :=
  list_to_set (map lit
    ["co"; "inc"; "incorporated"; "llc"; "l.l.c"; "llp"; "ltd"; "limited";
     "corp"; "corporation"; "plc"; "p.l.c"; "lp"; "l.p";
     "gmbh"; "bv"; "nv"; "sa"; "ag"; "oy"; "kk"; "srl"; "spa";
     "pty"; "kft"; "sp z o.o"; "s.a."; "s.a.s."; "aps"; "ab"; "as";
     "oyj"; "k.k."; "bvba"; "e.k."; "sarl"; "eurl"; "sas"; "snc";
     "pty ltd"; "pvt ltd"; "private limited"; "public limited";
     "limitada"; "ltda"; "sl"; "s.l."; "cv"; "c.v."; "de cv"]%string).

(** The dictionary is walked in the order it is written. *)
Definition ABBREVIATIONS : list (str * str) :=
  map (λ p : string * string, (lit p.1, lit p.2))
    [("intl", "international"); ("natl", "national");
     ("assoc", "associates"); ("mgmt", "management");
     ("svcs", "services"); ("grp", "group"); ("co", "company");
     ("corp", "corporation"); ("inc", "incorporated");
     ("ltd", "limited")]%string.

(** [unicodedata.normalize('NFKD', c)] with the combining marks dropped,
    for one Latin-1 character.  Two results leave Latin-1: the micro sign
    gives the Greek letter mu (U+03BC) and the vulgar fractions contain
    the fraction slash (U+2044).  They are written here as the micro sign
    itself and as the solidus: like the characters they stand for, these
    are neither whitespace nor in [[a-z0-9&]], and the first is a word
    character while the second is not. *)
Definition nfkd_base (c : ascii) : str :=
  if is_code 160 c || is_code 168 c || is_code 175 c || is_code 180 c
     || is_code 184 c then lit " "
  else if is_code 170 c then lit "a"
  else if is_code 178 c then lit "2"
  else if is_code 179 c then lit "3"
  else if is_code 185 c then lit "1"
  else if is_code 186 c then lit "o"
  else if is_code 188 c then lit "1/4"
  else if is_code 189 c then lit "1/2"
  else if is_code 190 c then lit "3/4"
  else if between 192 197 c then lit "A"
  else if is_code 199 c then lit "C"
  else if between 200 203 c then lit "E"
  else if between 204 207 c then lit "I"
  else if is_code 209 c then lit "N"
  else if between 210 214 c then lit "O"
  else if between 217 220 c then lit "U"
  else if is_code 221 c then lit "Y"
  else if between 224 229 c then lit "a"
  else if is_code 231 c then lit "c"
  else if between 232 235 c then lit "e"
  else if between 236 239 c then lit "i"
  else if is_code 241 c then lit "n"
  else if between 242 246 c then lit "o"
  else if between 249 252 c then lit "u"
  else if is_code 253 c || is_code 255 c then lit "y"
  else [c].

Definition remove_diacritics (text : str) : str := flat_map nfkd_base text.

(** The class [[a-z0-9&\s]]. *)
Definition allowed (c : ascii) : bool :=
  is_az c || is_digit c || is_code 38 c || isspace c.

(** [re.sub(r'[^a-z0-9&\s]+', ' ', text)]: every maximal run of characters
    outside the class becomes one space.  [in_run] says that the previous
    character was outside the class. *)
Fixpoint sub_disallowed_go (in_run : bool) (text : str) : str :=
  match text with
  | [] => []
  | c :: r =>
      if allowed c then c :: sub_disallowed_go false r
      else if in_run then sub_disallowed_go true r
      else " "%char :: sub_disallowed_go true r
  end.

Definition sub_disallowed (text : str) : str := sub_disallowed_go false text.

(** [re.sub(rf'\b{abbr}\b', full, text)] for an [abbr] made of word
    characters.  Such a pattern can only match a whole maximal run of word
    characters: [\b] before its first letter needs a non-word character (or
    the start) to the left, and likewise to the right.  The text is read
    from the left, [run] is the run of word characters being read, and a
    finished run is written out by [g]. *)
Fixpoint map_word_runs (g : str → str) (run : str) (text : str) : str :=
  match text with
  | [] => g run
  | c :: r =>
      if is_word c then map_word_runs g (run ++ [c]) r
      else g run ++ c :: map_word_runs g [] r
  end.

Definition replace_run (abbr full : str) (run : str) : str :=
  if decide (run = abbr) then full else run.

Definition sub_word (abbr full : str) (text : str) : str :=
  map_word_runs (replace_run abbr full) [] text.

(** [for abbr, full in ABBREVIATIONS.items(): text = re.sub(...)] *)
Definition expand_abbreviations (text : str) : str :=
  fold_left (λ t p, sub_word p.1 p.2 t) ABBREVIATIONS text.

(** [$] matches at the end and before a final newline. *)
Definition at_end (s : str) : bool :=
  match s with
  | [] => true
  | [c] => is_code 10 c
  | _ => false
  end.

(** [([a-z]\.)*$] *)
Fixpoint match_initials_tail (s : str) : bool :=
  at_end s ||
  match s with
  | a :: d :: r => is_az a && is_code 46 d && match_initials_tail r
  | _ => false
  end.

(** [re.match(r'^[a-z]\.([a-z]\.)*$', token)] *)
Definition match_initials (token : str) : bool :=
  match token with
  | a :: d :: r => is_az a && is_code 46 d && match_initials_tail r
  | _ => false
  end.

(** [\d+$] matched at the head of [s]. *)
Fixpoint match_digits_end (s : str) : bool :=
  match s with
  | [] => false
  | c :: r => is_digit c && (at_end r || match_digits_end r)
  end.

(** [re.match(r'^[a-z]+\d+$', token)] *)
Fixpoint match_alpha_digits (token : str) : bool :=
  match token with
  | [] => false
  | c :: r => is_az c && (match_alpha_digits r || match_digits_end r)
  end.

(** [re.sub(r'\d+$', '', token)]: the text from the leftmost place where
    [\d+$] matches loses its digits. *)
Fixpoint sub_digits_end (token : str) : str :=
  match token with
  | [] => []
  | c :: r =>
      if match_digits_end token
      then filter (λ x, is_digit x = false) token
      else c :: sub_digits_end r
  end.

Definition special_case (token : str) : str :=
  let token :=
    if match_initials token
    then filter (λ c, c ≠ "."%char) token else token in
  (* hyphenated names are kept as they are *)
  if match_alpha_digits token then sub_digits_end token else token.

Definition handle_special_cases (tokens : list str) : list str :=
  map special_case tokens.

Record canon_data := {
  canon : str;
  tokens : list str;
  dm_codes : list str
}.

Section WithMetaphone.
(** [metaphone.doublemetaphone]: the two codes of a token. *)
Variable doublemetaphone : str → str * str.

Definition canonicalize (name_raw : str) : canon_data :=
  if bool_decide (name_raw = []) || bool_decide (strip name_raw = [])
  then {| canon := []; tokens := []; dm_codes := [] |}
  else
    let text := strip (lower name_raw) in
    let text := remove_diacritics text in
    let text := sub_disallowed text in
    let text := expand_abbreviations text in
    let tokens := split text in
    let tokens :=
      filter (λ t, (t ∉ GENERIC_WORDS) ∧ (t ∉ CORPORATE_SUFFIXES)) tokens in
    let tokens := handle_special_cases tokens in
    let tokens :=
      sorted str_leb
        (elements (list_to_set (filter (λ t, t ≠ []) tokens) : gset str)) in
    let canon := join (lit " ") tokens in
    let dm_codes :=
      flat_map (λ token,
        let codes := doublemetaphone token in
        filter (λ c, c ≠ []) [codes.1; codes.2]) tokens in
    let dm_codes := elements (list_to_set dm_codes : gset str) in
    {| canon := canon; tokens := tokens; dm_codes := dm_codes |}.

Definition is_exact_match (name1 name2 : str) : bool :=
  bool_decide (canon (canonicalize name1) = canon (canonicalize name2)).
End WithMetaphone.

(** [extract_initials]; the initials are code points, see [upper_char]. *)
Definition extract_initials (tokens : list str) : list N :=
  flat_map (λ token,
    match token with
    | c :: _ => if isalpha c then upper_char c else []
    | [] => []
    end) tokens.

End Canonicalize.

(** ** [app/config.py] *)
Module Config.

Record Settings := {
  openai_api_key : option str;
  embeddings_provider : str;
  embedding_dim : Z;
  rerank_provider : str;
  topk_trigram : Z;
  topk_vector : Z;
  topk_phonetic : Z;
  k_union : Z;
  t_high : Q;
  t_low : Q;
  batch_workers : Z;
  batch_chunk_size : Z
}.

(** The values of the [Field] defaults. *)
Definition defaults : Settings := {|
  openai_api_key := None;
  embeddings_provider := lit "openai";
  embedding_dim := 1024;
  rerank_provider := lit "none";
  topk_trigram := 50;
  topk_vector := 50;
  topk_phonetic := 50;
  k_union := 120;
  t_high := 97 # 100;
  t_low := 60 # 100;
  batch_workers := 8;
  batch_chunk_size := 1000
|}.

End Config.

(** ** Exceptions, the database and the monad of the pipeline *)
Module Runtime.

Inductive exn := ZeroDivisionError | TypeError | ValueError.

Inductive result (A : Type) :=
| Ok (a : A)
| Raise (e : exn).
Arguments Ok {A} a.
Arguments Raise {A} e.

Definition rbind {A B} (r : result A) (k : A → result B) : result B :=
  match r with
  | Ok a => k a
  | Raise e => Raise e
  end.

(** [a / b] on numbers raises when [b] is zero. *)
Definition div (a b : Q) : result Q :=
  if Qeq_bool b 0 then Raise ZeroDivisionError else Ok (a / b)%Q.

(** A row of [payees].  Ingestion fills [name_canon], [name_tokens] and
    [dm_codes] from [canonicalize], so they are never null. *)
Record payee := {
  payee_id : Z;
  name_raw : str;
  name_canon : str;
  name_tokens : list str;
  dm_codes : list str;
  bq_supplier_id : option str;
  name_vec : option (list Q)
}.

(** What the pipeline keeps for a candidate it has scored. *)
Record scored_candidate := {
  sc_payee_id : Z;
  sc_name : str;
  sc_bq_supplier_id : option str;
  probability : Q;
  features : list (str * Q);
  top_features : list (str * Q);
  sc_sources : list str
}.

(** A row of [review_queue]. *)
Record review_item := {
  q_name_raw : str;
  q_name_canon : str;
  rv_candidates : list scored_candidate;
  status : str
}.

(** The statements sent to the database, in the order they are sent. *)
Inductive statement :=
| SelectExact (query : str)
| SelectTrigram (query : str)
| SelectVector
| SelectPhonetic (codes : list str)
| SelectPayee (id : Z)
| InsertReview (raw : str).

Definition is_write (s : statement) : bool :=
  match s with InsertReview _ => true | _ => false end.

Record world := {
  payees : list payee;
  review_queue : list review_item;
  statements : list statement
}.

(** A computation that reads and writes the database and may raise. *)
Definition M (A : Type) : Type := world → result A * world.

Definition ret {A} (a : A) : M A := λ w, (Ok a, w).

Definition raise {A} (e : exn) : M A := λ w, (Raise e, w).

Definition bind {A B} (m : M A) (k : A → M B) : M B :=
  λ w, match m w with
       | (Ok a, w') => k a w'
       | (Raise e, w') => (Raise e, w')
       end.

(** [x ← m; k] and [m;; k] are written with these instances. *)
#[global] Instance M_ret : MRet M := @ret.
#[global] Instance M_bind : MBind M := λ A B k m, bind m k.
#[global] Instance result_ret : MRet result := @Ok.
#[global] Instance result_bind : MBind result := λ A B k r, rbind r k.

Definition lift {A} (r : result A) : M A := λ w, (r, w).

(** [db.execute] of a statement: it is recorded. *)
Definition execute (s : statement) : M unit :=
  λ w, (Ok tt, {| payees := payees w;
                  review_queue := review_queue w;
                  statements := statements w ++ [s] |}).

Definition get_payees : M (list payee) := λ w, (Ok (payees w), w).

Definition insert_review (r : review_item) : M unit :=
  λ w, (Ok tt, {| payees := payees w;
                  review_queue := review_queue w ++ [r];
                  statements := statements w |}).

(** A [for] loop that collects what its body gives. *)
Fixpoint for_each {A B} (f : A → M (list B)) (l : list A) : M (list B) :=
  match l with
  | [] => ret []
  | x :: r =>
      ys ← f x; zs ← for_each f r; ret (ys ++ zs)
  end.

End Runtime.

Import Runtime.

(** ** [app/candidates.py] *)
Module Candidates.
Import Config Canonicalize.
Local Open Scope Q_scope.

(** What a view returns for a payee: id, score and source tag. *)
Definition hit : Type := Z * Q * str.

(** The shortlist entry of a payee. *)
Record candidate := {
  c_payee_id : Z;
  scores : list (str * Q);
  sources : list str;
  max_score : Q;
  avg_score : Q;
  num_sources : Z
}.

(** [limit or default] *)
Definition or_default (limit : option Z) (default : Z) : Z :=
  match limit with
  | Some l => if decide (l = 0%Z) then default else l
  | None => default
  end.

(** [max(scores)]: the first of the largest values. *)
Definition py_max (l : list Q) : Q :=
  match l with
  | [] => 0
  | x :: r => fold_left (λ m y, if Qle_bool y m then m else y) r x
  end.

Definition py_sum (l : list Q) : Q := fold_left Qplus l 0.

(** Descending order on keys, as [sort(key=..., reverse=True)] has it. *)
Definition desc_by {A} (key : A → Q) (x y : A) : bool :=
  Qle_bool (key y) (key x).

Definition set_len (l : list str) : Z :=
  Z.of_nat (size (list_to_set l : gset str)).

Definition inter_len (a b : list str) : Z :=
  Z.of_nat (size ((list_to_set a : gset str) ∩ list_to_set b)).

Definition union_len (a b : list str) : Z :=
  Z.of_nat (size ((list_to_set a : gset str) ∪ list_to_set b)).

(** The pair [(max_score, num_sources)], compared as tuples are. *)
Definition union_key_le (x y : candidate) : bool :=
  if Qeq_bool (max_score x) (max_score y)
  then (num_sources x <=? num_sources y)%Z
  else Qle_bool (max_score x) (max_score y).

(** The first loop of [union_candidates]: one entry per payee, in the order
    the payees are first met. *)
Definition record_hit (payee_scores : list (Z * (list (str * Q) * list str)))
    (h : hit) : list (Z * (list (str * Q) * list str)) :=
  let '(payee_id, score, source) := h in
  let entry := default ([], []) (dict_get payee_scores payee_id) in
  let source_type := before_sep ":"%char source in
  dict_set payee_scores payee_id
    (dict_set entry.1 source_type score, entry.2 ++ [source]).

Definition aggregate (candidates_lists : list (list hit))
    : list (Z * (list (str * Q) * list str)) :=
  fold_left (λ acc candidates, fold_left record_hit candidates acc)
    candidates_lists [].

(** The second loop: the aggregate scores of an entry. *)
Definition with_totals (e : Z * (list (str * Q) * list str)) : candidate :=
  let scores := dict_values e.2.1 in
  {| c_payee_id := e.1;
     scores := e.2.1;
     sources := e.2.2;
     max_score := match scores with [] => 0 | _ => py_max scores end;
     avg_score :=
       match scores with
       | [] => 0
       | _ => (py_sum scores / inject_Z (Z.of_nat (length scores)))%Q
       end;
     num_sources := Z.of_nat (length scores) |}.

Definition union_candidates (settings : Settings)
    (candidates_lists : list (list hit)) (k_union : option Z)
    : list candidate :=
  let k_union := or_default k_union (Config.k_union settings) in
  let payee_scores := aggregate candidates_lists in
  let payee_data := map with_totals payee_scores in
  slice_to k_union (sorted (λ x y, union_key_le y x) payee_data).

Section Views.
Variable settings : Settings.
(** [metaphone.doublemetaphone] *)
Variable doublemetaphone : str → str * str.
(** [f"{x:.3f}"] *)
Variable format_3f : Q → str.
(** The trigram query of the storage engine: the rows [(payee_id,
    score)] for a query and a limit, or nothing when the statement
    fails. *)
Variable pg_trgm_search : list payee → str → Z → option (list (Z * Q)).
(** The nearest-neighbour query of the storage engine. *)
Variable pg_vector_search : list payee → list Q → Z → option (list (Z * Q)).

Definition get_trigram_candidates (query_canon : str) (limit : option Z)
    : M (list hit) :=
  let limit := or_default limit (topk_trigram settings) in
  execute (SelectTrigram query_canon);;
  db ← get_payees;
  match pg_trgm_search db query_canon limit with
  | Some rows =>
      ret (map (λ row : Z * Q,
             (row.1, row.2, lit "trgm:" ++ format_3f row.2)) rows)
  | None => ret []
  end.

(** [get_embedding] of [utils.py].  Its parameter is called [text], and
    so is the function of [sqlalchemy] it uses to build its [SELECT]:
    inside the function [text(...)] calls the string, which raises
    [TypeError] before any statement is sent. *)
Definition get_embedding (text : str) : M (list Q) :=
  if decide (text = []) then
    ret (replicate (Z.to_nat (embedding_dim settings)) 0%Q)
  else raise TypeError.

Definition get_vector_candidates (query_canon : str) (limit : option Z)
    : M (list hit) :=
  let limit := or_default limit (topk_vector settings) in
  query_vec ← get_embedding query_canon;
  if decide (query_vec = []) then ret []
  else
    execute SelectVector;;
    db ← get_payees;
    match pg_vector_search db query_vec limit with
    | Some rows =>
        ret (map (λ row : Z * Q,
               (row.1, row.2, lit "vec:" ++ format_3f row.2)) rows)
    | None => ret []
    end.

(** The rows of the phonetic [SELECT]: the payees whose codes meet the
    query's, with the number of common codes, most common codes first.
    The statement fails on a negative [LIMIT]. *)
Definition phonetic_rows (db : list payee) (codes : list str) (limit : Z)
    : option (list (payee * Z)) :=
  if (limit <? 0)%Z then None
  else
    let rows := map (λ p, (p, inter_len (Runtime.dm_codes p) codes)) db in
    let rows := filter (λ r : payee * Z, (0 < r.2)%Z) rows in
    let rows :=
      sorted (λ x y : payee * Z, (y.2 <=? x.2)%Z) rows in
    Some (take (Z.to_nat limit) rows).

Definition get_phonetic_candidates (query_data : canon_data)
    (limit : option Z) : M (list hit) :=
  let limit := or_default limit (topk_phonetic settings) in
  let dm_codes := Canonicalize.dm_codes query_data in
  if decide (dm_codes = []) then ret []
  else
    execute (SelectPhonetic dm_codes);;
    db ← get_payees;
    match phonetic_rows db dm_codes limit with
    | None => ret []
    | Some result =>
        let candidates :=
          flat_map (λ row : payee * Z,
            if decide (row.2 = 0%Z) then []
            else
              let payee_codes := Runtime.dm_codes row.1 in
              if decide (payee_codes = []) then []
              else
                let intersection := inter_len payee_codes dm_codes in
                let union := union_len payee_codes dm_codes in
                let jaccard :=
                  if (0 <? union)%Z
                  then (inject_Z intersection / inject_Z union)%Q
                  else 0%Q in
                [(payee_id row.1, jaccard,
                  lit "dm:" ++ format_3f jaccard)]) result in
        let candidates :=
          sorted (desc_by (λ h : hit, h.1.2)) candidates in
        ret (slice_to limit candidates)
    end.

Definition get_exact_match (query_canon : str) : M (list hit) :=
  execute (SelectExact query_canon);;
  db ← get_payees;
  match filter (λ p, name_canon p = query_canon) db with
  | p :: _ => ret [(payee_id p, 1%Q, lit "exact:1.000")]
  | [] => ret []
  end.

Definition get_candidates (query_name : str) : M (list candidate) :=
  let query_data := canonicalize doublemetaphone query_name in
  let query_canon := canon query_data in
  if decide (query_canon = []) then ret []
  else
    exact ← get_exact_match query_canon;
    match exact with
    | e :: _ =>
        ret [{| c_payee_id := e.1.1;
                scores := [(lit "exact", 1%Q)];
                sources := [e.2];
                max_score := 1;
                avg_score := 1;
                num_sources := 1 |}]
    | [] =>
        trigram ← get_trigram_candidates query_canon None;
        let candidates_lists :=
          if decide (trigram = []) then [] else [trigram] in
        candidates_lists ←
          (if decide (embeddings_provider settings ≠ lit "none") then
             vector ← get_vector_candidates query_canon None;
             ret (if decide (vector = []) then candidates_lists
                  else candidates_lists ++ [vector])
           else ret candidates_lists);
        phonetic ← get_phonetic_candidates query_data None;
        let candidates_lists :=
          if decide (phonetic = []) then candidates_lists
          else candidates_lists ++ [phonetic] in
        ret (union_candidates settings candidates_lists None)
    end.
End Views.

End Candidates.

(** ** [app/features.py] *)
Module Features.
Import Canonicalize.
Local Open Scope Q_scope.

(** The functions of [rapidfuzz] that the features use. *)
Record rapidfuzz := {
  fuzz_token_set_ratio : str → str → Q;
  fuzz_token_sort_ratio : str → str → Q;
  fuzz_partial_ratio : str → str → Q;
  fuzz_ratio : str → str → Q;
  fuzz_partial_token_ratio : str → str → Q;
  Levenshtein_normalized_distance : str → str → Q;
  JaroWinkler_similarity : str → str → Q;
  Hamming_normalized_distance : str → str → Q
}.

Definition len {A} (l : list A) : Z := Z.of_nat (length l).

Definition set_size (s : gset str) : Z := Z.of_nat (size s).

Definition of_bool (b : bool) : Q := if b then 1 else 0.

(** The rest of [longer] after the first [char] in it. *)
Fixpoint find_after (char : ascii) (longer : str) : option str :=
  match longer with
  | [] => None
  | c :: r => if decide (c = char) then Some r else find_after char r
  end.

(** The loop of [check_abbreviation]: the characters of [shorter], spaces
    apart, are met in this order in [longer]. *)
Fixpoint in_order (shorter longer : str) : bool :=
  match shorter with
  | [] => true
  | char :: r =>
      if decide (char = " "%char) then in_order r longer
      else match find_after char longer with
           | Some rest => in_order r rest
           | None => false
           end
  end.

Definition check_abbreviation (text1 text2 : str) : Q :=
  if decide (length text1 = length text2) then 0
  else
    let shorter :=
      if decide (length text1 < length text2)%nat then text1 else text2 in
    let longer :=
      if decide (length text1 < length text2)%nat then text2 else text1 in
    if Qlt_le_dec (inject_Z (len longer) * (1 # 2)) (inject_Z (len shorter))
    then 0
    else of_bool (in_order shorter longer).

Definition variations : list (str * str) :=
  map (λ p : string * string, (lit p.1, lit p.2))
    [("and", "&"); ("corporation", "corp"); ("incorporated", "inc");
     ("limited", "ltd"); ("company", "co"); ("international", "intl");
     ("national", "natl"); ("associates", "assoc");
     ("management", "mgmt"); ("services", "svcs")]%string.

Definition check_common_variations (text1 text2 : str) : Q :=
  let t1 := lit " " ++ lower text1 ++ lit " " in
  let t2 := lit " " ++ lower text2 ++ lit " " in
  of_bool (existsb (λ v : str * str,
    let long_form := lit " " ++ v.1 ++ lit " " in
    let short_form := lit " " ++ v.2 ++ lit " " in
    let t1_normalized := replace long_form short_form t1 in
    let t2_normalized := replace long_form short_form t2 in
    bool_decide (strip t1_normalized = strip t2_normalized)) variations).

Definition get_feature_names : list str :=
  sorted str_leb (map lit
    ["token_set_ratio"; "token_sort_ratio"; "partial_ratio";
     "ratio"; "partial_token_ratio";
     "levenshtein"; "jaro_winkler"; "hamming";
     "trgm_score"; "vec_score"; "dm_score"; "num_sources";
     "dm_jaccard"; "dm_overlap_count"; "dm_overlap_ratio";
     "token_jaccard"; "token_overlap_count"; "token_overlap_ratio";
     "len_diff_abs"; "len_ratio"; "token_count_diff"; "token_count_ratio";
     "idf_overlap";
     "initials_match"; "is_abbreviation"; "has_common_variation";
     "exact_match"; "exact_match_raw"]%string).

Section Compute.
Variable doublemetaphone : str → str * str.
Variable fuzz : rapidfuzz.
(** The global [IDF_CACHE], filled at startup. *)
Variable IDF_CACHE : gmap str Q.

Definition idf (token : str) : Q := default 0 (IDF_CACHE !! token).

Definition compute_features (query_name : str) (candidate_record : payee)
    (candidate_scores : list (str * Q))
    : result (list Q * list (str * Q)) :=
  let q_data := canonicalize doublemetaphone query_name in
  let q_canon := canon q_data in
  let q_tokens : gset str := list_to_set (tokens q_data) in
  let q_dm : gset str := list_to_set (Canonicalize.dm_codes q_data) in
  let c_canon := name_canon candidate_record in
  let c_tokens : gset str := list_to_set (name_tokens candidate_record) in
  let c_dm : gset str := list_to_set (Runtime.dm_codes candidate_record) in
  let c_raw := name_raw candidate_record in
  (* rapidfuzz similarities *)
  token_set_ratio ← div (fuzz_token_set_ratio fuzz q_canon c_canon) 100;
  token_sort_ratio ← div (fuzz_token_sort_ratio fuzz q_canon c_canon) 100;
  partial_ratio ← div (fuzz_partial_ratio fuzz q_canon c_canon) 100;
  ratio ← div (fuzz_ratio fuzz q_canon c_canon) 100;
  partial_token_ratio ←
    div (fuzz_partial_token_ratio fuzz q_canon c_canon) 100;
  let levenshtein :=
    1 - Levenshtein_normalized_distance fuzz q_canon c_canon in
  let jaro_winkler := JaroWinkler_similarity fuzz q_canon c_canon in
  let hamming := 1 - Hamming_normalized_distance fuzz q_canon c_canon in
  (* scores of the views *)
  let with_scores := bool_decide (candidate_scores ≠ []) in
  let trgm_score :=
    if with_scores
    then dict_get_default candidate_scores (lit "trgm") 0 else 0 in
  let vec_score :=
    if with_scores
    then dict_get_default candidate_scores (lit "vec") 0 else 0 in
  let dm_score :=
    if with_scores
    then dict_get_default candidate_scores (lit "dm") 0 else 0 in
  let num_sources :=
    if with_scores
    then len (filter (λ v, 0 < v) (dict_values candidate_scores))
    else 0%Z in
  (* phonetic features *)
  let dm_intersection := set_size (q_dm ∩ c_dm) in
  let dm_union := set_size (q_dm ∪ c_dm) in
  let dm_both := bool_decide (q_dm ≠ ∅) && bool_decide (c_dm ≠ ∅) in
  dm_jaccard ←
    (if dm_both then
       if (0 <? dm_union)%Z
       then div (inject_Z dm_intersection) (inject_Z dm_union)
       else Ok 0
     else Ok 0);
  let dm_overlap_count := if dm_both then dm_intersection else 0%Z in
  dm_overlap_ratio ←
    (if dm_both
     then div (inject_Z dm_intersection) (inject_Z (set_size q_dm))
     else Ok 0);
  (* token features *)
  let token_intersection := set_size (q_tokens ∩ c_tokens) in
  let token_union := set_size (q_tokens ∪ c_tokens) in
  let token_both :=
    bool_decide (q_tokens ≠ ∅) && bool_decide (c_tokens ≠ ∅) in
  token_jaccard ←
    (if token_both then
       if (0 <? token_union)%Z
       then div (inject_Z token_intersection) (inject_Z token_union)
       else Ok 0
     else Ok 0);
  let token_overlap_count :=
    if token_both then token_intersection else 0%Z in
  token_overlap_ratio ←
    (if token_both
     then div (inject_Z token_intersection) (inject_Z (set_size q_tokens))
     else Ok 0);
  (* lengths *)
  let len_diff_abs := Z.abs (len q_canon - len c_canon) in
  len_ratio ←
    div (inject_Z (Z.min (len q_canon) (len c_canon)))
        (inject_Z (Z.max (Z.max (len q_canon) (len c_canon)) 1));
  let token_count_diff :=
    Z.abs (set_size q_tokens - set_size c_tokens) in
  token_count_ratio ←
    div (inject_Z (Z.min (set_size q_tokens) (set_size c_tokens)))
        (inject_Z
           (Z.max (Z.max (set_size q_tokens) (set_size c_tokens)) 1));
  (* rare tokens *)
  idf_overlap ←
    (if bool_decide (IDF_CACHE ≠ ∅) && token_both then
       let overlapping := q_tokens ∩ c_tokens in
       let idf_sum := Candidates.py_sum (map idf (elements overlapping)) in
       let max_idf_sum := Candidates.py_sum (map idf (elements q_tokens)) in
       if Qlt_le_dec 0 max_idf_sum then div idf_sum max_idf_sum else Ok 0
     else Ok 0);
  (* special cases *)
  let q_initials := extract_initials (elements q_tokens) in
  let c_initials := extract_initials (elements c_tokens) in
  let initials_match := of_bool (bool_decide (q_initials = c_initials)) in
  let is_abbreviation := check_abbreviation q_canon c_canon in
  let has_common_variation := check_common_variations q_canon c_canon in
  (* exact matches *)
  let exact_match := of_bool (bool_decide (q_canon = c_canon)) in
  let exact_match_raw :=
    of_bool (bool_decide
      (strip (lower query_name) = strip (lower c_raw))) in
  let features : list (str * Q) :=
    dict_of (map (λ p : string * Q, (lit p.1, p.2))
      [("token_set_ratio", token_set_ratio);
       ("token_sort_ratio", token_sort_ratio);
       ("partial_ratio", partial_ratio);
       ("ratio", ratio);
       ("partial_token_ratio", partial_token_ratio);
       ("levenshtein", levenshtein);
       ("jaro_winkler", jaro_winkler);
       ("hamming", hamming);
       ("trgm_score", trgm_score);
       ("vec_score", vec_score);
       ("dm_score", dm_score);
       ("num_sources", inject_Z num_sources);
       ("dm_jaccard", dm_jaccard);
       ("dm_overlap_count", inject_Z dm_overlap_count);
       ("dm_overlap_ratio", dm_overlap_ratio);
       ("token_jaccard", token_jaccard);
       ("token_overlap_count", inject_Z token_overlap_count);
       ("token_overlap_ratio", token_overlap_ratio);
       ("len_diff_abs", inject_Z len_diff_abs);
       ("len_ratio", len_ratio);
       ("token_count_diff", inject_Z token_count_diff);
       ("token_count_ratio", token_count_ratio);
       ("idf_overlap", idf_overlap);
       ("initials_match", initials_match);
       ("is_abbreviation", is_abbreviation);
       ("has_common_variation", has_common_variation);
       ("exact_match", exact_match);
       ("exact_match_raw", exact_match_raw)]%string) in
  let feature_names := sorted str_leb (dict_keys features) in
  let feature_vector :=
    map (λ name, dict_get_default features name 0) feature_names in
  Ok (feature_vector, features).
End Compute.

End Features.

(** ** [app/classifier.py] *)
Module Classifier.
Import Features.
Local Open Scope Q_scope.

(** The classifier object.  [model] is the fitted estimator loaded from
    disk: it gives the probability of the positive class for a feature
    vector, or nothing when the call raises. *)
Record PayeeClassifier := {
  model : option (list Q → option Q);
  feature_names : option (list str);
  is_trained : bool
}.

(** The object when no artifact is on disk. *)
Definition untrained : PayeeClassifier :=
  {| model := None; feature_names := None; is_trained := false |}.

(** [dict(zip(feature_names, features))] *)
Definition feature_dict (features : list Q) : list (str * Q) :=
  dict_of (zip get_feature_names features).

Definition heuristic_score (features : list Q) : Q :=
  let feature_dict := feature_dict features in
  let get name default := dict_get_default feature_dict (lit name) default in
  if Qeq_bool (get "exact_match"%string 0) 1 then 99 # 100
  else
    let score := 0 in
    let score := score + get "token_set_ratio"%string 0 * (25 # 100) in
    let score := score + get "token_sort_ratio"%string 0 * (20 # 100) in
    let score := score + get "jaro_winkler"%string 0 * (15 # 100) in
    let score := score + get "levenshtein"%string 0 * (10 # 100) in
    let score := score + get "trgm_score"%string 0 * (10 # 100) in
    let score := score + get "vec_score"%string 0 * (5 # 100) in
    let score := score + get "dm_jaccard"%string 0 * (5 # 100) in
    let score := score + get "token_jaccard"%string 0 * (5 # 100) in
    let score :=
      if Qeq_bool (get "initials_match"%string 0) 1
      then score + (5 # 100) else score in
    let score :=
      if Qeq_bool (get "is_abbreviation"%string 0) 1
      then score + (10 # 100) else score in
    let score :=
      if Qeq_bool (get "has_common_variation"%string 0) 1
      then score + (10 # 100) else score in
    let len_ratio := get "len_ratio"%string 1 in
    let score :=
      if Qlt_le_dec len_ratio (1 # 2) then score * (8 # 10) else score in
    Qmin (Qmax score 0) 1.

Definition predict_proba (self : PayeeClassifier) (features : list Q) : Q :=
  match is_trained self, model self with
  | true, Some m =>
      match m features with
      | Some proba => proba
      | None => heuristic_score features
      end
  | _, _ => heuristic_score features
  end.

Definition weights : list (str * Q) :=
  map (λ p : string * Q, (lit p.1, p.2))
    [("token_set_ratio", 25 # 100); ("token_sort_ratio", 20 # 100);
     ("jaro_winkler", 15 # 100); ("levenshtein", 10 # 100);
     ("trgm_score", 10 # 100); ("vec_score", 5 # 100);
     ("dm_jaccard", 5 # 100); ("token_jaccard", 5 # 100);
     ("exact_match", 1); ("initials_match", 5 # 100);
     ("is_abbreviation", 10 # 100);
     ("has_common_variation", 10 # 100)]%string.

Definition explain (features : list Q) (top_n : Z) : list (str * Q) :=
  let feature_dict := feature_dict features in
  let weighted :=
    flat_map (λ nw : str * Q,
      let value := dict_get_default feature_dict nw.1 0 in
      let contribution := value * nw.2 in
      if Qlt_le_dec 0 contribution then [(nw.1, contribution)] else [])
      weights in
  slice_to top_n (sorted (Candidates.desc_by snd) weighted).

End Classifier.

(** ** [app/matching.py] *)
Module Matching.
Import Config Canonicalize Candidates Features Classifier.
Local Open Scope Q_scope.

Inductive decision := auto_match | needs_review | no_match.

#[global] Instance decision_eq_dec : EqDecision decision.
Proof. solve_decision. Defined.

Record match_result := {
  decision_of : decision;
  confidence : Q;
  matched_payee : option (Z * str * option str);
  candidates : list scored_candidate;
  reason : option str
}.

Definition no_match_because (why : string) : match_result :=
  {| decision_of := no_match;
     confidence := 0;
     matched_payee := None;
     candidates := [];
     reason := Some (lit why) |}.

(** [max(a, b)] *)
Definition py_max2 (a b : Q) : Q := if Qlt_le_dec a b then b else a.

Section Pipeline.
Variable settings : Settings.
Variable doublemetaphone : str → str * str.
Variable format_3f : Q → str.
(** [f"{x:.2%}"] *)
Variable format_pct : Q → str.
Variable pg_trgm_search : list payee → str → Z → option (list (Z * Q)).
Variable pg_vector_search : list payee → list Q → Z → option (list (Z * Q)).
Variable fuzz : rapidfuzz.
Variable IDF_CACHE : gmap str Q.
(** The global [classifier]. *)
Variable classifier : PayeeClassifier.
(** The answer of the language model for a query and a candidate name:
    [same] and [confidence], or nothing when the call or the parsing of
    its answer fails. *)
Variable llm_same_entity : str → str → option (bool * Q).

Definition add_to_review_queue (name_raw name_canon : str)
    (candidates : list scored_candidate) : M unit :=
  execute (InsertReview name_raw);;
  insert_review {| q_name_raw := name_raw;
                   q_name_canon := name_canon;
                   rv_candidates := candidates;
                   status := lit "open" |}.

(** [candidates[0]] is read: the function is called with the scored
    candidates, of which there is at least one. *)
Definition rerank_with_llm (query_name : str)
    (candidates : list scored_candidate) : decision * Q :=
  let p := match candidates with c :: _ => probability c | [] => 0 end in
  match openai_api_key settings with
  | None => (needs_review, p)
  | Some key =>
      if decide (key = []) then (needs_review, p)
      else
        let name := match candidates with c :: _ => sc_name c | [] => [] end in
        match llm_same_entity query_name name with
        | Some (same, conf) =>
            if same && bool_decide (90 # 100 <= conf)
            then (auto_match, py_max2 p conf)
            else (needs_review, p)
        | None => (needs_review, p)
        end
  end.

(** The body of the loop over the candidates. *)
Definition score_candidate (name_raw : str) (candidate : candidate)
    : M (list scored_candidate) :=
  execute (SelectPayee (c_payee_id candidate));;
  db ← get_payees;
  match filter (λ p, payee_id p = c_payee_id candidate) db with
  | [] => ret []
  | payee_dict :: _ =>
      fv ← lift (compute_features doublemetaphone fuzz IDF_CACHE
                   name_raw payee_dict (scores candidate));
      let '(features, feature_dict) := fv in
      let proba := predict_proba classifier features in
      let top := explain features 3 in
      ret [{| sc_payee_id := payee_id payee_dict;
              sc_name := Runtime.name_raw payee_dict;
              sc_bq_supplier_id := bq_supplier_id payee_dict;
              probability := proba;
              Runtime.features := feature_dict;
              top_features := top;
              sc_sources := sources candidate |}]
  end.

Definition _match_one_internal (name_raw : str) : M match_result :=
  let canon_data := canonicalize doublemetaphone name_raw in
  let canon := canon canon_data in
  if decide (canon = []) then ret (no_match_because "Empty or invalid name")
  else
    candidates ←
      get_candidates settings doublemetaphone format_3f
        pg_trgm_search pg_vector_search name_raw;
    match candidates with
    | [] => ret (no_match_because "No candidates found")
    | _ =>
        scored_candidates ← for_each (score_candidate name_raw) candidates;
        let scored_candidates :=
          sorted (desc_by probability) scored_candidates in
        match scored_candidates with
        | [] => ret (no_match_because "No viable candidates")
        | best :: _ =>
            let confidence := probability best in
            let decision :=
              if bool_decide (t_high settings <= confidence) then auto_match
              else if bool_decide (t_low settings <= confidence)
              then needs_review
              else no_match in
            let '(decision, confidence) :=
              if bool_decide (decision = needs_review)
                 && bool_decide (rerank_provider settings = lit "openai")
              then rerank_with_llm name_raw (slice_to 5 scored_candidates)
              else (decision, confidence) in
            let result matched why :=
              {| decision_of := decision;
                 confidence := confidence;
                 matched_payee := matched;
                 candidates := slice_to 5 scored_candidates;
                 reason := Some why |} in
            match decision with
            | auto_match =>
                ret (result
                  (Some (sc_payee_id best, sc_name best,
                         sc_bq_supplier_id best))
                  (lit "High confidence match ("
                     ++ format_pct confidence ++ lit ")"))
            | needs_review =>
                add_to_review_queue name_raw canon
                  (slice_to 10 scored_candidates);;
                ret (result None
                  (lit "Borderline match (" ++ format_pct confidence
                     ++ lit "), review needed"))
            | no_match =>
                ret (result None
                  (lit "Low confidence (" ++ format_pct confidence
                     ++ lit ")"))
            end
        end
    end.

Definition match_one (name_raw : str) : M match_result :=
  _match_one_internal name_raw.

End Pipeline.

End Matching.

(** ** [batch_process] of [app/utils.py], [match_batch] and the batch
    endpoint *)
Module Batch.
Import Config Matching.

(** [try: ... except Exception: log] around a call that gives a list. *)
Definition or_nothing {B} (m : M (list B)) : M (list B) :=
  λ w, match m w with
       | (Ok r, w') => (Ok r, w')
       | (Raise _, w') => (Ok [], w')
       end.

(** [[items[i:i + chunk_size] for i in range(0, len(items), chunk_size)]];
    [range] refuses a zero step and is empty for a negative one. *)
Definition chunks_of {A} (items : list A) (chunk_size : Z)
    : result (list (list A)) :=
  if decide (chunk_size = 0)%Z then Raise ValueError
  else if decide (chunk_size < 0)%Z then Ok []
  else
    let size := Z.to_nat chunk_size in
    let count := (length items + size - 1) `div` size in
    Ok (map (λ j, take size (drop (j * size) items)) (seq 0 count)).

(** [completion] is the order in which the futures complete: the indices
    of the chunks, each once, as [as_completed] gives them.  The worker
    threads are taken to run one after the other in that order.  The pool
    refuses a number of workers that is not positive. *)
Definition batch_process {A B} (items : list A) (func : list A → M (list B))
    (workers chunk_size : Z) (completion : list nat) : M (list B) :=
  chunks ← lift (chunks_of items chunk_size);
  if decide (workers <= 0)%Z then raise ValueError
  else
    for_each (λ i,
      match chunks !! i with
      | Some chunk => or_nothing (func chunk)
      | None => ret []
      end) completion.

Section Endpoint.
Variable settings : Settings.
(** [match_one], with the services it needs already given. *)
Variable match_one : str → M match_result.

Definition process_chunk (chunk : list str) : M (list (str * match_result)) :=
  for_each (λ name, result ← match_one name; ret [(name, result)]) chunk.

Definition match_batch (names : list str) (stream : bool)
    (completion : list nat) : M (list (str * match_result)) :=
  batch_process names process_chunk
    (batch_workers settings) (batch_chunk_size settings) completion.

(** The generator of the streaming answer. *)
Definition generate (names : list str) : M (list (str * match_result)) :=
  for_each (λ name, result ← match_one name; ret [(name, result)]) names.

Definition match_batch_endpoint (names : list str) (stream : bool)
    (completion : list nat) : M (list (str * match_result)) :=
  if stream then generate names
  else match_batch names false completion.
End Endpoint.

End Batch.

(** ** Vocabulary of the statements *)
Module Spec.
Import Config Canonicalize Candidates Features Classifier Matching.
Local Open Scope Q_scope.

(** [a] stands before [b] in [l]. *)
Fixpoint before {A} (a b : A) (l : list A) : Prop :=
  match l with
  | [] => False
  | x :: r => (x = a ∧ b ∈ r) ∨ before a b r
  end.

(** The payees of the hits, each once, in the order they are first met. *)
Definition first_met (ids : list Z) : list Z :=
  fold_left (λ acc i, if decide (i ∈ acc) then acc else acc ++ [i]) ids [].

Definition hit_ids (candidates_lists : list (list hit)) : list Z :=
  map (λ h : hit, h.1.1) (concat candidates_lists).

(** [a] may stand before [b] in the shortlist: its pair
    [(max_score, num_sources)] is not the smaller one. *)
Definition key_ge (a b : candidate) : Prop :=
  max_score b < max_score a
  ∨ (max_score b == max_score a ∧ (num_sources b <= num_sources a)%Z).

Definition same_key (a b : candidate) : Prop :=
  max_score a == max_score b ∧ num_sources a = num_sources b.

(** The tie-break that the specification asks of the shortlist. *)
Definition ties_by_payee_id (out : list candidate) : Prop :=
  ∀ a b, before a b out → same_key a b → (c_payee_id a < c_payee_id b)%Z.

(** The number of sources of a scored candidate. *)
Definition sc_num_sources (c : scored_candidate) : Z :=
  Z.of_nat (length (sc_sources c)).

(** The order that the specification asks of the scored candidates. *)
Definition scored_order (a b : scored_candidate) : Prop :=
  probability b < probability a
  ∨ (probability a == probability b
     ∧ ((sc_num_sources b < sc_num_sources a)%Z
        ∨ (sc_num_sources a = sc_num_sources b
           ∧ (sc_payee_id a <= sc_payee_id b)%Z))).

(** The entry of a feature vector that belongs to a feature name: the
    vector follows the sorted list of the names. *)
Definition feature_of (features : list Q) (name : string) : Q :=
  match list_find (λ n, n = lit name) get_feature_names with
  | Some (i, _) => nth i features 0
  | None => 0
  end.



(** A feature that is a flag: 0 or 1. *)
Definition is_flag (x : Q) : Prop := x == 0 ∨ x == 1.

Definition flags_are_binary (features : list Q) : Prop :=
  is_flag (feature_of features "initials_match")
  ∧ is_flag (feature_of features "is_abbreviation")
  ∧ is_flag (feature_of features "has_common_variation").

(** A probability. *)
Definition in_unit (p : Q) : Prop := 0 <= p ∧ p <= 1.

(** The loaded estimator gives probabilities, as a calibrated classifier
    of [sklearn] does. *)
Definition calibrated (c : PayeeClassifier) : Prop :=
  ∀ m features p, model c = Some m → m features = Some p → in_unit p.

(** The text of a name after the cleaning steps of [canonicalize] that
    follow lower-casing and trimming. *)
Definition cleaned (text : str) : str :=
  expand_abbreviations (sub_disallowed (remove_diacritics text)).

(** The tokens of a name before the filters. *)
Definition raw_tokens (name_raw : str) : list str :=
  split (cleaned (strip (lower name_raw))).

(** The tokens that [canonicalize] hands to [handle_special_cases]. *)
Definition kept_tokens (name_raw : str) : list str :=
  filter (λ t, (t ∉ GENERIC_WORDS) ∧ (t ∉ CORPORATE_SUFFIXES))
    (raw_tokens name_raw).

(** The tokens of the canonical form. *)
Definition final_tokens (name_raw : str) : list str :=
  sorted str_leb
    (elements (list_to_set
       (filter (λ t, t ≠ []) (handle_special_cases (kept_tokens name_raw)))
       : gset str)).

(** The tokens that one word of a name gives. *)
Definition word_tokens (word : str) : list str :=
  split (cleaned (lower word)).

(** A character of a token: [[a-z0-9&]]. *)
Definition tok_char (c : ascii) : bool :=
  is_az c || is_digit c || is_code 38 c.

(** What the ten substitutions together make of a run of word characters. *)
Definition expand_run (run : str) : str :=
  fold_left (λ r p, replace_run p.1 p.2 r) ABBREVIATIONS run.

(** A token that a second pass of [canonicalize] leaves alone: it is not
    a generic word, not a corporate suffix and not an abbreviation. *)
Definition stable_token (t : str) : Prop :=
  (t ∉ GENERIC_WORDS) ∧ (t ∉ CORPORATE_SUFFIXES) ∧ (t ∉ map fst ABBREVIATIONS).

End Spec.

(** ** Concrete inputs *)
Module Examples.
Import Config Candidates Features Classifier Matching.
Local Open Scope Q_scope.

(** Two payees that the trigram view reports with the same score, the one
    with the larger id first. *)
Definition tied_hits : list (list hit) :=
  [[(2%Z, 1 # 2, lit "trgm:0.500"); (1%Z, 1 # 2, lit "trgm:0.500")]].

(** An estimator that always answers one half. *)
Definition coin : PayeeClassifier :=
  {| model := Some (λ _, Some (1 # 2));
     feature_names := Some get_feature_names;
     is_trained := true |}.

(** Services for the examples.  The Double Metaphone codes of a token are
    taken to be the token itself; the similarities are those of equal
    strings (100, distance 0) on equal strings and those of unrelated
    strings otherwise; numbers are printed as [?]; the similarity searches
    of the storage engine fail, so that their views are empty. *)
Definition metaphone (token : str) : str * str := (token, []).

Definition all_or_nothing (hi lo : Q) (a b : str) : Q :=
  if decide (a = b) then hi else lo.

Definition fuzz : rapidfuzz :=
  {| fuzz_token_set_ratio := all_or_nothing 100 0;
     fuzz_token_sort_ratio := all_or_nothing 100 0;
     fuzz_partial_ratio := all_or_nothing 100 0;
     fuzz_ratio := all_or_nothing 100 0;
     fuzz_partial_token_ratio := all_or_nothing 100 0;
     Levenshtein_normalized_distance := all_or_nothing 0 1;
     JaroWinkler_similarity := all_or_nothing 1 0;
     Hamming_normalized_distance := all_or_nothing 0 1 |}.

Definition format (x : Q) : str := lit "?".

Definition no_search {Q' : Type} (db : list payee) (query : Q') (limit : Z)
    : option (list (Z * Q)) := None.

Definition no_llm (query candidate : str) : option (bool * Q) := None.

(** A payee as ingestion stores it. *)
Definition stored (id : Z) (name : string) : payee :=
  let data := Canonicalize.canonicalize metaphone (lit name) in
  {| payee_id := id;
     name_raw := lit name;
     name_canon := Canonicalize.canon data;
     name_tokens := Canonicalize.tokens data;
     dm_codes := Canonicalize.dm_codes data;
     bq_supplier_id := None;
     name_vec := None |}.

(** The registry of the end-to-end scenarios. *)
Definition registry : world :=
  {| payees := [stored 1 "Microsoft Corporation"; stored 2 "Home Depot Inc";
                stored 3 "HD Supply Holdings Inc"; stored 4 "FedEx Corporation";
                stored 5 "Apple Inc"];
     review_queue := [];
     statements := [] |}.

(** [match_one] with the default settings, no learned model and the
    services above. *)
Definition match_name (settings : Settings) (name : string) : M match_result :=
  match_one settings metaphone format format no_search no_search fuzz ∅
    untrained no_llm (lit name).

(** The default settings with chunks of one name. *)
Definition small_chunks : Settings :=
  {| openai_api_key := None;
     embeddings_provider := lit "openai";
     embedding_dim := 1024;
     rerank_provider := lit "none";
     topk_trigram := 50;
     topk_vector := 50;
     topk_phonetic := 50;
     k_union := 120;
     t_high := 97 # 100;
     t_low := 60 # 100;
     batch_workers := 8;
     batch_chunk_size := 1 |}.

(** Two names of the registry, to be matched as a batch. *)
Definition two_names : list str := [lit "Microsoft Corp"; lit "Apple"].

End Examples.

(** ** Vocabulary for the effects of the pipeline *)
Module Effects.
Import Config Matching.
Local Open Scope Q_scope.
(** [w'] comes from [w] by statements that do not write: the tables are
    the same and the log of statements has grown by reads. *)
Definition reads_only (w w' : world) : Prop :=
  payees w' = payees w
  ∧ review_queue w' = review_queue w
  ∧ ∃ stmts, statements w' = statements w ++ stmts
             ∧ Forall (λ s, is_write s = false) stmts.

(** The row that [add_to_review_queue] inserts. *)
Definition review_row (name_raw name_canon : str)
    (candidates : list scored_candidate) : review_item :=
  {| q_name_raw := name_raw;
     q_name_canon := name_canon;
     rv_candidates := candidates;
     status := lit "open" |}.

(** The decision that the thresholds give to a confidence. *)
Definition threshold_decision (settings : Settings) (confidence : Q)
    : decision :=
  if bool_decide (t_high settings <= confidence)%Q then auto_match
  else if bool_decide (t_low settings <= confidence)%Q then needs_review
  else no_match.
End Effects.

(** ** Further concrete inputs *)
Module Scenarios.
Import Config.
Local Open Scope Q_scope.
(** Settings for running without embeddings, with the review band
    starting at one half and chunks of one name. *)
Definition lenient : Settings :=
  {| openai_api_key := None;
     embeddings_provider := lit "none";
     embedding_dim := 1024;
     rerank_provider := lit "none";
     topk_trigram := 50;
     topk_vector := 50;
     topk_phonetic := 50;
     k_union := 120;
     t_high := 97 # 100;
     t_low := 1 # 2;
     batch_workers := 8;
     batch_chunk_size := 1 |}.

(** The same with the reranker enabled. *)
Definition reranking : Settings :=
  {| openai_api_key := Some (lit "key");
     embeddings_provider := lit "none";
     embedding_dim := 1024;
     rerank_provider := lit "openai";
     topk_trigram := 50;
     topk_vector := 50;
     topk_phonetic := 50;
     k_union := 120;
     t_high := 97 # 100;
     t_low := 1 # 2;
     batch_workers := 8;
     batch_chunk_size := 1000 |}.

(** A language model that always finds the two names to be the same
    entity, with confidence 0.95. *)
Definition yes_llm (query candidate : str) : option (bool * Q) :=
  Some (true, 95 # 100).

(** Double Metaphone codes for the scenarios with numbers: the letters of
    a token, so that a token of digits has no code, as in the library. *)
Definition letter_codes (token : str) : str * str :=
  (filter (λ c, Py.is_az c = true) token, []).

(** A payee as ingestion stores it with these codes. *)
Definition numbered (id : Z) (name : string) : payee :=
  let data := Canonicalize.canonicalize letter_codes (lit name) in
  {| payee_id := id;
     name_raw := lit name;
     name_canon := Canonicalize.canon data;
     name_tokens := Canonicalize.tokens data;
     Runtime.dm_codes := Canonicalize.dm_codes data;
     bq_supplier_id := None;
     name_vec := None |}.

(** Six payees whose names have the same canonical form, [100 200]. *)
Definition numbers : world :=
  {| payees := [numbered 1 "100 200"; numbered 2 "200 100";
                numbered 3 "100 200 Inc"; numbered 4 "The 200 100";
                numbered 5 "100 200 Corp"; numbered 6 "200, 100 LLC"];
     review_queue := [];
     statements := [] |}.

(** A trigram search that finds every payee equally similar to the query,
    with similarity one half, and reports the rows from the last to the
    first: the rows of equal score come in no particular order. *)
Definition tied_search (db : list payee) (query : str) (limit : Z)
    : option (list (Z * Q)) :=
  Some (map (λ p, (payee_id p, 1 # 2)) (reverse db)).

(** [match_one] on a name of numbers: embeddings are off, no learned
    model is loaded, and the trigram view is the one above. *)
Definition match_number (name : string) : M Matching.match_result :=
  Matching.match_one lenient letter_codes Examples.format Examples.format
    tied_search Examples.no_search Examples.fuzz ∅ Classifier.untrained
    Examples.no_llm (lit name).
End Scenarios.

(** ** [app/routers/review.py] *)
Module Review.

(** What ends a request without an answer: the [HTTPException] that the
    handlers raise, or a statement that the database refuses. *)
Inductive failure := HTTPException (status_code : Z) | DatabaseError.

Inductive outcome (A : Type) :=
| Answer (a : A)
| Failed (f : failure).
Arguments Answer {A} a.
Arguments Failed {A} f.

(** The body of a request, [ReviewDecision]. *)
Record ReviewDecision := {
  approved : bool;
  decision_payee_id : option Z;
  notes : option str
}.

(** A row of [labels]. *)
Record label := {
  l_q_name_raw : str;
  l_q_name_canon : str;
  c_payee_id : Z;
  y : bool;
  meta_notes : option str
}.

(** The two tables of the handlers: the rows of [review_queue] with their
    [rq_id], and [labels].  The time stamps of the rows are left out. *)
Record tables := {
  queue : list (Z * review_item);
  labels : list label
}.

(** [UPDATE review_queue SET status = ... WHERE rq_id = :id] *)
Definition set_status (new_status : str) (rq_id : Z)
    (rows : list (Z * review_item)) : list (Z * review_item) :=
  map (λ row : Z * review_item,
    if decide (row.1 = rq_id)
    then (row.1, {| q_name_raw := q_name_raw row.2;
                    q_name_canon := q_name_canon row.2;
                    rv_candidates := rv_candidates row.2;
                    status := new_status |})
    else row) rows.

(** [SELECT ... WHERE rq_id = :id AND status = 'open'], [.first()] *)
Definition select_open (rq_id : Z) (rows : list (Z * review_item))
    : option (Z * review_item) :=
  head (filter (λ row : Z * review_item,
                  row.1 = rq_id ∧ status row.2 = lit "open") rows).

(** The truth value of [decision.payee_id]: an id that is given and is
    not zero. *)
Definition given (payee_id : option Z) : option Z :=
  match payee_id with
  | Some p => if decide (p = 0%Z) then None else Some p
  | None => None
  end.

Section Handlers.
(** Whether the database takes a row into [labels]; when it does not,
    the request ends before [commit] and the tables stay as they were. *)
Variable labels_accept : label → bool.

Definition insert_label (l : label) (t : tables) : outcome tables :=
  if labels_accept l
  then Answer {| queue := queue t; labels := labels t ++ [l] |}
  else Failed DatabaseError.

Definition approve_match (rq_id : Z) (decision : ReviewDecision)
    (t : tables) : outcome (str * Z) * tables :=
  match select_open rq_id (queue t) with
  | None => (Failed (HTTPException 404), t)
  | Some review =>
      let labelled :=
        match (if approved decision then given (decision_payee_id decision)
               else None) with
        | Some payee_id =>
            insert_label {| l_q_name_raw := q_name_raw review.2;
                            l_q_name_canon := q_name_canon review.2;
                            c_payee_id := payee_id;
                            y := true;
                            meta_notes := notes decision |} t
        | None => Answer t
        end in
      match labelled with
      | Failed f => (Failed f, t)
      | Answer t1 =>
          (Answer (lit "approved", rq_id),
           {| queue := set_status (lit "approved") rq_id (queue t1);
              labels := labels t1 |})
      end
  end.

Definition reject_match (rq_id : Z) (decision : ReviewDecision)
    (t : tables) : outcome (str * Z) * tables :=
  match select_open rq_id (queue t) with
  | None => (Failed (HTTPException 404), t)
  | Some review =>
      let labelled :=
        match given (decision_payee_id decision) with
        | Some payee_id =>
            insert_label {| l_q_name_raw := q_name_raw review.2;
                            l_q_name_canon := q_name_canon review.2;
                            c_payee_id := payee_id;
                            y := false;
                            meta_notes := notes decision |} t
        | None => Answer t
        end in
      match labelled with
      | Failed f => (Failed f, t)
      | Answer t1 =>
          (Answer (lit "rejected", rq_id),
           {| queue := set_status (lit "rejected") rq_id (queue t1);
              labels := labels t1 |})
      end
  end.
End Handlers.

(** What a request for the item [rq_id] may do to the tables [t]: it
    keeps the ids of the queue and every row with another id, it adds at
    most one label and removes none, and when it fails it changes
    nothing. *)
Definition request_frame (rq_id : Z) (t : tables)
    (r : outcome (str * Z) * tables) : Prop :=
  map fst (queue r.2) = map fst (queue t)
  ∧ (∀ row : Z * review_item,
       row.1 ≠ rq_id → row ∈ queue r.2 ↔ row ∈ queue t)
  ∧ (∃ new, labels r.2 = labels t ++ new ∧ (length new ≤ 1)%nat)
  ∧ (∀ f, r.1 = Failed f → r.2 = t).

End Review.

(** ** [compute_idf] of [app/utils.py] *)
Module Idf.
Local Open Scope Q_scope.

(** A loop over a list that stops at the first step that raises. *)
Fixpoint for_items {A B} (f : A → result B) (l : list A) : result (list B) :=
  match l with
  | [] => Ok []
  | x :: r => y ← f x; ys ← for_items f r; Ok (y :: ys)
  end.

(** [for token in set(tokens): df[token] += 1]; a missing key of a
    [Counter] counts as zero. *)
Definition count_document (df : list (str * Z)) (tokens : list str)
    : list (str * Z) :=
  fold_left (λ df token,
               dict_set df token (dict_get_default df token 0%Z + 1)%Z)
    (elements (list_to_set tokens : gset str)) df.

Section Compute_idf.
(** [math.log], which is used on positive numbers only. *)
Variable log : Q → Q.

Definition compute_idf (corpus_tokens : list (list str))
    : result (list (str * Q)) :=
  let doc_count := Z.of_nat (length corpus_tokens) in
  if decide (doc_count = 0%Z) then Ok []
  else
    let df := fold_left count_document corpus_tokens [] in
    for_items (λ item : str * Z,
      ratio ← div (inject_Z doc_count) (inject_Z item.2);
      Ok (item.1, log ratio)) df.
End Compute_idf.

(** The number of documents that hold a token. *)
Definition document_frequency (corpus_tokens : list (list str))
    (token : str) : Z :=
  Z.of_nat (length (filter (λ tokens, token ∈ tokens) corpus_tokens)).

End Idf.

(** * Properties *)

Import Config Canonicalize Candidates Features Classifier Matching Batch Spec.

(** ** Sorting *)
Section Sorting.
Context {A : Type} (le : A → A → bool).

Lemma insert_by_Permutation x l : insert_by le x l ≡ₚ x :: l.
Proof.
  induction l as [|y l IH]; simpl; [done|].
  destruct (le x y); [done|].
  rewrite IH. apply Permutation_swap.
Qed.

Lemma sorted_Permutation l : sorted le l ≡ₚ l.
Proof.
  induction l as [|x l IH]; simpl; [done|].
  by rewrite insert_by_Permutation, IH.
Qed.

Lemma before_elem_of (a b : A) l : before a b l → a ∈ l ∧ b ∈ l.
Proof.
  induction l as [|x l IH]; simpl; [done|].
  intros [[-> Hb]|H].
  - split; [left | by right].
  - destruct (IH H). split; by right.
Qed.

Lemma before_app_l (a b : A) l1 l2 : before a b l1 → before a b (l1 ++ l2).
Proof.
  induction l1 as [|x l1 IH]; simpl; [done|].
  intros [[-> Hb]|H]; [left | right; auto].
  split; [done|]. apply elem_of_app. by left.
Qed.

Lemma before_take (a b : A) n l : before a b (take n l) → before a b l.
Proof.
  intros H. rewrite <- (take_drop n l). by apply before_app_l.
Qed.

Lemma before_map {B} (f : A → B) a b l :
  before a b l → before (f a) (f b) (map f l).
Proof.
  induction l as [|x l IH]; simpl; [done|].
  intros [[-> Hb]|H]; [left | right; auto].
  split; [done|]. apply list_elem_of_fmap. eauto.
Qed.

Lemma before_insert_by a b x s :
  before a b (insert_by le x s) →
  (a = x ∧ b ∈ s) ∨ (b = x ∧ a ∈ s ∧ le x a = false) ∨ before a b s.
Proof.
  induction s as [|y s IH]; simpl.
  - intros [[_ Hb]|[]]. by apply elem_of_nil in Hb.
  - destruct (le x y) eqn:Hxy; simpl.
    + intros [[-> Hb]|H]; [by left | by right; right].
    + intros [[-> Hb]|H].
      * apply (elem_of_Permutation_proper _ _ _ (insert_by_Permutation x s)) in Hb.
        apply elem_of_cons in Hb as [->|Hb].
        -- right; left. repeat split; [left | done].
        -- right; right. by left.
      * destruct (IH H) as [[-> Hb]|[(-> & Ha & Hle)|H']].
        -- left. split; [done | by right].
        -- right; left. repeat split; [by right | done].
        -- right; right. by right.
Qed.

(** Stability: two elements that the sort leaves in an order the comparison
    does not force were in that order before. *)
Lemma sorted_stable a b l :
  before a b (sorted le l) → le b a = true → before a b l.
Proof.
  induction l as [|x l IH]; simpl; [done|].
  intros H Hba. apply before_insert_by in H as [[-> Hb]|[(-> & Ha & Hle)|H]].
  - left. split; [done|].
    by apply (elem_of_Permutation_proper _ _ _ (sorted_Permutation l)) in Hb.
  - congruence.
  - right. by apply IH.
Qed.

Hypothesis le_total : ∀ x y, le x y = true ∨ le y x = true.
Hypothesis le_trans : ∀ x y z, le x y = true → le y z = true → le x z = true.

Lemma insert_by_sorted x l :
  StronglySorted (λ a b, le a b = true) l →
  StronglySorted (λ a b, le a b = true) (insert_by le x l).
Proof.
  induction 1 as [|y l Hl IH Hy]; simpl.
  - repeat constructor.
  - destruct (le x y) eqn:Hxy.
    + constructor; [by constructor|].
      constructor; [done|].
      eapply Forall_impl; [exact Hy|]. intros z Hz. by eapply le_trans.
    + constructor; [done|].
      rewrite (insert_by_Permutation x l).
      constructor; [|done].
      destruct (le_total x y); congruence.
Qed.

Lemma sorted_StronglySorted l :
  StronglySorted (λ a b, le a b = true) (sorted le l).
Proof.
  induction l as [|x l IH]; simpl; [constructor|].
  by apply insert_by_sorted.
Qed.

End Sorting.

Lemma StronglySorted_take {A} (R : A → A → Prop) n l :
  StronglySorted R l → StronglySorted R (take n l).
Proof.
  intros H. rewrite <- (take_drop n l) in H.
  by apply StronglySorted_app_1_l in H.
Qed.

Lemma StronglySorted_mono {A} (R1 R2 : A → A → Prop) l :
  (∀ a b, R1 a b → R2 a b) → StronglySorted R1 l → StronglySorted R2 l.
Proof.
  intros HR. induction 1 as [|x l Hl IH Hx]; constructor; [done|].
  eapply Forall_impl; [exact Hx|]. auto.
Qed.

Lemma slice_to_length {A} (k : Z) (l : list A) :
  (0 <= k)%Z → (Z.of_nat (length (slice_to k l)) <= k)%Z.
Proof.
  intros Hk. unfold slice_to.
  destruct (0 <=? k)%Z eqn:E; [|lia].
  rewrite length_take. lia.
Qed.

Lemma slice_to_nonneg {A} (k : Z) (l : list A) :
  (0 <= k)%Z → slice_to k l = take (Z.to_nat k) l.
Proof.
  intros Hk. unfold slice_to. destruct (0 <=? k)%Z eqn:E; [done|lia].
Qed.

(** ** Descending order *)

Lemma desc_by_total {A} (key : A → Q) x y :
  desc_by key x y = true ∨ desc_by key y x = true.
Proof.
  unfold desc_by. rewrite !Qle_bool_iff.
  destruct (Qlt_le_dec (key x) (key y)) as [H|H]; [right | left]; [|done].
  by apply Qlt_le_weak.
Qed.

Lemma desc_by_trans {A} (key : A → Q) x y z :
  desc_by key x y = true → desc_by key y z = true → desc_by key x z = true.
Proof.
  unfold desc_by. rewrite !Qle_bool_iff. intros H1 H2. by eapply Qle_trans.
Qed.

(** ** The candidate union *)

Lemma union_key_le_spec x y : union_key_le x y = true ↔ key_ge y x.
Proof.
  unfold union_key_le, key_ge.
  destruct (Qeq_bool (max_score x) (max_score y)) eqn:E.
  - apply Qeq_bool_iff in E. rewrite Z.leb_le. split.
    + intros H. by right.
    + intros [H|[_ H]]; [|done]. rewrite E in H. by apply Qlt_irrefl in H.
  - apply Qeq_bool_neq in E. rewrite Qle_bool_iff. split.
    + intros H. left. apply Qle_lteq in H as [H|H]; [done|contradiction].
    + intros [H|[H _]]; [by apply Qlt_le_weak | contradiction].
Qed.

Lemma key_ge_total a b : key_ge a b ∨ key_ge b a.
Proof.
  unfold key_ge.
  destruct (Q_dec (max_score a) (max_score b)) as [[H|H]|H]; [by right; left | by left; left |].
  destruct (Z.le_ge_cases (num_sources a) (num_sources b)).
  - right; right. done.
  - left; right. split; [by symmetry | done].
Qed.

Lemma key_ge_trans a b c : key_ge a b → key_ge b c → key_ge a c.
Proof.
  unfold key_ge. intros [H1|[H1 H1']] [H2|[H2 H2']].
  - left. by eapply Qlt_trans.
  - left. by rewrite H2.
  - left. by rewrite <- H1.
  - right. split; [by rewrite H2 | lia].
Qed.

Lemma dict_keys_set {K V} `{EqDecision K} (d : list (K * V)) k v :
  dict_keys (dict_set d k v)
  = if decide (k ∈ dict_keys d) then dict_keys d else dict_keys d ++ [k].
Proof.
  unfold dict_keys. induction d as [|[k' v'] d IH]; simpl.
  - destruct (decide (k ∈ [])) as [H|_]; [by apply elem_of_nil in H | done].
  - destruct (decide (k' = k)) as [->|Hne]; simpl.
    + destruct (decide (k ∈ k :: map fst d)) as [_|H]; [done|].
      exfalso. apply H. left.
    + rewrite IH.
      destruct (decide (k ∈ map fst d)) as [Hin|Hnin];
        destruct (decide (k ∈ k' :: map fst d)) as [Hin'|Hnin']; try done.
      * exfalso. apply Hnin'. by right.
      * apply elem_of_cons in Hin' as [->|Hin']; done.
Qed.

Lemma record_hit_keys acc (h : hit) :
  dict_keys (record_hit acc h)
  = if decide (h.1.1 ∈ dict_keys acc) then dict_keys acc
    else dict_keys acc ++ [h.1.1].
Proof.
  destruct h as [[id score] source]. unfold record_hit. simpl.
  apply dict_keys_set.
Qed.

Lemma aggregate_concat candidates_lists acc :
  fold_left (λ acc candidates, fold_left record_hit candidates acc)
    candidates_lists acc
  = fold_left record_hit (concat candidates_lists) acc.
Proof.
  revert acc. induction candidates_lists as [|l ls IH]; intros acc; simpl;
    [done|].
  by rewrite IH, fold_left_app.
Qed.

Lemma record_hits_keys hits acc :
  dict_keys (fold_left record_hit hits acc)
  = fold_left (λ acc i, if decide (i ∈ acc) then acc else acc ++ [i])
      (map (λ h : hit, h.1.1) hits) (dict_keys acc).
Proof.
  revert acc. induction hits as [|h hits IH]; intros acc; simpl; [done|].
  by rewrite IH, record_hit_keys.
Qed.

(** The entries of the union are in the order the payees are first met. *)
Lemma aggregate_keys candidates_lists :
  dict_keys (aggregate candidates_lists) = first_met (hit_ids candidates_lists).
Proof.
  unfold aggregate, first_met, hit_ids.
  by rewrite aggregate_concat, record_hits_keys.
Qed.

(** C6, as the code has it: the shortlist is the first [K_union] entries,
    when that bound is not negative, of the merged payees put in order:
    from the largest [max_score] down and among equal [max_score] from the
    largest [num_sources] down; two payees that agree on both stand in the
    order in which the views first reported them, whatever their ids. *)
Theorem union_candidates_order settings candidates_lists k :
  (0 <= or_default k (k_union settings))%Z →
  let K := or_default k (k_union settings) in
  let merged := map with_totals (aggregate candidates_lists) in
  let out := union_candidates settings candidates_lists k in
  map c_payee_id merged = first_met (hit_ids candidates_lists)
  ∧ (Z.of_nat (length out) <= K)%Z
  ∧ ∃ rest,
      out ++ rest ≡ₚ merged
      ∧ length out = Nat.min (Z.to_nat K) (length merged)
      ∧ StronglySorted key_ge (out ++ rest)
      ∧ ∀ a b, before a b (out ++ rest) → same_key a b →
          before (c_payee_id a) (c_payee_id b)
            (first_met (hit_ids candidates_lists)).
Proof.
  intros HK K merged out. subst out. unfold union_candidates.
  fold K. fold merged.
  set (full := sorted _ merged).
  assert (Hids : map c_payee_id merged = first_met (hit_ids candidates_lists)).
  { rewrite <- aggregate_keys. unfold merged, dict_keys.
    rewrite map_map. apply map_ext. by intros [? [? ?]]. }
  assert (Hperm : full ≡ₚ merged) by apply sorted_Permutation.
  assert (Hsorted : StronglySorted key_ge full).
  { eapply StronglySorted_mono;
      [|apply (sorted_StronglySorted (λ x y, union_key_le y x))].
    - intros a b H. by apply union_key_le_spec in H.
    - intros x y. rewrite !union_key_le_spec. apply key_ge_total.
    - intros x y z. rewrite !union_key_le_spec. apply key_ge_trans. }
  split; [exact Hids|].
  split; [by apply slice_to_length|].
  rewrite slice_to_nonneg by done.
  exists (drop (Z.to_nat K) full). rewrite take_drop.
  split; [exact Hperm|]. split; [|split].
  - rewrite length_take. by rewrite (Permutation_length Hperm).
  - exact Hsorted.
  - intros a b Hab [Hms Hns]. unfold full in Hab.
    apply sorted_stable in Hab.
    + apply (before_map c_payee_id) in Hab. by rewrite Hids in Hab.
    + apply union_key_le_spec. right. split; [done | lia].
Qed.

(** C6, as the specification states it, fails: two payees with the same
    [max_score] and [num_sources] come out in the order of the hits, here
    payee 2 before payee 1. *)
Lemma union_candidates_order_counterexample :
  map c_payee_id (union_candidates Config.defaults Examples.tied_hits None)
    = [2%Z; 1%Z]
  ∧ ¬ ties_by_payee_id
        (union_candidates Config.defaults Examples.tied_hits None).
Proof.
  split; [reflexivity|].
  intros H.
  set (out := union_candidates Config.defaults Examples.tied_hits None) in *.
  assert (Hout : ∃ a b, out = [a; b] ∧ c_payee_id a = 2%Z ∧ c_payee_id b = 1%Z
                        ∧ same_key a b).
  { eexists _, _. split; [reflexivity|]. repeat split. }
  destruct Hout as (a & b & -> & Ha & Hb & Hkey).
  specialize (H a b). rewrite Ha, Hb in H.
  assert (2 < 1)%Z; [|lia].
  apply H; [|done]. left. split; [done | left].
Qed.

(** The theorem at the default settings and the hits above: both payees
    are returned. *)
Lemma union_candidates_order_witness :
  (0 <= or_default None (k_union Config.defaults))%Z
  ∧ length (union_candidates Config.defaults Examples.tied_hits None)
    = Nat.min (Z.to_nat (or_default None (k_union Config.defaults)))
        (length (map with_totals (aggregate Examples.tied_hits)))
  ∧ StronglySorted key_ge
      (union_candidates Config.defaults Examples.tied_hits None).
Proof.
  assert (H : (0 <= or_default None (k_union Config.defaults))%Z)
    by (vm_compute; discriminate).
  split; [exact H|].
  destruct (union_candidates_order Config.defaults Examples.tied_hits None H)
    as (_ & _ & rest & _ & Hlen & Hsorted & _).
  split; [exact Hlen|].
  by apply StronglySorted_app_1_l in Hsorted.
Defined.

(** ** The scorer *)

(** Reads the named entries of a feature vector given by its entries. *)
Ltac read_features :=
  repeat match goal with
  | |- context [dict_get_default (feature_dict ?v) ?k ?z] =>
      let r := eval vm_compute in (dict_get_default (feature_dict v) k z) in
      change (dict_get_default (feature_dict v) k z) with r
  | |- context [feature_of ?v ?n] =>
      let r := eval vm_compute in (feature_of v n) in
      change (feature_of v n) with r
  | H : context [feature_of ?v ?n] |- _ =>
      let r := eval vm_compute in (feature_of v n) in
      change (feature_of v n) with r in H
  end.




Lemma heuristic_score_in_unit features : in_unit (heuristic_score features).
Proof.
  unfold heuristic_score, in_unit.
  destruct (Qeq_bool _ 1); [split; discriminate|].
  match goal with |- context [Qmax ?s 0] => generalize s end. intros s.
  split.
  - apply Q.min_glb; [apply Q.le_max_r | discriminate].
  - apply Q.le_min_r.
Qed.

Lemma predict_proba_in_unit self features :
  calibrated self → in_unit (predict_proba self features).
Proof.
  intros Hcal. unfold predict_proba.
  destruct (is_trained self); [|apply heuristic_score_in_unit].
  destruct (model self) as [m|] eqn:Hm; [|apply heuristic_score_in_unit].
  destruct (m features) as [p|] eqn:Hp; [|apply heuristic_score_in_unit].
  by eapply Hcal.
Qed.

(** ** The feature extractor *)

Lemma div_ok (a b : Q) : ¬ (b == 0)%Q → div a b = Ok (a / b)%Q.
Proof.
  intros H. unfold div. destruct (Qeq_bool b 0) eqn:E; [|done].
  by apply Qeq_bool_iff in E.
Qed.

Lemma inject_Z_nonzero (z : Z) : z ≠ 0%Z → ¬ (inject_Z z == 0)%Q.
Proof. intros H E. apply H. unfold Qeq in E. simpl in E. lia. Qed.

Lemma set_size_nonzero (s : gset str) : s ≠ ∅ → set_size s ≠ 0%Z.
Proof.
  intros H E. apply H. apply leibniz_equiv, size_empty_iff.
  unfold set_size in E. lia.
Qed.

(** The divisions of [compute_features], one lemma for each guard. *)
Lemma div_by_100 a : div a 100 = Ok (a / 100)%Q.
Proof. apply div_ok. discriminate. Qed.

Lemma div_if_positive (g : bool) (n d : Z) :
  ∃ v, (if g then if (0 <? d)%Z then div (inject_Z n) (inject_Z d) else Ok 0%Q
        else Ok 0%Q) = Ok v.
Proof.
  destruct g; [|eauto]. destruct (0 <? d)%Z eqn:E; [|eauto].
  rewrite div_ok; [eauto|]. apply inject_Z_nonzero. lia.
Qed.

Lemma div_if_nonempty (s1 s2 : gset str) (n : Z) :
  ∃ v, (if bool_decide (s1 ≠ ∅) && bool_decide (s2 ≠ ∅)
        then div (inject_Z n) (inject_Z (set_size s1)) else Ok 0%Q) = Ok v.
Proof.
  destruct (bool_decide (s1 ≠ ∅)) eqn:E; simpl; [|eauto].
  destruct (bool_decide (s2 ≠ ∅)); [|eauto].
  apply bool_decide_eq_true in E.
  rewrite div_ok; [eauto|]. by apply inject_Z_nonzero, set_size_nonzero.
Qed.

Lemma div_by_max (n a b : Z) :
  ∃ v, div (inject_Z n) (inject_Z (Z.max (Z.max a b) 1)) = Ok v.
Proof. rewrite div_ok; [eauto|]. apply inject_Z_nonzero. lia. Qed.

Lemma div_if_sum_positive (g : bool) (a b : Q) :
  ∃ v, (if g then if Qlt_le_dec 0 b then div a b else Ok 0%Q else Ok 0%Q)
       = Ok v.
Proof.
  destruct g; [|eauto]. destruct (Qlt_le_dec 0 b) as [H|H]; [|eauto].
  rewrite div_ok; [eauto|]. intros E. rewrite E in H. by apply Qlt_irrefl in H.
Qed.

(** Passes the first division that is still to be made. *)
Ltac next_division :=
  match goal with
  | |- context [mbind ?k (div ?a 100)] =>
      rewrite (div_by_100 a)
  | |- context [mbind ?k (if ?g then if (0 <? ?d)%Z
                                     then div (inject_Z ?n) _ else _ else _)] =>
      let v := fresh "v" in destruct (div_if_positive g n d) as [v ->]
  | |- context [mbind ?k (if bool_decide (?s1 ≠ ∅) && bool_decide (?s2 ≠ ∅)
                          then div (inject_Z ?n) _ else _)] =>
      let v := fresh "v" in destruct (div_if_nonempty s1 s2 n) as [v ->]
  | |- context [mbind ?k (div (inject_Z ?n)
                            (inject_Z (Z.max (Z.max ?a ?b) 1)))] =>
      let v := fresh "v" in destruct (div_by_max n a b) as [v ->]
  | |- context [mbind ?k (if ?g then if Qlt_le_dec 0 ?b
                                     then div ?a ?b else _ else _)] =>
      let v := fresh "v" in destruct (div_if_sum_positive g a b) as [v ->]
  end;
  match goal with
  | |- context [mbind ?k (Ok ?v)] => change (mbind k (Ok v)) with (k v); cbv beta
  end.

(** Gives a name to every value of the feature dictionary. *)
Ltac name_values :=
  repeat match goal with
  | |- context [@pair string Q ?n ?v] =>
      tryif is_var v then fail
      else (let x := fresh "x" in set (x := v); clearbody x)
  end.

Lemma of_bool_flag b : is_flag (of_bool b).
Proof. destruct b; [right | left]; reflexivity. Qed.

Lemma check_abbreviation_flag a b : is_flag (check_abbreviation a b).
Proof.
  unfold check_abbreviation.
  destruct (decide _); [left; reflexivity|].
  destruct (Qlt_le_dec _ _); [left; reflexivity|]. apply of_bool_flag.
Qed.

(** What [compute_features] returns: it returns, the vector has the 28
    features in the order of [get_feature_names], and the flags are where
    the scorer looks for them. *)
Lemma compute_features_shape dm fuzz IDF query record scores :
  ∃ vector dict,
    compute_features dm fuzz IDF query record scores = Ok (vector, dict)
    ∧ length vector = 28%nat
    ∧ sorted str_leb (dict_keys dict) = get_feature_names
    ∧ dict_get_default (feature_dict vector) (lit "exact_match") 0%Q
      = of_bool (bool_decide (canon (canonicalize dm query) = name_canon record))
    ∧ flags_are_binary vector.
Proof.
  unfold compute_features.
  do 12 next_division.
  eexists _, _. split; [reflexivity|].
  set (e := of_bool (bool_decide (canon _ = _))).
  unfold flags_are_binary.
  pose proof (of_bool_flag (bool_decide
    (extract_initials (elements (list_to_set (tokens (canonicalize dm query)) : gset str))
     = extract_initials (elements (list_to_set (name_tokens record) : gset str)))))
    as Hi.
  pose proof (check_abbreviation_flag (canon (canonicalize dm query))
    (name_canon record)) as Ha.
  assert (Hv : is_flag (check_common_variations (canon (canonicalize dm query))
    (name_canon record))) by apply of_bool_flag.
  revert Hi Ha Hv.
  name_values. intros Hi Ha Hv.
  repeat split; try (vm_compute; reflexivity); read_features; assumption.
Qed.

(** The extractor on a name without tokens and a payee without name: the
    guarded divisions take their zero branch, and the two empty canonical
    strings are an exact match. *)
Example compute_features_empty :
  ∃ vector dict,
    compute_features Examples.metaphone Examples.fuzz ∅ []
      (Examples.stored 0 "") [] = Ok (vector, dict)
    ∧ (feature_of vector "len_ratio" == 0)%Q
    ∧ (feature_of vector "token_jaccard" == 0)%Q
    ∧ (feature_of vector "dm_overlap_ratio" == 0)%Q
    ∧ (feature_of vector "exact_match" == 1)%Q.
Proof.
  eexists _, _. split; [vm_compute; reflexivity|].
  repeat split; vm_compute; reflexivity.
Qed.

(** C10: for every query, candidate record and view scores,
    [compute_features] returns a feature vector, with its 28 features named
    as the scorer expects: none of its divisions raises. *)
Theorem compute_features_total dm fuzz IDF query record scores :
  ∃ vector dict,
    compute_features dm fuzz IDF query record scores = Ok (vector, dict)
    ∧ length vector = 28%nat
    ∧ sorted str_leb (dict_keys dict) = get_feature_names.
Proof.
  destruct (compute_features_shape dm fuzz IDF query record scores)
    as (vector & dict & H1 & H2 & H3 & _).
  by exists vector, dict.
Qed.



(** ** The pipeline *)

Lemma run_bind {A B} (m : M A) (k : A → M B) w :
  (m ≫= k) w
  = match m w with (Ok a, w') => k a w' | (Raise e, w') => (Raise e, w') end.
Proof. reflexivity. Qed.

Lemma run_mret {A} (a : A) w : mret (M := M) a w = (Ok a, w).
Proof. reflexivity. Qed.

Lemma run_ret {A} (a : A) w : ret a w = (Ok a, w).
Proof. reflexivity. Qed.

Lemma run_execute s w :
  execute s w = (Ok tt, {| payees := payees w; review_queue := review_queue w;
                           statements := statements w ++ [s] |}).
Proof. reflexivity. Qed.

Lemma run_get_payees w : get_payees w = (Ok (payees w), w).
Proof. reflexivity. Qed.

Lemma run_lift {A} (r : result A) w : lift r w = (r, w).
Proof. reflexivity. Qed.

(** Runs the statements at the head of a computation. *)
Ltac run :=
  repeat first
    [ rewrite run_bind | rewrite run_execute | rewrite run_get_payees
    | rewrite run_mret | rewrite run_ret | rewrite run_lift
    | progress cbn beta iota
    | progress cbn [payees statements review_queue fst snd
                    c_payee_id scores sources max_score avg_score num_sources
                    probability sc_payee_id sc_name sc_bq_supplier_id
                    sc_sources] ].

Lemma for_each_Forall {A B} (P : B → Prop) (f : A → M (list B)) l w ys w' :
  (∀ x w ys w', f x w = (Ok ys, w') → Forall P ys) →
  for_each f l w = (Ok ys, w') → Forall P ys.
Proof.
  intros Hf. revert w ys w'. induction l as [|x l IH]; intros w ys w'; simpl.
  - intros [= <- _]. constructor.
  - run. destruct (f x w) as [[xs|e] w1] eqn:Hx; [|done].
    run. destruct (for_each f l w1) as [[zs|e] w2] eqn:Hl; [|done].
    run. intros [= <- _]. apply Forall_app. split; eauto.
Qed.

Lemma filter_by_id_none (l : list payee) (q : payee) :
  payee_id q ∉ map payee_id l →
  filter (λ x, payee_id x = payee_id q) l = [].
Proof.
  intros Hq. destruct (filter _ l) as [|y ys] eqn:E; [done|]. exfalso.
  assert (H : y ∈ filter (λ x, payee_id x = payee_id q) l)
    by (rewrite E; left).
  apply list_elem_of_filter in H as [Heq Hy].
  apply Hq. rewrite <- Heq. apply list_elem_of_fmap. eauto.
Qed.

Lemma filter_by_id (l : list payee) (p : payee) :
  NoDup (map payee_id l) → p ∈ l →
  filter (λ x, payee_id x = payee_id p) l = [p].
Proof.
  induction l as [|x l IH]; intros Hnd Hin; [by apply elem_of_nil in Hin|].
  simpl in Hnd. apply NoDup_cons in Hnd as [Hx Hnd]. rewrite filter_cons.
  apply elem_of_cons in Hin as [->|Hin].
  - rewrite decide_True by done. f_equal. by apply filter_by_id_none.
  - rewrite decide_False; [by apply IH|].
    intros Heq. apply Hx. rewrite Heq. apply list_elem_of_fmap. eauto.
Qed.

Lemma heuristic_score_exact vector :
  dict_get_default (feature_dict vector) (lit "exact_match") 0%Q = 1%Q →
  heuristic_score vector = (99 # 100)%Q.
Proof. intros H. unfold heuristic_score. by rewrite H. Qed.

Section Pipeline_facts.
Variable settings : Settings.
Variable doublemetaphone : str → str * str.
Variable format_3f : Q → str.
Variable format_pct : Q → str.
Variable pg_trgm_search : list payee → str → Z → option (list (Z * Q)).
Variable pg_vector_search : list payee → list Q → Z → option (list (Z * Q)).
Variable fuzz : rapidfuzz.
Variable IDF_CACHE : gmap str Q.
Variable classifier : PayeeClassifier.
Variable llm_same_entity : str → str → option (bool * Q).

Let run_match :=
  match_one settings doublemetaphone format_3f format_pct pg_trgm_search
    pg_vector_search fuzz IDF_CACHE classifier llm_same_entity.

(** C8: a name whose canonical form is empty is answered with [no_match],
    confidence 0 and the reason "Empty or invalid name", and the database is
    left as it was: no statement is sent to it, so nothing is written. *)
Theorem empty_canonical_no_match name w :
  canon (canonicalize doublemetaphone name) = [] →
  run_match name w
  = (Ok {| decision_of := no_match;
           confidence := 0;
           matched_payee := None;
           candidates := [];
           reason := Some (lit "Empty or invalid name") |}, w).
Proof.
  intros H. unfold run_match, match_one, _match_one_internal.
  by rewrite decide_True.
Qed.

(** C1, as the code has it: when the canonical form of the query is not
    empty and is the canonical name of a payee of the registry (whose ids
    are distinct), the scorer has no learned model and [T_high] is at most
    0.99, the answer is [auto_match] with confidence 0.99, the score the
    heuristic gives to an exact match, for a payee with that canonical
    name; the only statements sent are the exact probe and the fetch of
    that payee, so no other view is consulted and nothing is written. *)
Theorem exact_match_auto_match name w p :
  canon (canonicalize doublemetaphone name) ≠ [] →
  p ∈ payees w →
  name_canon p = canon (canonicalize doublemetaphone name) →
  NoDup (map payee_id (payees w)) →
  is_trained classifier = false →
  (t_high settings <= 99 # 100)%Q →
  ∃ r w' p0,
    run_match name w = (Ok r, w')
    ∧ decision_of r = auto_match
    ∧ confidence r = (99 # 100)%Q
    ∧ p0 ∈ payees w
    ∧ name_canon p0 = canon (canonicalize doublemetaphone name)
    ∧ matched_payee r = Some (payee_id p0, name_raw p0, bq_supplier_id p0)
    ∧ statements w'
      = statements w ++ [SelectExact (canon (canonicalize doublemetaphone name));
                         SelectPayee (payee_id p0)]
    ∧ payees w' = payees w
    ∧ review_queue w' = review_queue w.
Proof.
  intros Hne Hin Hcanon Hnd Hcl Hth.
  set (q := canon (canonicalize doublemetaphone name)) in *.
  destruct (filter (λ p, name_canon p = q) (payees w)) as [|p0 rest] eqn:Hex.
  { exfalso. by apply filter_nil_not_elem_of with (x := p) in Hex. }
  assert (Hp0 : p0 ∈ payees w ∧ name_canon p0 = q).
  { assert (H : p0 ∈ filter (λ p, name_canon p = q) (payees w))
      by (rewrite Hex; left).
    apply list_elem_of_filter in H. tauto. }
  destruct Hp0 as [Hp0 Hq0].
  pose proof (filter_by_id _ _ Hnd Hp0) as Hid.
  destruct (compute_features_shape doublemetaphone fuzz IDF_CACHE name p0
              [(lit "exact", 1%Q)])
    as (vector & dict & Hcf & _ & _ & Hexact & _).
  fold q in Hexact. rewrite bool_decide_true in Hexact by done.
  apply heuristic_score_exact in Hexact.
  assert (Hp : predict_proba classifier vector = (99 # 100)%Q).
  { unfold predict_proba. by rewrite Hcl. }
  eexists _, _, p0.
  unfold run_match, match_one, _match_one_internal. fold q.
  rewrite decide_False by done.
  unfold get_candidates. fold q. rewrite decide_False by done.
  unfold get_exact_match.
  run. rewrite Hex. run.
  unfold for_each, score_candidate. run. rewrite Hid. run.
  rewrite Hcf. run. rewrite Hp, app_nil_r. cbn [sorted foldr insert_by]. run.
  rewrite (bool_decide_true (t_high settings <= 99 # 100)%Q) by done.
  rewrite (bool_decide_false (auto_match = needs_review)) by done.
  cbn [andb]. run.
  split; [reflexivity|]. cbn.
  repeat split; try done. by rewrite <- app_assoc.
Qed.

Lemma score_candidate_in_unit name c w ys w' :
  calibrated classifier →
  score_candidate doublemetaphone fuzz IDF_CACHE classifier name c w
    = (Ok ys, w') →
  Forall (λ sc, in_unit (probability sc)) ys.
Proof.
  intros Hcal. unfold score_candidate. run.
  destruct (filter _ _) as [|p ?]; run; [intros [= <- _]; constructor|].
  destruct (compute_features _ _ _ _ _ _) as [[vector dict]|e]; run; [|done].
  intros [= <- _]. constructor; [|constructor].
  by apply predict_proba_in_unit.
Qed.

End Pipeline_facts.

(** The theorem on the empty name, at the name [Inc], which has no token
    left, and the registry of the scenarios. *)
Lemma empty_canonical_no_match_witness :
  canon (canonicalize Examples.metaphone (lit "Inc")) = []
  ∧ Examples.match_name Config.defaults "Inc" Examples.registry
    = (Ok {| decision_of := no_match;
             confidence := 0;
             matched_payee := None;
             candidates := [];
             reason := Some (lit "Empty or invalid name") |},
       Examples.registry).
Proof.
  assert (H : canon (canonicalize Examples.metaphone (lit "Inc")) = [])
    by (vm_compute; reflexivity).
  split; [exact H|].
  exact (empty_canonical_no_match Config.defaults Examples.metaphone
           Examples.format Examples.format Examples.no_search
           Examples.no_search Examples.fuzz ∅ untrained Examples.no_llm
           (lit "Inc") Examples.registry H).
Defined.

(** C1, as the specification states it, fails: the query [Microsoft Corp]
    has the canonical name of the payee [Microsoft Corporation], and the
    answer is [auto_match] with confidence 0.99, not 1. *)
Lemma exact_match_auto_match_counterexample :
  ∃ p r w',
    p ∈ payees Examples.registry
    ∧ name_canon p
      = canon (canonicalize Examples.metaphone (lit "Microsoft Corp"))
    ∧ Examples.match_name Config.defaults "Microsoft Corp" Examples.registry
      = (Ok r, w')
    ∧ decision_of r = auto_match
    ∧ ¬ (confidence r == 1)%Q.
Proof.
  eexists (Examples.stored 1 "Microsoft Corporation"), _, _.
  split; [left|]. split; [vm_compute; reflexivity|].
  split; [vm_compute; reflexivity|]. split; [reflexivity|].
  cbn. discriminate.
Qed.

Lemma exact_match_auto_match_witness :
  canon (canonicalize Examples.metaphone (lit "Microsoft Corp")) ≠ []
  ∧ Examples.stored 1 "Microsoft Corporation" ∈ payees Examples.registry
  ∧ NoDup (map payee_id (payees Examples.registry))
  ∧ ∃ r w' p0,
      Examples.match_name Config.defaults "Microsoft Corp" Examples.registry
        = (Ok r, w')
      ∧ decision_of r = auto_match
      ∧ confidence r = (99 # 100)%Q
      ∧ matched_payee r = Some (payee_id p0, name_raw p0, bq_supplier_id p0)
      ∧ statements w' = [SelectExact (lit "microsoft"); SelectPayee (payee_id p0)].
Proof.
  assert (H1 : canon (canonicalize Examples.metaphone (lit "Microsoft Corp")) ≠ [])
    by (vm_compute; discriminate).
  assert (H2 : Examples.stored 1 "Microsoft Corporation"
               ∈ payees Examples.registry) by left.
  assert (H3 : name_canon (Examples.stored 1 "Microsoft Corporation")
               = canon (canonicalize Examples.metaphone (lit "Microsoft Corp")))
    by (vm_compute; reflexivity).
  assert (H4 : NoDup (map payee_id (payees Examples.registry)))
    by (apply (bool_decide_unpack _); vm_compute; exact I).
  assert (H5 : is_trained untrained = false) by (vm_compute; reflexivity).
  assert (H6 : (t_high Config.defaults <= 99 # 100)%Q)
    by (vm_compute; discriminate).
  split; [exact H1|]. split; [exact H2|]. split; [exact H4|].
  destruct (exact_match_auto_match Config.defaults Examples.metaphone
              Examples.format Examples.format Examples.no_search
              Examples.no_search Examples.fuzz ∅ untrained Examples.no_llm
              (lit "Microsoft Corp") Examples.registry
              (Examples.stored 1 "Microsoft Corporation") H1 H2 H3 H4 H5 H6)
    as (r & w' & p0 & Hrun & Hd & Hc & _ & _ & Hm & Hs & _).
  exists r, w', p0.
  split; [exact Hrun|]. split; [exact Hd|]. split; [exact Hc|].
  split; [exact Hm|].
  assert (Hq : canon (canonicalize Examples.metaphone (lit "Microsoft Corp"))
               = lit "microsoft") by (vm_compute; reflexivity).
  rewrite Hq in Hs. exact Hs.
Defined.

(** ** The batch driver *)

(** The streaming answer has one line for each name, in the order of the
    names, when no match raises. *)
Lemma generate_in_order (match_one : str → M match_result) names w :
  (∀ name w, ∃ r w', match_one name w = (Ok r, w')) →
  ∃ results w',
    generate match_one names w = (Ok results, w')
    ∧ map fst results = names.
Proof.
  intros Htotal. unfold generate. revert w.
  induction names as [|name names IH]; intros w; simpl.
  - by exists [], w.
  - destruct (Htotal name w) as (r & w1 & Hr).
    destruct (IH w1) as (rs & w2 & Hrs & Hnames).
    exists ((name, r) :: rs), w2. run. rewrite Hr. run. rewrite Hrs. run.
    split; [done|]. simpl. by rewrite Hnames.
Qed.

Lemma concat_chunks {A} (items : list A) size k n :
  concat (map (λ j, take size (drop (j * size) items)) (seq k n))
  = take (n * size) (drop (k * size) items).
Proof.
  revert k. induction n as [|n IH]; intros k; simpl; [done|].
  rewrite IH. replace (S k * size) with (k * size + size) by lia.
  rewrite <- drop_drop. apply take_take_drop.
Qed.

Lemma chunks_of_concat {A} (items : list A) chunk_size :
  (0 < chunk_size)%Z →
  ∃ chunks, chunks_of items chunk_size = Ok chunks ∧ concat chunks = items.
Proof.
  intros Hpos. unfold chunks_of.
  rewrite decide_False by lia. rewrite decide_False by lia.
  eexists. split; [reflexivity|].
  rewrite concat_chunks. simpl. rewrite drop_0. apply take_ge.
  set (size := Z.to_nat chunk_size).
  assert (Hs : size ≠ 0) by (unfold size; lia).
  pose proof (Nat.div_mod (length items + size - 1) size Hs).
  pose proof (Nat.mod_upper_bound (length items + size - 1) size Hs).
  change (Nat.div ?a ?b) with (a `div` b) in *.
  nia.
Qed.

Section In_order.
Variable match_one : str → M match_result.
Hypothesis match_one_returns : ∀ name w, ∃ r w', match_one name w = (Ok r, w').

Lemma process_chunk_in_order chunk w :
  ∃ results w',
    process_chunk match_one chunk w = (Ok results, w')
    ∧ map fst results = chunk.
Proof. apply generate_in_order, match_one_returns. Qed.

Lemma for_each_chunks_in_order (chunks : list (list str)) k n w :
  k + n = length chunks →
  ∃ results w',
    for_each (λ i, match chunks !! i with
                   | Some chunk => or_nothing (process_chunk match_one chunk)
                   | None => ret []
                   end) (seq k n) w = (Ok results, w')
    ∧ map fst results = concat (drop k chunks).
Proof.
  revert k w. induction n as [|n IH]; intros k w Hlen.
  - exists [], w. split; [done|]. by rewrite drop_ge by lia.
  - destruct (lookup_lt_is_Some_2 chunks k ltac:(lia)) as [chunk Hk].
    destruct (process_chunk_in_order chunk w) as (rs & w1 & Hrs & Hnames).
    destruct (IH (S k) w1 ltac:(lia)) as (rest & w2 & Hrest & Hrn).
    exists (rs ++ rest), w2. cbn [seq for_each]. run. rewrite Hk.
    unfold or_nothing at 1. rewrite Hrs. run. rewrite Hrest. run.
    split; [done|]. rewrite map_app, Hnames, Hrn.
    by rewrite (drop_S _ _ _ Hk).
Qed.

(** When the futures complete in the order they were submitted, the batch
    has one answer for each name, in the order of the names. *)
Lemma match_batch_in_order settings names stream w :
  (0 < batch_workers settings)%Z →
  (0 < batch_chunk_size settings)%Z →
  ∃ chunks results w',
    chunks_of names (batch_chunk_size settings) = Ok chunks
    ∧ match_batch settings match_one names stream
        (seq 0 (length chunks)) w = (Ok results, w')
    ∧ map fst results = names.
Proof.
  intros Hw Hc.
  destruct (chunks_of_concat names _ Hc) as (chunks & Hchunks & Hconcat).
  destruct (for_each_chunks_in_order chunks 0 (length chunks) w ltac:(done))
    as (results & w' & Hrun & Hnames).
  exists chunks, results, w'. split; [done|]. split.
  - unfold match_batch, batch_process. rewrite Hchunks. run.
    rewrite decide_False by lia. exact Hrun.
  - by rewrite Hnames, drop_0.
Qed.

End In_order.

(** C3 fails in the mode that does not stream: with chunks of one name and
    the second chunk finished first, the answers to [Microsoft Corp; Apple]
    come back as [Apple; Microsoft Corp]. *)
Theorem match_batch_follows_completion :
  ∃ results w',
    match_batch_endpoint Examples.small_chunks
      (λ name, match_one Examples.small_chunks Examples.metaphone
                 Examples.format Examples.format Examples.no_search
                 Examples.no_search Examples.fuzz ∅ untrained Examples.no_llm
                 name)
      Examples.two_names false [1; 0]%nat Examples.registry
    = (Ok results, w')
    ∧ map fst results = [lit "Apple"; lit "Microsoft Corp"]
    ∧ map fst results ≠ Examples.two_names.
Proof.
  eexists _, _. split; [vm_compute; reflexivity|].
  split; [reflexivity|]. discriminate.
Qed.

(** ** Canonicalization *)

(** Facts on single characters are checked on the 256 of them. *)
Ltac each_char c := destruct c as [[] [] [] [] [] [] [] []]; vm_compute.

Lemma isspace_lower c : isspace (lower_char c) = isspace c.
Proof. each_char c; reflexivity. Qed.

Lemma isspace_allowed c : isspace c = true → allowed c = true.
Proof. each_char c; try reflexivity; discriminate. Qed.

Lemma isspace_not_word c : isspace c = true → is_word c = false.
Proof. each_char c; try reflexivity; discriminate. Qed.

Lemma nfkd_base_space_test c :
  isspace c = true →
  match nfkd_base c with [] => false | a :: l => forallb isspace (a :: l) end
  = true.
Proof. each_char c; try reflexivity; discriminate. Qed.

Lemma nfkd_base_space c :
  isspace c = true →
  nfkd_base c ≠ [] ∧ Forall (λ x, isspace x = true) (nfkd_base c).
Proof.
  intros Hc. apply nfkd_base_space_test in Hc.
  destruct (nfkd_base c) as [|a S]; [discriminate|].
  split; [discriminate|]. apply Forall_forall. intros x Hx.
  apply list_elem_of_In in Hx.
  by apply (proj1 (forallb_forall isspace (a :: S)) Hc).
Qed.

Lemma tok_char_lower c : tok_char c = true → lower_char c = c.
Proof. each_char c; try reflexivity; discriminate. Qed.

Lemma tok_char_nfkd c : tok_char c = true → nfkd_base c = [c].
Proof. each_char c; try reflexivity; discriminate. Qed.

Lemma tok_char_allowed c : tok_char c = true → allowed c = true.
Proof. each_char c; try reflexivity; discriminate. Qed.

Lemma tok_char_not_space c : tok_char c = true → isspace c = false.
Proof. each_char c; try reflexivity; discriminate. Qed.

Lemma allowed_not_space c :
  allowed c = true → isspace c = false → tok_char c = true.
Proof. each_char c; try reflexivity; discriminate. Qed.

(** *** [split] *)

Lemma split_go_space cur u c v :
  isspace c = true →
  split_go cur (u ++ c :: v) = split_go cur u ++ split_go [] v.
Proof.
  intros Hc. revert cur. induction u as [|a u IH]; intros cur; simpl.
  - by rewrite Hc.
  - destruct (isspace a); [|apply IH].
    by rewrite IH, app_assoc.
Qed.

Lemma split_go_word cur w :
  Forall (λ c, isspace c = false) w → split_go cur w = flush (cur ++ w).
Proof.
  intros Hw. revert cur. induction Hw as [|a w Ha Hw IH]; intros cur; simpl.
  - by rewrite app_nil_r.
  - rewrite Ha, IH. by rewrite <- app_assoc.
Qed.

Lemma split_space u c v :
  isspace c = true → split (u ++ c :: v) = split u ++ split v.
Proof. apply split_go_space. Qed.

Lemma split_word w :
  Forall (λ c, isspace c = false) w → split w = flush w.
Proof. apply split_go_word. Qed.

Lemma split_spaces u S v :
  S ≠ [] → Forall (λ c, isspace c = true) S →
  split (u ++ S ++ v) = split u ++ split v.
Proof.
  intros Hne HS. revert u. induction HS as [|c S Hc HS IH]; intros u; [done|].
  simpl. rewrite split_space by done.
  destruct S as [|c' S']; [done|].
  f_equal. exact (IH ltac:(done) []).
Qed.

Lemma split_elements s t :
  t ∈ split s → t ≠ [] ∧ Forall (λ c, isspace c = false) t ∧ ∀ c, c ∈ t → c ∈ s.
Proof.
  unfold split.
  assert (H : ∀ cur, Forall (λ c, isspace c = false) cur →
            t ∈ split_go cur s →
            t ≠ [] ∧ Forall (λ c, isspace c = false) t
            ∧ ∀ c, c ∈ t → c ∈ cur ∨ c ∈ s).
  { induction s as [|a s IH]; intros cur Hcur; simpl.
    - destruct cur; simpl; [intros H; by apply elem_of_nil in H|].
      intros H. apply list_elem_of_singleton in H as ->.
      split; [done|]. split; [done|]. auto.
    - destruct (isspace a) eqn:Ha.
      + intros H. apply elem_of_app in H as [H|H].
        * destruct cur; simpl in H; [by apply elem_of_nil in H|].
          apply list_elem_of_singleton in H as ->.
          split; [done|]. split; [done|]. auto.
        * destruct (IH [] ltac:(constructor) H) as (H1 & H2 & H3).
          split; [done|]. split; [done|]. intros c Hc.
          destruct (H3 c Hc) as [H'|H']; [by apply elem_of_nil in H'|].
          right. by right.
      + intros H. apply IH in H as (H1 & H2 & H3).
        * split; [done|]. split; [done|]. intros c Hc.
          destruct (H3 c Hc) as [H'|H']; [|right; by right].
          apply elem_of_app in H' as [H'|H']; [by left|].
          apply list_elem_of_singleton in H' as ->. right. left.
        * apply Forall_app. split; [done|]. by constructor. }
  intros Ht. destruct (H [] ltac:(constructor) Ht) as (H1 & H2 & H3).
  split; [done|]. split; [done|]. intros c Hc.
  destruct (H3 c Hc) as [H'|H']; [by apply elem_of_nil in H'|done].
Qed.

Lemma lstrip_split s : split (lstrip s) = split s.
Proof.
  induction s as [|c s IH]; simpl; [done|].
  destruct (isspace c) eqn:Hc; [|done].
  rewrite IH. change (c :: s) with ([] ++ c :: s). by rewrite split_space.
Qed.

Lemma lstrip_spaces s :
  ∃ S, Forall (λ c, isspace c = true) S ∧ s = S ++ lstrip s.
Proof.
  induction s as [|c s (S & HS & IH)]; simpl; [by exists []|].
  destruct (isspace c) eqn:Hc; [|by exists []].
  exists (c :: S). split; [by constructor|]. simpl. by rewrite <- IH.
Qed.

Lemma rstrip_spaces s :
  ∃ S, Forall (λ c, isspace c = true) S ∧ s = rstrip s ++ S.
Proof.
  destruct (lstrip_spaces (rev s)) as (S & HS & H).
  exists (rev S). split; [by apply Forall_rev|].
  unfold rstrip. rewrite <- rev_app_distr, <- H. by rewrite rev_involutive.
Qed.

Lemma split_trailing_spaces s S :
  Forall (λ c, isspace c = true) S → split (s ++ S) = split s.
Proof.
  intros HS. destruct S as [|c S]; [by rewrite app_nil_r|].
  rewrite <- (app_nil_r (c :: S)), split_spaces by done.
  apply app_nil_r.
Qed.

Lemma rstrip_split s : split (rstrip s) = split s.
Proof.
  destruct (rstrip_spaces s) as (S & HS & H).
  rewrite H at 2. by rewrite split_trailing_spaces.
Qed.

Lemma strip_split s : split (strip s) = split s.
Proof. unfold strip. by rewrite rstrip_split, lstrip_split. Qed.

Lemma split_go_lower cur s :
  split_go (lower cur) (lower s) = map lower (split_go cur s).
Proof.
  revert cur. induction s as [|c s IH]; intros cur; simpl.
  - by destruct cur.
  - rewrite isspace_lower. destruct (isspace c).
    + rewrite map_app. f_equal; [by destruct cur | apply (IH [])].
    + rewrite <- IH. unfold lower. by rewrite map_app.
Qed.

Lemma split_lower s : split (lower s) = map lower (split s).
Proof. apply (split_go_lower []). Qed.

(** *** The cleaning steps act on each word by itself *)

Lemma sub_disallowed_go_spaces b u c S v :
  Forall (λ c, isspace c = true) (c :: S) →
  sub_disallowed_go b (u ++ c :: S ++ v)
  = sub_disallowed_go b u ++ c :: S ++ sub_disallowed_go false v.
Proof.
  intros HS. revert b. induction u as [|a u IH]; intros b; simpl.
  - apply Forall_cons in HS as [Hc HS].
    rewrite (isspace_allowed c) by done. f_equal.
    induction HS as [|c' S Hc' HS IH]; simpl; [done|].
    rewrite (isspace_allowed c') by done. by f_equal.
  - destruct (allowed a); [by rewrite IH|].
    destruct b; by rewrite IH.
Qed.

Lemma map_word_runs_spaces g run u c S v :
  g [] = [] →
  Forall (λ c, isspace c = true) (c :: S) →
  map_word_runs g run (u ++ c :: S ++ v)
  = map_word_runs g run u ++ c :: S ++ map_word_runs g [] v.
Proof.
  intros Hg HS. revert run. induction u as [|a u IH]; intros run; simpl.
  - apply Forall_cons in HS as [Hc HS].
    rewrite (isspace_not_word c) by done. f_equal. f_equal.
    induction HS as [|c' S Hc' HS IH]; simpl; [done|].
    rewrite (isspace_not_word c') by done. rewrite Hg. simpl. by f_equal.
  - destruct (is_word a); [apply IH|].
    rewrite IH. by rewrite <- app_assoc.
Qed.

Lemma sub_word_spaces abbr full u c S v :
  abbr ≠ [] →
  Forall (λ c, isspace c = true) (c :: S) →
  sub_word abbr full (u ++ c :: S ++ v)
  = sub_word abbr full u ++ c :: S ++ sub_word abbr full v.
Proof.
  intros Ha HS. unfold sub_word. apply map_word_runs_spaces; [|done].
  unfold replace_run. by rewrite decide_False.
Qed.

Lemma expand_spaces l u c S v :
  Forall (λ p : str * str, p.1 ≠ []) l →
  Forall (λ c, isspace c = true) (c :: S) →
  fold_left (λ t p, sub_word p.1 p.2 t) l (u ++ c :: S ++ v)
  = fold_left (λ t p, sub_word p.1 p.2 t) l u ++ c :: S
    ++ fold_left (λ t p, sub_word p.1 p.2 t) l v.
Proof.
  intros Hl HS. revert u v. induction Hl as [|[a f] l Ha Hl IH]; intros u v;
    simpl; [done|].
  rewrite sub_word_spaces by done. apply IH.
Qed.

Lemma ABBREVIATIONS_keys : Forall (λ p : str * str, p.1 ≠ []) ABBREVIATIONS.
Proof. repeat constructor; discriminate. Qed.

Lemma cleaned_nil : cleaned [] = [].
Proof. reflexivity. Qed.

Lemma cleaned_space u c v :
  isspace c = true →
  ∃ S, S ≠ [] ∧ Forall (λ c, isspace c = true) S
       ∧ cleaned (u ++ c :: v) = cleaned u ++ S ++ cleaned v.
Proof.
  intros Hc. destruct (nfkd_base_space c Hc) as [Hne HS].
  exists (nfkd_base c). split; [done|]. split; [done|].
  unfold cleaned, remove_diacritics.
  rewrite flat_map_app. simpl flat_map.
  destruct (nfkd_base c) as [|c' S] eqn:E; [done|].
  unfold sub_disallowed, expand_abbreviations.
  rewrite <- !app_comm_cons.
  rewrite sub_disallowed_go_spaces by done.
  by rewrite (expand_spaces _ _ _ _ _ ABBREVIATIONS_keys HS).
Qed.

(** The tokens of a cleaned text are those of its words. *)
Lemma split_cleaned_go u s :
  Forall (λ c, isspace c = false) u →
  split (cleaned (u ++ s))
  = flat_map (λ w, split (cleaned w)) (split (u ++ s)).
Proof.
  revert u. induction s as [|c s IH]; intros u Hu.
  - rewrite app_nil_r, (split_word u) by done.
    destruct u as [|a u]; [by rewrite cleaned_nil|].
    cbn [flush flat_map]. by rewrite app_nil_r.
  - destruct (isspace c) eqn:Hc.
    + destruct (cleaned_space u c s Hc) as (S & Hne & HS & ->).
      rewrite split_spaces, split_space by done.
      rewrite flat_map_app. f_equal; [|apply (IH [] ltac:(constructor))].
      rewrite (split_word u) by done.
      destruct u as [|a u]; [by rewrite cleaned_nil|].
      cbn [flush flat_map]. by rewrite app_nil_r.
    + rewrite (cons_middle c u s), app_assoc. apply IH.
      apply Forall_app. split; [done|]. by constructor.
Qed.

Lemma split_cleaned s :
  split (cleaned s) = flat_map (λ w, split (cleaned w)) (split s).
Proof. apply (split_cleaned_go [] s). constructor. Qed.

(** The tokens of a name are those of its words, word by word. *)
Lemma raw_tokens_words name_raw :
  raw_tokens name_raw = flat_map word_tokens (split name_raw).
Proof.
  unfold raw_tokens, word_tokens.
  rewrite split_cleaned, strip_split, split_lower.
  by rewrite flat_map_concat_map, map_map, <- flat_map_concat_map.
Qed.

(** *** The canonical form in terms of the tokens *)

Lemma canonicalize_canon dm name_raw :
  canon (canonicalize dm name_raw) = join (lit " ") (final_tokens name_raw).
Proof.
  unfold canonicalize.
  destruct (bool_decide (name_raw = []) || bool_decide (strip name_raw = []))
    eqn:E; [|reflexivity].
  assert (Hsplit : split name_raw = []).
  { apply orb_true_iff in E as [E|E]; apply bool_decide_eq_true in E.
    - by rewrite E.
    - by rewrite <- strip_split, E. }
  unfold final_tokens, kept_tokens. rewrite raw_tokens_words, Hsplit.
  vm_compute. reflexivity.
Qed.

(** C9: two names whose whitespace-separated words are the same up to
    their order have the same canonical string. *)
Theorem canonicalize_word_order dm (x y : str) :
  split x ≡ₚ split y →
  canon (canonicalize dm x) = canon (canonicalize dm y).
Proof.
  intros Hxy. rewrite !canonicalize_canon. f_equal.
  unfold final_tokens. f_equal. f_equal.
  apply list_to_set_perm_L.
  apply filter_Permutation. unfold handle_special_cases.
  apply Permutation_map. unfold kept_tokens.
  apply filter_Permutation. rewrite !raw_tokens_words.
  by apply Permutation_flat_map.
Qed.

(** *** The substitutions as one pass *)

Lemma map_word_runs_word g run w rest :
  Forall (λ c, is_word c = true) w →
  map_word_runs g run (w ++ rest) = map_word_runs g (run ++ w) rest.
Proof.
  intros Hw. revert run. induction Hw as [|a w Ha Hw IH]; intros run; simpl.
  - by rewrite app_nil_r.
  - rewrite Ha, IH. by rewrite <- app_assoc.
Qed.

Lemma map_word_runs_compose g1 g2 run s :
  (∀ r, Forall (λ c, is_word c = true) r →
        Forall (λ c, is_word c = true) (g1 r)) →
  Forall (λ c, is_word c = true) run →
  map_word_runs g2 [] (map_word_runs g1 run s)
  = map_word_runs (λ r, g2 (g1 r)) run s.
Proof.
  intros Hg. revert run. induction s as [|c s IH]; intros run Hrun; simpl.
  - transitivity (map_word_runs g2 [] (g1 run ++ []));
      [by rewrite app_nil_r|].
    rewrite map_word_runs_word by auto. reflexivity.
  - destruct (is_word c) eqn:Hc.
    + apply IH. apply Forall_app. split; [done|]. by constructor.
    + rewrite map_word_runs_word by auto. simpl. rewrite Hc.
      f_equal. f_equal. apply IH. constructor.
Qed.

Lemma map_word_runs_ext g1 g2 run s :
  (∀ r, g1 r = g2 r) → map_word_runs g1 run s = map_word_runs g2 run s.
Proof.
  intros Hg. revert run. induction s as [|c s IH]; intros run; simpl; [done|].
  destruct (is_word c); [done|]. by rewrite Hg, IH.
Qed.

Lemma map_word_runs_id run s : map_word_runs (λ r, r) run s = run ++ s.
Proof.
  revert run. induction s as [|c s IH]; intros run; simpl.
  - by rewrite app_nil_r.
  - destruct (is_word c).
    + by rewrite IH, <- app_assoc.
    + by rewrite IH.
Qed.

Lemma replace_run_word abbr full r :
  Forall (λ c, is_word c = true) full →
  Forall (λ c, is_word c = true) r →
  Forall (λ c, is_word c = true) (replace_run abbr full r).
Proof. intros Hf Hr. unfold replace_run. by destruct (decide _). Qed.

Lemma fold_sub_word l g s :
  Forall (λ p : str * str, Forall (λ c, is_word c = true) p.2) l →
  (∀ r, Forall (λ c, is_word c = true) r →
        Forall (λ c, is_word c = true) (g r)) →
  fold_left (λ t p, sub_word p.1 p.2 t) l (map_word_runs g [] s)
  = map_word_runs (λ r, fold_left (λ r p, replace_run p.1 p.2 r) l (g r)) [] s.
Proof.
  intros Hl. revert g. induction Hl as [|[a f] l Hf Hl IH]; intros g Hg; simpl.
  - done.
  - unfold sub_word at 2. rewrite map_word_runs_compose by (auto; constructor).
    rewrite IH; [done|]. intros r Hr. apply replace_run_word; auto.
Qed.

Lemma ABBREVIATIONS_words :
  Forall (λ p : str * str, Forall (λ c, is_word c = true) p.2) ABBREVIATIONS.
Proof. repeat constructor. Qed.

(** The ten substitutions are one pass that rewrites each run. *)
Lemma expand_abbreviations_runs s :
  expand_abbreviations s = map_word_runs expand_run [] s.
Proof.
  unfold expand_abbreviations.
  transitivity (fold_left (λ t p, sub_word p.1 p.2 t) ABBREVIATIONS
                  (map_word_runs (λ r, r) [] s)).
  { by rewrite map_word_runs_id. }
  rewrite fold_sub_word; [|apply ABBREVIATIONS_words|auto].
  apply map_word_runs_ext. intros r. unfold expand_run. reflexivity.
Qed.

Lemma replace_run_other abbr full r : r ≠ abbr → replace_run abbr full r = r.
Proof.
  intros H. unfold replace_run.
  destruct (decide (r = abbr)); [contradiction | reflexivity].
Qed.

Lemma expand_run_other l r :
  Forall (λ p : str * str, r ≠ p.1) l →
  fold_left (λ r p, replace_run p.1 p.2 r) l r = r.
Proof.
  induction 1 as [|[a f] l Ha Hl IH]; [done|].
  cbn [fold_left fst snd]. rewrite replace_run_other by exact Ha. exact IH.
Qed.

Lemma expand_run_idem r : expand_run (expand_run r) = expand_run r.
Proof.
  destruct (decide (Forall (λ p : str * str, r ≠ p.1) ABBREVIATIONS)) as [H|H].
  - unfold expand_run. by rewrite !(expand_run_other _ r H).
  - apply (not_Forall_Exists _) in H.
    unfold ABBREVIATIONS in H. cbn [map] in H.
    repeat (apply Exists_cons in H as [H|H];
            [apply dec_stable in H; cbn [fst] in H; rewrite H;
             vm_compute; reflexivity|]).
    by apply Exists_nil in H.
Qed.

Lemma expand_run_Forall (P : ascii → Prop) r :
  Forall (λ p : str * str, Forall P p.2) ABBREVIATIONS →
  Forall P r → Forall P (expand_run r).
Proof.
  unfold expand_run. generalize ABBREVIATIONS. intros l Hl. revert r.
  induction Hl as [|[a f] l Hf Hl IH]; intros r Hr; simpl; [done|].
  apply IH. unfold replace_run. by destruct (decide _).
Qed.

Lemma map_word_runs_Forall (P : ascii → Prop) g run s :
  (∀ r, Forall P r → Forall P (g r)) →
  Forall P run → Forall P s → Forall P (map_word_runs g run s).
Proof.
  intros Hg Hrun Hs. revert run Hrun.
  induction Hs as [|c s Hc Hs IH]; intros run Hrun; simpl; [auto|].
  destruct (is_word c).
  - apply IH. apply Forall_app. split; [done|]. by constructor.
  - apply Forall_app. split; [auto|]. constructor; [done|].
    apply IH. constructor.
Qed.

Lemma expand_abbreviations_Forall (P : ascii → Prop) s :
  Forall (λ p : str * str, Forall P p.2) ABBREVIATIONS →
  Forall P s → Forall P (expand_abbreviations s).
Proof.
  intros Hl Hs. rewrite expand_abbreviations_runs.
  apply map_word_runs_Forall; [|constructor|done].
  intros r. by apply expand_run_Forall.
Qed.

Lemma expand_abbreviations_idem s :
  expand_abbreviations (expand_abbreviations s) = expand_abbreviations s.
Proof.
  rewrite !expand_abbreviations_runs.
  rewrite map_word_runs_compose; [|intros r|constructor].
  - apply map_word_runs_ext, expand_run_idem.
  - apply expand_run_Forall, ABBREVIATIONS_words.
Qed.

Lemma ABBREVIATIONS_allowed :
  Forall (λ p : str * str, Forall (λ c, allowed c = true) p.2) ABBREVIATIONS.
Proof. repeat constructor. Qed.

Lemma ABBREVIATIONS_no_space :
  Forall (λ p : str * str, Forall (λ c, isspace c = false) p.2) ABBREVIATIONS.
Proof. repeat constructor. Qed.

Lemma sub_disallowed_go_allowed b s :
  Forall (λ c, allowed c = true) (sub_disallowed_go b s).
Proof.
  revert b. induction s as [|c s IH]; intros b; simpl; [constructor|].
  destruct (allowed c) eqn:Hc; [by constructor|].
  destruct b; [done|]. by constructor.
Qed.

Lemma cleaned_allowed s : Forall (λ c, allowed c = true) (cleaned s).
Proof.
  unfold cleaned. apply expand_abbreviations_Forall.
  - apply ABBREVIATIONS_allowed.
  - apply sub_disallowed_go_allowed.
Qed.

(** *** Tokens are left alone by a second pass *)

Lemma expand_abbreviations_split s :
  split (expand_abbreviations s)
  = flat_map (λ w, split (expand_abbreviations w)) (split s).
Proof.
  assert (Hgo : ∀ u, Forall (λ c, isspace c = false) u →
    split (expand_abbreviations (u ++ s))
    = flat_map (λ w, split (expand_abbreviations w)) (split (u ++ s))).
  { induction s as [|c s IH]; intros u Hu.
    - rewrite app_nil_r, (split_word u) by done.
      destruct u as [|a u]; [reflexivity|].
      cbn [flush flat_map]. by rewrite app_nil_r.
    - destruct (isspace c) eqn:Hc.
      + unfold expand_abbreviations at 1.
        rewrite <- (app_nil_l s) at 1.
        rewrite (expand_spaces _ u c [] s ABBREVIATIONS_keys)
          by (by constructor).
        fold (expand_abbreviations u). fold (expand_abbreviations s).
        rewrite app_nil_l.
        rewrite !split_space by done.
        rewrite flat_map_app. f_equal; [|apply (IH [] ltac:(constructor))].
        rewrite (split_word u) by done.
        destruct u as [|a u]; [reflexivity|].
        cbn [flush flat_map]. by rewrite app_nil_r.
      + rewrite (cons_middle c u s), app_assoc. apply IH.
        apply Forall_app. split; [done|]. by constructor. }
  apply (Hgo []). constructor.
Qed.

Lemma flat_map_fixed {A} (f : A → list A) l :
  (∀ x, x ∈ l → length (f x) ≤ 1) →
  flat_map f l = l → ∀ x, x ∈ l → f x = [x].
Proof.
  intros Hlen. induction l as [|a l IH]; intros Heq x Hx;
    [by apply elem_of_nil in Hx|].
  assert (Hle : length (flat_map f l) ≤ length l).
  { clear -Hlen. induction l as [|b l IH]; simpl; [done|].
    rewrite length_app.
    pose proof (Hlen b ltac:(right; left)).
    assert (length (flat_map f l) ≤ length l); [|lia].
    apply IH. intros x Hx. apply Hlen.
    apply elem_of_cons in Hx as [->|Hx]; [left | right; by right]. }
  simpl in Heq. pose proof (Hlen a ltac:(left)) as Ha.
  destruct (f a) as [|b [|??]] eqn:Hfa; simpl in Ha; [| |lia].
  - simpl in Heq. rewrite Heq in Hle. simpl in Hle. lia.
  - simpl in Heq. injection Heq as -> Heq.
    apply elem_of_cons in Hx as [->|Hx]; [done|].
    apply IH; [|done|done]. intros y Hy. apply Hlen. by right.
Qed.

Lemma split_singleton t :
  t ≠ [] → Forall (λ c, isspace c = false) t → split t = [t].
Proof. intros Hne Ht. rewrite split_word by done. by destruct t. Qed.

(** A token of an expanded text has nothing left to expand. *)
Lemma expanded_token s t :
  t ∈ split (expand_abbreviations s) → expand_abbreviations t = t.
Proof.
  intros Ht.
  pose proof (expand_abbreviations_split (expand_abbreviations s)) as H.
  rewrite expand_abbreviations_idem in H. symmetry in H.
  assert (Hf : split (expand_abbreviations t) = [t]).
  { apply (flat_map_fixed _ _ ) with (x := t) in H; [done| |done].
    intros x Hx. apply split_elements in Hx as (_ & Hx & _).
    rewrite split_word.
    - destruct (expand_abbreviations x); simpl; lia.
    - by apply expand_abbreviations_Forall; [apply ABBREVIATIONS_no_space|]. }
  apply split_elements in Ht as (_ & Hns & _).
  rewrite split_word in Hf
    by (by apply expand_abbreviations_Forall; [apply ABBREVIATIONS_no_space|]).
  destruct (expand_abbreviations t); simpl in Hf; congruence.
Qed.

Lemma sub_disallowed_allowed s :
  Forall (λ c, allowed c = true) s → sub_disallowed s = s.
Proof.
  unfold sub_disallowed. induction 1 as [|c s Hc Hs IH]; simpl; [done|].
  by rewrite Hc, IH.
Qed.

Lemma remove_diacritics_tok s :
  Forall (λ c, tok_char c = true) s → remove_diacritics s = s.
Proof.
  unfold remove_diacritics. induction 1 as [|c s Hc Hs IH]; simpl; [done|].
  by rewrite tok_char_nfkd, IH.
Qed.

Lemma lower_tok s : Forall (λ c, tok_char c = true) s → lower s = s.
Proof.
  unfold lower. induction 1 as [|c s Hc Hs IH]; simpl; [done|].
  by rewrite tok_char_lower, IH.
Qed.

(** What a token of a cleaned text is like. *)
Lemma raw_token_shape name_raw t :
  t ∈ raw_tokens name_raw →
  t ≠ [] ∧ Forall (λ c, tok_char c = true) t ∧ word_tokens t = [t].
Proof.
  unfold raw_tokens. intros Ht.
  pose proof (expanded_token _ _ Ht) as Hexp.
  apply split_elements in Ht as (Hne & Hns & Hin).
  assert (Htok : Forall (λ c, tok_char c = true) t).
  { apply Forall_forall. intros c Hc.
    apply allowed_not_space.
    - pose proof (cleaned_allowed (strip (lower name_raw))) as Ha.
      rewrite Forall_forall in Ha. apply Ha, Hin, Hc.
    - rewrite Forall_forall in Hns. by apply Hns. }
  split; [done|]. split; [done|].
  unfold word_tokens, cleaned.
  rewrite lower_tok, remove_diacritics_tok by done.
  rewrite sub_disallowed_allowed.
  - rewrite Hexp. by apply split_singleton.
  - eapply Forall_impl; [exact Htok|]. apply tok_char_allowed.
Qed.

Lemma split_join (T : list str) :
  Forall (λ t, t ≠ [] ∧ Forall (λ c, isspace c = false) t) T →
  split (join (lit " ") T) = T.
Proof.
  induction 1 as [|t T [Hne Ht] HT IH]; [reflexivity|].
  destruct T as [|t' T']; [by apply split_singleton|].
  change (join (lit " ") (t :: t' :: T'))
    with (t ++ " "%char :: join (lit " ") (t' :: T')).
  rewrite split_space by reflexivity.
  by rewrite IH, split_singleton.
Qed.

Lemma flat_map_singletons {A} (f : A → list A) l :
  (∀ x, x ∈ l → f x = [x]) → flat_map f l = l.
Proof.
  induction l as [|a l IH]; intros H; simpl; [done|].
  rewrite (H a) by left. simpl. f_equal. apply IH. intros x Hx. apply H.
  by right.
Qed.

Lemma filter_all {A} (P : A → Prop) `{∀ x, Decision (P x)} (l : list A) :
  (∀ x, x ∈ l → P x) → filter P l = l.
Proof.
  induction l as [|a l IH]; intros HP; [done|].
  rewrite filter_cons, decide_True by (apply HP; left).
  f_equal. apply IH. intros x Hx. apply HP. by right.
Qed.

Lemma map_fixed {A} (f : A → A) l : map f l = l → ∀ x, x ∈ l → f x = x.
Proof.
  induction l as [|a l IH]; intros H x Hx; [by apply elem_of_nil in Hx|].
  simpl in H. injection H as Ha Hl.
  apply elem_of_cons in Hx as [->|Hx]; [done | by apply IH].
Qed.

Lemma map_all_fixed {A} (f : A → A) l : (∀ x, x ∈ l → f x = x) → map f l = l.
Proof.
  induction l as [|a l IH]; intros H; simpl; [done|].
  rewrite (H a) by left. f_equal. apply IH. intros x Hx. apply H. by right.
Qed.

Lemma tok_char_not_dot c : tok_char c = true → is_code 46 c = false.
Proof. each_char c; try reflexivity; discriminate. Qed.

Lemma match_initials_tok t :
  Forall (λ c, tok_char c = true) t → match_initials t = false.
Proof.
  intros Ht. destruct t as [|a [|d r]]; [done..|].
  apply Forall_cons in Ht as [_ Ht]. apply Forall_cons in Ht as [Hd _].
  unfold match_initials. rewrite (tok_char_not_dot d Hd).
  by rewrite andb_false_r.
Qed.

Lemma canonicalize_word_order_witness :
  split (lit "Acme Plumbing") ≡ₚ split (lit "Plumbing  Acme")
  ∧ canon (canonicalize Examples.metaphone (lit "Acme Plumbing"))
    = canon (canonicalize Examples.metaphone (lit "Plumbing  Acme")).
Proof.
  assert (H : split (lit "Acme Plumbing") ≡ₚ split (lit "Plumbing  Acme")).
  { change (split (lit "Acme Plumbing")) with [lit "Acme"; lit "Plumbing"].
    change (split (lit "Plumbing  Acme")) with [lit "Plumbing"; lit "Acme"].
    apply perm_swap. }
  split; [exact H|].
  exact (canonicalize_word_order Examples.metaphone _ _ H).
Defined.

(** * Further properties *)

Import Effects Scenarios.

(** ** The canonical form *)

(** *** The record that [canonicalize] returns *)

Lemma canonicalize_tokens dm name_raw :
  tokens (canonicalize dm name_raw) = final_tokens name_raw.
Proof.
  unfold canonicalize.
  destruct (bool_decide (name_raw = []) || bool_decide (strip name_raw = []))
    eqn:E; [|reflexivity].
  assert (Hsplit : split name_raw = []).
  { apply orb_true_iff in E as [E|E]; apply bool_decide_eq_true in E.
    - by rewrite E.
    - by rewrite <- strip_split, E. }
  unfold final_tokens, kept_tokens. rewrite raw_tokens_words, Hsplit.
  vm_compute. reflexivity.
Qed.

Lemma Forall_filter_keep {A} (P Q : A → Prop) `{∀ x, Decision (Q x)} (l : list A) :
  Forall P l → Forall P (filter Q l).
Proof.
  induction 1 as [|a l Ha Hl IH]; [constructor|].
  rewrite filter_cons. destruct (decide (Q a)); [by constructor | done].
Qed.

Lemma sub_digits_end_Forall (P : ascii → Prop) t :
  Forall P t → Forall P (sub_digits_end t).
Proof.
  induction 1 as [|c r Hc Hr IH]; [constructor|].
  cbn [sub_digits_end]. destruct (match_digits_end (c :: r)).
  - apply Forall_filter_keep. by constructor.
  - by constructor.
Qed.

Lemma special_case_tok t :
  Forall (λ c, tok_char c = true) t →
  Forall (λ c, tok_char c = true) (special_case t).
Proof.
  intros Ht. unfold special_case. rewrite match_initials_tok by done.
  destruct (match_alpha_digits t); [|done].
  by apply sub_digits_end_Forall.
Qed.

Lemma final_token_shape name_raw t :
  t ∈ final_tokens name_raw →
  t ≠ [] ∧ Forall (λ c, tok_char c = true) t.
Proof.
  unfold final_tokens. rewrite (sorted_Permutation str_leb).
  rewrite elem_of_elements, elem_of_list_to_set, list_elem_of_filter.
  intros [Hne Ht]. split; [done|].
  unfold handle_special_cases in Ht.
  apply list_elem_of_fmap in Ht as (u & -> & Hu).
  apply special_case_tok.
  unfold kept_tokens in Hu. apply list_elem_of_filter in Hu as [_ Hu].
  by apply raw_token_shape in Hu as (_ & Htok & _).
Qed.

(** *** The order of strings *)

Lemma str_leb_total a b : str_leb a b = true ∨ str_leb b a = true.
Proof.
  revert b. induction a as [|x a IH]; intros [|y b]; cbn [str_leb]; auto.
  destruct (N.ltb_spec (code x) (code y)); [auto|].
  destruct (N.ltb_spec (code y) (code x)); [auto|].
  assert (E : code x = code y) by lia.
  rewrite E, N.eqb_refl. apply IH.
Qed.

Lemma str_leb_trans a b c :
  str_leb a b = true → str_leb b c = true → str_leb a c = true.
Proof.
  revert b c. induction a as [|x a IH]; intros [|y b] [|z c]; cbn [str_leb];
    try done.
  destruct (N.ltb_spec (code x) (code y)) as [Hxy|Hxy].
  - intros _.
    destruct (N.ltb_spec (code y) (code z)) as [Hyz|Hyz].
    + intros _. by destruct (N.ltb_spec (code x) (code z)); [|lia].
    + destruct (N.eqb_spec (code y) (code z)) as [E|E]; [|done].
      intros _. by destruct (N.ltb_spec (code x) (code z)); [|lia].
  - destruct (N.eqb_spec (code x) (code y)) as [Exy|Exy]; [|done].
    intros Hab.
    destruct (N.ltb_spec (code y) (code z)) as [Hyz|Hyz].
    + intros _. by destruct (N.ltb_spec (code x) (code z)); [|lia].
    + destruct (N.eqb_spec (code y) (code z)) as [E|E]; [|done].
      intros Hbc.
      destruct (N.ltb_spec (code x) (code z)); [done|].
      destruct (N.eqb_spec (code x) (code z)); [|lia].
      by apply (IH b c).
Qed.

Lemma StronglySorted_NoDup {A} (R : A → A → Prop) l :
  StronglySorted R l → NoDup l → StronglySorted (λ a b, R a b ∧ a ≠ b) l.
Proof.
  induction 1 as [|a l Hl IH Ha]; intros Hnd; [constructor|].
  apply NoDup_cons in Hnd as [Hna Hnd].
  constructor; [by apply IH|].
  apply Forall_forall. intros b Hb. split.
  - rewrite Forall_forall in Ha. by apply Ha.
  - intros ->. done.
Qed.

(** The tokens of the canonical form are non-empty words over
    [[a-z0-9&]], in strictly ascending order: they are sorted and no
    token occurs twice. *)
Theorem canonical_tokens_shape dm name_raw :
  Forall (λ t, t ≠ [] ∧ Forall (λ c, tok_char c = true) t)
    (tokens (canonicalize dm name_raw))
  ∧ StronglySorted (λ a b, str_leb a b = true ∧ a ≠ b)
      (tokens (canonicalize dm name_raw)).
Proof.
  rewrite canonicalize_tokens. split.
  - apply Forall_forall. intros t Ht. by apply (final_token_shape name_raw).
  - unfold final_tokens. apply StronglySorted_NoDup.
    + apply sorted_StronglySorted; [apply str_leb_total | apply str_leb_trans].
    + rewrite (sorted_Permutation str_leb). apply NoDup_elements.
Qed.

(** Splitting the canonical string at whitespace gives back the tokens. *)
Theorem canonical_split_tokens dm name_raw :
  split (canon (canonicalize dm name_raw)) = tokens (canonicalize dm name_raw).
Proof.
  rewrite canonicalize_canon, canonicalize_tokens.
  apply split_join. apply Forall_forall. intros t Ht.
  apply final_token_shape in Ht as [Hne Htok]. split; [done|].
  eapply Forall_impl; [exact Htok|]. apply tok_char_not_space.
Qed.

(** *** Case *)

Lemma lower_char_idem c : lower_char (lower_char c) = lower_char c.
Proof. each_char c; reflexivity. Qed.

Lemma lower_idem s : lower (lower s) = lower s.
Proof.
  unfold lower. rewrite map_map. apply map_ext. intros c. apply lower_char_idem.
Qed.

Lemma lstrip_lower s : lstrip (lower s) = lower (lstrip s).
Proof.
  induction s as [|c s IH]; [done|].
  cbn [lower map lstrip]. rewrite isspace_lower.
  by destruct (isspace c).
Qed.

Lemma strip_lower s : strip (lower s) = lower (strip s).
Proof.
  unfold strip, rstrip. rewrite lstrip_lower.
  assert (R : ∀ t, rev (lower t) = lower (rev t)).
  { intros t. unfold lower. by rewrite map_rev. }
  by rewrite R, lstrip_lower, R.
Qed.

(** [canonicalize] does not look at the case of its input. *)
Theorem canonicalize_lower dm name_raw :
  canonicalize dm (lower name_raw) = canonicalize dm name_raw.
Proof.
  unfold canonicalize. rewrite lower_idem.
  replace (bool_decide (lower name_raw = []))
    with (bool_decide (name_raw = [])) by by destruct name_raw.
  replace (bool_decide (strip (lower name_raw) = []))
    with (bool_decide (strip name_raw = [])); [done|].
  rewrite strip_lower. by destruct (strip name_raw).
Qed.

(** *** The rules of [handle_special_cases] *)

Lemma is_az_not_digit c : is_az c = true → is_digit c = false.
Proof. each_char c; try reflexivity; discriminate. Qed.

Lemma is_az_not_dot c : is_az c = true → c ≠ "."%char.
Proof. intros H ->. discriminate H. Qed.

Lemma is_digit_not_dot c : is_digit c = true → is_code 46 c = false.
Proof. each_char c; try reflexivity; discriminate. Qed.

Lemma is_az_not_code_dot c : is_az c = true → is_code 46 c = false.
Proof. each_char c; try reflexivity; discriminate. Qed.

Lemma match_digits_end_az c r : is_az c = true → match_digits_end (c :: r) = false.
Proof. intros H. cbn [match_digits_end]. by rewrite (is_az_not_digit c H). Qed.

Lemma match_alpha_digits_az s :
  Forall (λ c, is_az c = true) s → match_alpha_digits s = false.
Proof.
  induction 1 as [|c r Hc Hr IH]; [done|].
  cbn [match_alpha_digits]. rewrite IH, Hc.
  destruct r as [|d r']; [done|].
  apply Forall_cons in Hr as [Hd _]. by rewrite match_digits_end_az.
Qed.

Lemma match_initials_tail_dotted s :
  Forall (λ c, is_az c = true) s →
  match_initials_tail (flat_map (λ c, [c; "."%char]) s) = true.
Proof.
  induction 1 as [|c r Hc Hr IH]; [done|].
  cbn [flat_map app match_initials_tail]. rewrite Hc, IH.
  by rewrite orb_true_r.
Qed.

Lemma filter_dots_dotted s :
  Forall (λ c, is_az c = true) s →
  filter (λ c, c ≠ "."%char) (flat_map (λ c, [c; "."%char]) s) = s.
Proof.
  induction 1 as [|c r Hc Hr IH]; [done|].
  cbn [flat_map app]. rewrite filter_cons, decide_True by by apply is_az_not_dot.
  rewrite filter_cons, decide_False by (intros H; by apply H).
  by rewrite IH.
Qed.

(** A token of lower-case initials, each followed by a full stop, loses
    its full stops. *)
Theorem special_case_initials (letters : str) :
  Forall (λ c, is_az c = true) letters →
  special_case (flat_map (λ c, [c; "."%char]) letters) = letters.
Proof.
  intros Haz. unfold special_case.
  destruct letters as [|c r]; [done|].
  assert (Hm : match_initials (flat_map (λ c, [c; "."%char]) (c :: r)) = true).
  { apply Forall_cons in Haz as [Hc Hr].
    cbn [flat_map app match_initials]. rewrite Hc.
    by rewrite match_initials_tail_dotted. }
  rewrite Hm, filter_dots_dotted by done.
  by rewrite match_alpha_digits_az.
Qed.

Lemma special_case_initials_witness :
  Forall (λ c, is_az c = true) (lit "jp")
  ∧ special_case (lit "j.p.") = lit "jp".
Proof.
  assert (H : Forall (λ c, is_az c = true) (lit "jp"))
    by (repeat constructor).
  split; [exact H|].
  exact (special_case_initials (lit "jp") H).
Defined.

Lemma match_digits_end_digits ds :
  ds ≠ [] → Forall (λ c, is_digit c = true) ds → match_digits_end ds = true.
Proof.
  intros Hne Hd. induction Hd as [|c r Hc Hr IH]; [done|].
  cbn [match_digits_end]. rewrite Hc.
  destruct r as [|d r']; [done|].
  rewrite IH by done. by rewrite orb_true_r.
Qed.

Lemma filter_digits ds :
  Forall (λ c, is_digit c = true) ds →
  filter (λ x, is_digit x = false) ds = [].
Proof.
  induction 1 as [|c r Hc Hr IH]; [done|].
  rewrite filter_cons, decide_False by (rewrite Hc; discriminate). done.
Qed.

(** A token made of lower-case letters followed by digits loses the
    digits; a token made of digits only is kept. *)
Theorem special_case_digits (stem digits : str) :
  Forall (λ c, is_az c = true) stem →
  digits ≠ [] →
  Forall (λ c, is_digit c = true) digits →
  special_case (stem ++ digits) = if decide (stem = []) then digits else stem.
Proof.
  intros Haz Hne Hd. unfold special_case.
  assert (Hi : match_initials (stem ++ digits) = false).
  { destruct Haz as [|c [|c' r] Hc Hr]; cbn [app].
    - destruct Hd as [|d [|d' ds] Hd Hds]; [done..|].
      apply Forall_cons in Hds as [Hd' _]. cbn [match_initials].
      by rewrite (is_digit_not_dot d' Hd'), andb_false_r.
    - destruct Hd as [|d ds Hd Hds]; [done|]. cbn [match_initials].
      by rewrite (is_digit_not_dot d Hd), andb_false_r.
    - apply Forall_cons in Hr as [Hc' _]. cbn [match_initials app].
      by rewrite (is_az_not_code_dot c' Hc'), andb_false_r. }
  rewrite Hi. destruct (decide (stem = [])) as [->|Hs].
  - cbn [app]. destruct Hd as [|d ds Hd Hds]; [done|].
    cbn [match_alpha_digits].
    assert (Hz : is_az d = false).
    { destruct (is_az d) eqn:E; [|done].
      apply is_az_not_digit in E. congruence. }
    by rewrite Hz.
  - assert (Hm : match_alpha_digits (stem ++ digits) = true).
    { clear Hi. induction Haz as [|c r Hc Hr IH]; [done|].
      cbn [app match_alpha_digits]. rewrite Hc.
      destruct r as [|c' r'].
      - cbn [app]. rewrite match_digits_end_digits by done.
        by rewrite orb_true_r.
      - by rewrite IH. }
    rewrite Hm. clear Hm Hi Hs.
    induction Haz as [|c r Hc Hr IH].
    + cbn [app]. destruct digits as [|d ds]; [done|].
      cbn [sub_digits_end]. rewrite match_digits_end_digits by done.
      by rewrite filter_digits.
    + cbn [app sub_digits_end]. rewrite match_digits_end_az by done.
      by rewrite IH.
Qed.

Lemma special_case_digits_witness :
  Forall (λ c, is_az c = true) (lit "company")
  ∧ Forall (λ c, is_digit c = true) (lit "2")
  ∧ special_case (lit "company2") = lit "company".
Proof.
  assert (H1 : Forall (λ c, is_az c = true) (lit "company"))
    by (repeat constructor).
  assert (H2 : lit "2" ≠ []) by discriminate.
  assert (H3 : Forall (λ c, is_digit c = true) (lit "2"))
    by (repeat constructor).
  split; [exact H1|]. split; [exact H3|].
  exact (special_case_digits (lit "company") (lit "2") H1 H2 H3).
Defined.

(** *** A second pass over the canonical string *)

Lemma is_az_tok c : is_az c = true → tok_char c = true.
Proof. intros H. unfold tok_char. by rewrite H. Qed.

Lemma is_az_word c : is_az c = true → is_word c = true.
Proof. each_char c; try reflexivity; discriminate. Qed.

Lemma match_digits_end_tok r :
  Forall (λ c, tok_char c = true) r → match_digits_end r = true →
  filter (λ x, is_digit x = false) r = [].
Proof.
  induction 1 as [|c r Hc Hr IH]; [done|]. cbn [match_digits_end].
  intros [Hd H]%andb_true_iff. rewrite filter_cons.
  rewrite decide_False by (rewrite Hd; discriminate).
  apply orb_true_iff in H as [H|H]; [|by apply IH].
  destruct r as [|c' [|]]; [done| |done].
  apply Forall_cons in Hr as [Hc' _]. cbn in H.
  exfalso. revert Hc' H. clear. each_char c'; try discriminate; done.
Qed.

Lemma sub_digits_end_az u :
  Forall (λ c, tok_char c = true) u → match_alpha_digits u = true →
  Forall (λ c, is_az c = true) (sub_digits_end u).
Proof.
  induction 1 as [|c r Hc Hr IH]; [done|]. cbn [match_alpha_digits].
  intros [Haz H]%andb_true_iff.
  cbn [sub_digits_end].
  change (match_digits_end (c :: r)) with
    (is_digit c && (at_end r || match_digits_end r)).
  rewrite (is_az_not_digit c Haz). cbn [andb].
  constructor; [done|].
  destruct (match_alpha_digits r) eqn:E; [by apply IH|].
  cbn [orb] in H. destruct r as [|d r']; [done|].
  cbn [sub_digits_end]. rewrite H.
  by rewrite (match_digits_end_tok (d :: r') Hr H).
Qed.

(** A token of the canonical form is a token that [handle_special_cases]
    was given and left as it was, or the letters of a token that lost its
    digits. *)
Lemma final_token_origin name_raw t :
  t ∈ final_tokens name_raw →
  (t ∈ kept_tokens name_raw ∧ match_alpha_digits t = false)
  ∨ Forall (λ c, is_az c = true) t.
Proof.
  unfold final_tokens. rewrite (sorted_Permutation str_leb).
  rewrite elem_of_elements, elem_of_list_to_set, list_elem_of_filter.
  intros [Hne Ht]. unfold handle_special_cases in Ht.
  apply list_elem_of_fmap in Ht as (u & -> & Hu).
  assert (Htok : Forall (λ c, tok_char c = true) u).
  { unfold kept_tokens in Hu. apply list_elem_of_filter in Hu as [_ Hu].
    by apply raw_token_shape in Hu as (_ & Htok & _). }
  unfold special_case. rewrite match_initials_tok by done.
  destruct (match_alpha_digits u) eqn:E; [right | by left].
  by apply sub_digits_end_az.
Qed.

Lemma expand_abbreviations_az t :
  Forall (λ c, is_az c = true) t → expand_abbreviations t = expand_run t.
Proof.
  intros Haz. rewrite expand_abbreviations_runs.
  rewrite <- (app_nil_r t) at 1. rewrite map_word_runs_word.
  - reflexivity.
  - eapply Forall_impl; [exact Haz|]. apply is_az_word.
Qed.

Lemma ABBREVIATIONS_az :
  Forall (λ p : str * str, Forall (λ c, is_az c = true) p.2) ABBREVIATIONS.
Proof. repeat constructor. Qed.

Lemma ABBREVIATIONS_nonempty :
  Forall (λ p : str * str, p.2 ≠ []) ABBREVIATIONS.
Proof. repeat constructor; discriminate. Qed.

Lemma expand_run_nonempty r : r ≠ [] → expand_run r ≠ [].
Proof.
  unfold expand_run. pose proof ABBREVIATIONS_nonempty as H.
  revert r. induction H as [|[abbr full] l Hfull _ IH]; intros r Hr; [done|].
  cbn [fold_left]. apply IH. unfold replace_run. cbn [fst snd].
  by destruct (decide (r = abbr)).
Qed.

Lemma special_case_az t :
  Forall (λ c, is_az c = true) t → special_case t = t.
Proof.
  intros Haz. unfold special_case.
  rewrite match_initials_tok
    by (eapply Forall_impl; [exact Haz | apply is_az_tok]).
  by rewrite match_alpha_digits_az.
Qed.

Lemma expand_run_key t :
  t ∈ map fst ABBREVIATIONS → expand_run t ≠ t.
Proof.
  intros Ht. repeat (apply elem_of_cons in Ht as [->|Ht]; [by vm_compute|]).
  by apply elem_of_nil in Ht.
Qed.

Lemma ABBREVIATIONS_keys_az :
  Forall (λ c, Forall (λ c, is_az c = true) c) (map fst ABBREVIATIONS).
Proof. repeat constructor. Qed.

(** What the second pass makes of a token of the canonical form. *)
Lemma final_token_second_pass name_raw t :
  t ∈ final_tokens name_raw →
  word_tokens t = [expand_abbreviations t]
  ∧ special_case (expand_abbreviations t) = expand_abbreviations t
  ∧ expand_abbreviations t ≠ []
  ∧ (stable_token t → expand_abbreviations t = t).
Proof.
  intros Ht. pose proof (final_token_shape _ _ Ht) as [Hne Htok].
  assert (Hw : word_tokens t = split (expand_abbreviations t)).
  { unfold word_tokens, cleaned.
    rewrite lower_tok, remove_diacritics_tok by done.
    rewrite sub_disallowed_allowed; [done|].
    eapply Forall_impl; [exact Htok|]. apply tok_char_allowed. }
  destruct (final_token_origin _ _ Ht) as [[Hk Hmad]|Haz].
  - unfold kept_tokens in Hk. apply list_elem_of_filter in Hk as [_ Hr].
    pose proof (expanded_token _ _ Hr) as He. rewrite He.
    apply raw_token_shape in Hr as (_ & _ & Hwt).
    split; [done|]. split; [|done].
    unfold special_case. by rewrite match_initials_tok, Hmad.
  - rewrite Hw, expand_abbreviations_az by done.
    assert (Haz' : Forall (λ c, is_az c = true) (expand_run t))
      by (apply expand_run_Forall; [apply ABBREVIATIONS_az | done]).
    pose proof (expand_run_nonempty t Hne) as Hne'.
    split; [|split; [|split]].
    + apply split_singleton; [done|].
      eapply Forall_impl; [exact Haz'|]. intros c Hc.
      by apply tok_char_not_space, is_az_tok.
    + by apply special_case_az.
    + done.
    + intros (_ & _ & Hkey). apply expand_run_other.
      apply Forall_forall. intros p Hp ->. apply Hkey.
      apply list_elem_of_fmap. by exists p.
Qed.

Lemma flat_map_singleton_map {A B} (f : A → list B) (g : A → B) l :
  (∀ x, x ∈ l → f x = [g x]) → flat_map f l = map g l.
Proof.
  induction l as [|a l IH]; intros H; [done|]. cbn [flat_map map].
  rewrite (H a) by left. cbn [app]. f_equal. apply IH. intros x Hx.
  apply H. by right.
Qed.

(** The tokens of the canonical string of the canonical string: the
    tokens of the canonical string with their abbreviations expanded,
    less the generic words and the corporate suffixes. *)
Lemma second_pass_tokens name_raw :
  final_tokens (join (lit " ") (final_tokens name_raw))
  = sorted str_leb
      (elements (list_to_set
         (filter (λ t, (t ∉ GENERIC_WORDS) ∧ (t ∉ CORPORATE_SUFFIXES))
            (map expand_abbreviations (final_tokens name_raw))) : gset str)).
Proof.
  set (T := final_tokens name_raw).
  assert (Hraw : raw_tokens (join (lit " ") T) = map expand_abbreviations T).
  { rewrite raw_tokens_words, split_join.
    - apply flat_map_singleton_map. intros t Ht.
      by apply (final_token_second_pass name_raw).
    - apply Forall_forall. intros t Ht.
      destruct (final_token_shape _ _ Ht) as [Hne Htok]. split; [done|].
      eapply Forall_impl; [exact Htok|]. apply tok_char_not_space. }
  unfold final_tokens at 1, kept_tokens. rewrite Hraw.
  unfold handle_special_cases.
  rewrite map_all_fixed.
  - rewrite filter_all; [done|]. intros u Hu.
    apply list_elem_of_filter in Hu as [_ Hu].
    apply list_elem_of_fmap in Hu as (t & -> & Ht).
    by apply (final_token_second_pass name_raw).
  - intros u Hu. apply list_elem_of_filter in Hu as [_ Hu].
    apply list_elem_of_fmap in Hu as (t & -> & Ht).
    by apply (final_token_second_pass name_raw).
Qed.

Lemma final_tokens_sorted name_raw :
  final_tokens name_raw
  = sorted str_leb (elements (list_to_set (final_tokens name_raw) : gset str)).
Proof.
  unfold final_tokens at 1. f_equal. f_equal. unfold final_tokens.
  rewrite (list_to_set_perm_L _ _ (sorted_Permutation str_leb _)).
  by rewrite list_to_set_elements_L.
Qed.

Lemma sorted_elements_inj (X Y : gset str) :
  sorted str_leb (elements X) = sorted str_leb (elements Y) → X = Y.
Proof.
  intros H. apply set_eq. intros t.
  rewrite <- !elem_of_elements.
  rewrite <- (sorted_Permutation str_leb (elements X)).
  rewrite <- (sorted_Permutation str_leb (elements Y)). by rewrite H.
Qed.

(** C2, as the code has it: the canonical string of a name is its own
    canonical string exactly when none of the tokens of the canonical
    form is a generic word, a corporate suffix or an abbreviation.  Such a
    token can only come from [handle_special_cases], which drops the
    trailing digits of a token after the generic words, the suffixes and
    the abbreviations have been dealt with. *)
Theorem canonicalize_idempotent dm (x : str) :
  canon (canonicalize dm (canon (canonicalize dm x)))
  = canon (canonicalize dm x)
  ↔ Forall stable_token (tokens (canonicalize dm x)).
Proof.
  rewrite canonicalize_tokens, (canonicalize_canon dm x), canonicalize_canon.
  set (T := final_tokens x). split.
  - intros Hjoin.
    assert (HT2 : final_tokens (join (lit " ") T) = T).
    { pose proof (f_equal split Hjoin) as Hs.
      rewrite !split_join in Hs; [exact Hs|..];
        apply Forall_forall; intros t Ht;
        destruct (final_token_shape _ _ Ht) as [Hne Htok]; (split; [done|]);
        (eapply Forall_impl; [exact Htok|]); apply tok_char_not_space. }
    unfold T in HT2. rewrite second_pass_tokens in HT2.
    rewrite (final_tokens_sorted x) in HT2 at 2.
    apply sorted_elements_inj in HT2. fold T in HT2.
    apply Forall_forall. intros t Ht.
    assert (Ht2 : t ∈ (list_to_set T : gset str))
      by by apply elem_of_list_to_set.
    rewrite <- HT2 in Ht2.
    apply elem_of_list_to_set, list_elem_of_filter in Ht2 as [[Hg Hc] Ht2].
    apply list_elem_of_fmap in Ht2 as (t' & Ht' & _).
    split; [done|]. split; [done|]. intros Hkey.
    assert (He : expand_abbreviations t = t)
      by (rewrite Ht'; apply expand_abbreviations_idem).
    assert (Haz : Forall (λ c, is_az c = true) t).
    { pose proof ABBREVIATIONS_keys_az as H. rewrite Forall_forall in H.
      by apply H. }
    rewrite expand_abbreviations_az in He by done.
    by apply (expand_run_key t).
  - intros Hstable. f_equal. unfold T. rewrite second_pass_tokens.
    rewrite (final_tokens_sorted x) at 2. fold T. f_equal. f_equal. f_equal.
    rewrite map_all_fixed.
    + apply filter_all. intros t Ht. rewrite Forall_forall in Hstable.
      by destruct (Hstable t Ht) as (? & ? & _).
    + intros t Ht. rewrite Forall_forall in Hstable.
      destruct (final_token_second_pass x t Ht) as (_ & _ & _ & H).
      apply H. by apply Hstable.
Qed.

(** C2, as the specification states it, fails: [company2] loses its digits
    after the filter of generic words has run, so its canonical string is
    [company], whose own canonical string is empty. *)
Lemma canonicalize_idempotent_counterexample :
  canon (canonicalize Examples.metaphone (lit "company2")) = lit "company"
  ∧ ¬ Forall stable_token
        (tokens (canonicalize Examples.metaphone (lit "company2")))
  ∧ canon (canonicalize Examples.metaphone
             (canon (canonicalize Examples.metaphone (lit "company2"))))
    ≠ canon (canonicalize Examples.metaphone (lit "company2")).
Proof.
  split; [vm_compute; reflexivity|]. split; [|vm_compute; discriminate].
  assert (Ht : tokens (canonicalize Examples.metaphone (lit "company2"))
               = [lit "company"]) by (vm_compute; reflexivity).
  rewrite Ht. intros H. apply Forall_cons in H as [[Hg _] _]. apply Hg.
  refine (bool_decide_unpack _ _). vm_compute. exact I.
Qed.

(** A name with a token of letters and digits whose stem is none of these
    words: [Route66 Diner] becomes [diner route], which is its own
    canonical string. *)
Lemma canonicalize_idempotent_witness :
  canon (canonicalize Examples.metaphone (lit "Route66 Diner"))
  = lit "diner route"
  ∧ Forall stable_token
      (tokens (canonicalize Examples.metaphone (lit "Route66 Diner")))
  ∧ canon (canonicalize Examples.metaphone
             (canon (canonicalize Examples.metaphone (lit "Route66 Diner"))))
    = canon (canonicalize Examples.metaphone (lit "Route66 Diner")).
Proof.
  assert (Ht : tokens (canonicalize Examples.metaphone (lit "Route66 Diner"))
               = [lit "diner"; lit "route"]) by (vm_compute; reflexivity).
  assert (H : Forall stable_token
                (tokens (canonicalize Examples.metaphone
                           (lit "Route66 Diner")))).
  { rewrite Ht.
    repeat constructor;
      refine (bool_decide_unpack (_ ∉ _) _); vm_compute; exact I. }
  split; [vm_compute; reflexivity|]. split; [exact H|].
  exact (proj2 (canonicalize_idempotent Examples.metaphone
                  (lit "Route66 Diner")) H).
Defined.

Local Open Scope Q_scope.

(** ** The union of the views *)

Lemma first_met_acc (ids acc : list Z) :
  NoDup acc →
  NoDup (fold_left (λ acc i, if decide (i ∈ acc) then acc else acc ++ [i])
           ids acc)
  ∧ ∀ i, i ∈ fold_left (λ acc i, if decide (i ∈ acc) then acc else acc ++ [i])
               ids acc
         ↔ i ∈ acc ∨ i ∈ ids.
Proof.
  revert acc. induction ids as [|j ids IH]; intros acc Hnd; cbn [fold_left].
  - split; [done|]. intros i. rewrite elem_of_nil. tauto.
  - destruct (decide (j ∈ acc)) as [Hj|Hj].
    + destruct (IH acc Hnd) as [H1 H2]. split; [done|].
      intros i. rewrite H2, elem_of_cons. split; [tauto|].
      intros [?|[->|?]]; tauto.
    + destruct (IH (acc ++ [j])) as [H1 H2].
      { apply NoDup_app. split; [done|]. split; [|apply NoDup_singleton].
        intros x Hx ->%list_elem_of_singleton. done. }
      split; [done|]. intros i.
      rewrite H2, elem_of_app, list_elem_of_singleton, elem_of_cons. tauto.
Qed.

Lemma first_met_NoDup ids : NoDup (first_met ids).
Proof. apply first_met_acc. constructor. Qed.

Lemma first_met_elem ids i : i ∈ first_met ids ↔ i ∈ ids.
Proof.
  unfold first_met.
  rewrite (proj2 (first_met_acc ids [] (NoDup_nil_2)) i), elem_of_nil. tauto.
Qed.

Lemma slice_to_take {A} (k : Z) (l : list A) : ∃ n, slice_to k l = take n l.
Proof. unfold slice_to. destruct (0 <=? k)%Z; eauto. Qed.

Lemma with_totals_ids agg :
  map c_payee_id (map with_totals agg) = dict_keys agg.
Proof. unfold dict_keys. rewrite map_map. apply map_ext. by intros [? [? ?]]. Qed.

Lemma union_candidates_ids settings candidates_lists k :
  ∃ n, map c_payee_id (union_candidates settings candidates_lists k)
       = take n (map c_payee_id
                   (sorted (λ x y, union_key_le y x)
                      (map with_totals (aggregate candidates_lists))))
       ∧ map c_payee_id
           (sorted (λ x y, union_key_le y x)
              (map with_totals (aggregate candidates_lists)))
         ≡ₚ first_met (hit_ids candidates_lists).
Proof.
  unfold union_candidates.
  destruct (slice_to_take (or_default k (k_union settings))
              (sorted (λ x y, union_key_le y x)
                 (map with_totals (aggregate candidates_lists)))) as [n ->].
  exists n. split.
  - apply (fmap_take c_payee_id).
  - rewrite (sorted_Permutation (λ x y, union_key_le y x)).
    by rewrite with_totals_ids, aggregate_keys.
Qed.

(** The shortlist holds a payee at most once, and only payees that some
    view reported. *)
Theorem union_candidates_distinct settings candidates_lists k :
  NoDup (map c_payee_id (union_candidates settings candidates_lists k))
  ∧ ∀ c, c ∈ union_candidates settings candidates_lists k →
         c_payee_id c ∈ hit_ids candidates_lists.
Proof.
  destruct (union_candidates_ids settings candidates_lists k)
    as (n & Hout & Hperm).
  assert (Hsub : map c_payee_id (union_candidates settings candidates_lists k)
                 `sublist_of`
                 map c_payee_id
                   (sorted (λ x y, union_key_le y x)
                      (map with_totals (aggregate candidates_lists)))).
  { rewrite Hout. apply sublist_take. }
  split.
  - eapply sublist_NoDup; [|exact Hsub].
    rewrite Hperm. apply first_met_NoDup.
  - intros c Hc. apply first_met_elem. rewrite <- Hperm.
    eapply elem_of_sublist; [|exact Hsub].
    apply list_elem_of_fmap. by exists c.
Qed.

(** When the bound is at least the number of payees that the views
    reported, the shortlist holds every one of them. *)
Theorem union_candidates_complete settings candidates_lists k :
  (Z.of_nat (length (first_met (hit_ids candidates_lists)))
   <= or_default k (k_union settings))%Z →
  map c_payee_id (union_candidates settings candidates_lists k)
  ≡ₚ first_met (hit_ids candidates_lists).
Proof.
  intros HK. unfold union_candidates.
  rewrite slice_to_nonneg by lia.
  rewrite take_ge.
  - rewrite (sorted_Permutation (λ x y, union_key_le y x)).
    by rewrite with_totals_ids, aggregate_keys.
  - rewrite (sorted_Permutation (λ x y, union_key_le y x)).
    rewrite length_map. rewrite <- aggregate_keys in HK.
    unfold dict_keys in HK. rewrite length_map in HK. lia.
Qed.

Lemma union_candidates_complete_witness :
  (Z.of_nat (length (first_met (hit_ids Examples.tied_hits)))
   <= or_default None (k_union Config.defaults))%Z
  ∧ map c_payee_id (union_candidates Config.defaults Examples.tied_hits None)
    ≡ₚ first_met (hit_ids Examples.tied_hits).
Proof.
  assert (H : (Z.of_nat (length (first_met (hit_ids Examples.tied_hits)))
               <= or_default None (k_union Config.defaults))%Z)
    by (vm_compute; discriminate).
  split; [exact H|].
  exact (union_candidates_complete Config.defaults Examples.tied_hits None H).
Defined.

(** *** The aggregate scores *)

Lemma py_max_fold (r : list Q) (x : Q) :
  fold_left (λ m y, if Qle_bool y m then m else y) r x ∈ x :: r
  ∧ x <= fold_left (λ m y, if Qle_bool y m then m else y) r x
  ∧ Forall (λ v, v <= fold_left (λ m y, if Qle_bool y m then m else y) r x) r.
Proof.
  revert x. induction r as [|y r IH]; intros x; cbn [fold_left].
  - split; [left|]. split; [apply Qle_refl | constructor].
  - destruct (IH (if Qle_bool y x then x else y)) as (Hin & Hle & Hall).
    destruct (Qle_bool y x) eqn:E.
    + apply Qle_bool_iff in E. split; [|split].
      * apply elem_of_cons in Hin as [->|Hin]; [left | right; by right].
      * done.
      * constructor; [by eapply Qle_trans | done].
    + assert (x <= y).
      { apply Qlt_le_weak, Qnot_le_lt. intros H.
        apply Qle_bool_iff in H. congruence. }
      split; [|split].
      * apply elem_of_cons in Hin as [->|Hin]; right; [left | by right].
      * by eapply Qle_trans.
      * by constructor.
Qed.

Lemma py_max_spec (l : list Q) :
  l ≠ [] → py_max l ∈ l ∧ Forall (λ v, v <= py_max l) l.
Proof.
  destruct l as [|x r]; [done|]. intros _. unfold py_max.
  destruct (py_max_fold r x) as (Hin & Hle & Hall). split; [done|].
  by constructor.
Qed.

Lemma dict_set_values {K V} `{EqDecision K} (P : V → Prop)
    (d : list (K * V)) k v :
  Forall P (dict_values d) → P v → Forall P (dict_values (dict_set d k v)).
Proof.
  unfold dict_values. intros Hd Hv.
  induction d as [|[k' v'] d IH]; cbn [dict_set map snd].
  - by repeat constructor.
  - cbn [map snd] in Hd. apply Forall_cons in Hd as [Hv' Hd].
    destruct (decide (k' = k)); cbn [map snd]; constructor; auto.
Qed.

Lemma dict_get_values {K V} `{EqDecision K} (P : V → Prop)
    (d : list (K * V)) k v :
  Forall P (dict_values d) → dict_get d k = Some v → P v.
Proof.
  unfold dict_values.
  induction d as [|[k' v'] d IH]; cbn [dict_get map snd]; [done|].
  intros [Hv' Hd]%Forall_cons. destruct (decide (k' = k)); [|by apply IH].
  by intros [= ->].
Qed.

Lemma dict_set_nonempty {K V} `{EqDecision K} (d : list (K * V)) k v :
  dict_set d k v ≠ [].
Proof. destruct d as [|[k' v'] d]; cbn [dict_set]; [done|]. by destruct decide. Qed.

Lemma dict_set_length {K V} `{EqDecision K} (d : list (K * V)) k v :
  (length (dict_set d k v) ≤ S (length d))%nat.
Proof.
  induction d as [|[k' v'] d IH]; cbn [dict_set length]; [lia|].
  destruct decide; cbn [length]; lia.
Qed.

Lemma dict_set_NoDup {K V} `{EqDecision K} (d : list (K * V)) k v :
  NoDup (dict_keys d) → NoDup (dict_keys (dict_set d k v)).
Proof.
  intros Hd. rewrite dict_keys_set. destruct decide as [|Hk]; [done|].
  apply NoDup_app. split; [done|]. split; [|apply NoDup_singleton].
  by intros x Hx ->%list_elem_of_singleton.
Qed.

Lemma record_hit_entries acc (h : hit) :
  Forall (λ e : list (str * Q) * list str,
            e.1 ≠ [] ∧ NoDup (dict_keys e.1)
            ∧ (length e.1 ≤ length e.2)%nat) (dict_values acc) →
  Forall (λ e : list (str * Q) * list str,
            e.1 ≠ [] ∧ NoDup (dict_keys e.1)
            ∧ (length e.1 ≤ length e.2)%nat)
    (dict_values (record_hit acc h)).
Proof.
  intros Hacc. destruct h as [[id score] source]. unfold record_hit.
  apply dict_set_values; [done|]. cbn [fst snd].
  assert (He : NoDup (dict_keys (default ([], []) (dict_get acc id)).1)
               ∧ (length (default ([], []) (dict_get acc id)).1
                  ≤ length (default ([], []) (dict_get acc id)).2)%nat).
  { destruct (dict_get acc id) as [e|] eqn:E; cbn [default].
    - by destruct (dict_get_values _ _ _ _ Hacc E) as (_ & ? & ?).
    - cbn. split; [constructor | lia]. }
  destruct He as [Hnd Hlen].
  split; [apply dict_set_nonempty|]. split; [by apply dict_set_NoDup|].
  rewrite length_app. cbn [length].
  pose proof (dict_set_length (default ([], []) (dict_get acc id)).1
                (before_sep ":"%char source) score). lia.
Qed.

Lemma aggregate_entries candidates_lists :
  Forall (λ e : list (str * Q) * list str,
            e.1 ≠ [] ∧ NoDup (dict_keys e.1)
            ∧ (length e.1 ≤ length e.2)%nat)
    (dict_values (aggregate candidates_lists)).
Proof.
  unfold aggregate. rewrite aggregate_concat.
  generalize (concat candidates_lists). intros hits.
  assert (H : Forall (λ e : list (str * Q) * list str,
            e.1 ≠ [] ∧ NoDup (dict_keys e.1)
            ∧ (length e.1 ≤ length e.2)%nat)
            (dict_values ([] : list (Z * (list (str * Q) * list str)))))
    by constructor.
  revert H. generalize ([] : list (Z * (list (str * Q) * list str))).
  induction hits as [|h hits IH]; intros acc Hacc; cbn [fold_left]; [done|].
  by apply IH, record_hit_entries.
Qed.

(** Every entry of the shortlist carries at least one score, one per kind
    of view; [num_sources] is the number of these scores, which is at most
    the number of source tags, and [max_score] is the largest of them. *)
Theorem union_candidates_totals settings candidates_lists k c :
  c ∈ union_candidates settings candidates_lists k →
  scores c ≠ []
  ∧ NoDup (dict_keys (scores c))
  ∧ num_sources c = Z.of_nat (length (scores c))
  ∧ (num_sources c <= Z.of_nat (length (sources c)))%Z
  ∧ max_score c ∈ dict_values (scores c)
  ∧ Forall (λ v, v <= max_score c) (dict_values (scores c)).
Proof.
  unfold union_candidates. intros Hc.
  destruct (slice_to_take (or_default k (k_union settings))
              (sorted (λ x y, union_key_le y x)
                 (map with_totals (aggregate candidates_lists)))) as [n Hn].
  rewrite Hn in Hc. apply elem_of_take in Hc as (i & Hc & _).
  apply list_elem_of_lookup_2 in Hc.
  rewrite (sorted_Permutation (λ x y, union_key_le y x)) in Hc.
  apply list_elem_of_fmap in Hc as ([id e] & -> & He).
  pose proof (aggregate_entries candidates_lists) as Hall.
  rewrite Forall_forall in Hall.
  destruct (Hall e) as (Hne & Hnd & Hlen).
  { unfold dict_values. apply list_elem_of_fmap. by exists (id, e). }
  unfold with_totals. cbn [scores sources num_sources max_score fst snd].
  assert (Hv : dict_values e.1 ≠ []).
  { unfold dict_values. by destruct e.1. }
  split; [done|]. split; [done|].
  assert (Hl : length (dict_values e.1) = length e.1).
  { unfold dict_values. apply length_map. }
  rewrite Hl. split; [done|]. split; [lia|].
  destruct (py_max_spec (dict_values e.1) Hv) as [Hin Hmax].
  by destruct (dict_values e.1).
Qed.

Lemma union_candidates_totals_witness :
  ∃ c, c ∈ union_candidates Config.defaults Examples.tied_hits None
       ∧ num_sources c = 1%Z
       ∧ max_score c ∈ dict_values (scores c).
Proof.
  assert (H : {| c_payee_id := 2; scores := [(lit "trgm", 1 # 2)];
                 sources := [lit "trgm:0.500"]; max_score := 1 # 2;
                 avg_score := 1 # 2; num_sources := 1 |}
              ∈ union_candidates Config.defaults Examples.tied_hits None).
  { apply list_elem_of_In. vm_compute. by left. }
  eexists. split; [exact H|].
  pose proof (union_candidates_totals _ _ _ _ H) as (_ & _ & Hn & _ & Hm & _).
  split; [exact Hn | exact Hm].
Defined.

(** ** The effects and the answer of [match_one] *)

Lemma reads_only_refl w : reads_only w w.
Proof. repeat split. exists []. by rewrite app_nil_r. Qed.

Lemma reads_only_trans w1 w2 w3 :
  reads_only w1 w2 → reads_only w2 w3 → reads_only w1 w3.
Proof.
  intros (Hp1 & Hr1 & s1 & Hs1 & Hw1) (Hp2 & Hr2 & s2 & Hs2 & Hw2).
  split; [congruence|]. split; [congruence|].
  exists (s1 ++ s2). split; [by rewrite Hs2, Hs1, app_assoc|].
  by apply Forall_app.
Qed.

Lemma reads_only_execute s w :
  is_write s = false → reads_only w (execute s w).2.
Proof.
  intros Hs. rewrite run_execute. cbn [snd]. repeat split.
  exists [s]. split; [done|]. by constructor.
Qed.

Lemma reads_only_bind {A B} (m : M A) (k : A → M B) w :
  reads_only w (m w).2 →
  (∀ a w1, reads_only w1 (k a w1).2) →
  reads_only w ((m ≫= k) w).2.
Proof.
  intros Hm Hk. rewrite run_bind. destruct (m w) as [[a|e] w1]; cbn [snd] in *.
  - eapply reads_only_trans; [exact Hm | apply Hk].
  - done.
Qed.

Lemma reads_only_for_each {A B} (f : A → M (list B)) l w :
  (∀ x w1, reads_only w1 (f x w1).2) →
  reads_only w (for_each f l w).2.
Proof.
  intros Hf. revert w. induction l as [|x l IH]; intros w; cbn [for_each].
  - rewrite run_ret. apply reads_only_refl.
  - apply reads_only_bind; [apply Hf|]. intros ys w1.
    apply reads_only_bind; [apply IH|]. intros zs w2.
    rewrite run_mret. apply reads_only_refl.
Qed.

Lemma reads_only_get_payees w : reads_only w (get_payees w).2.
Proof. rewrite run_get_payees. apply reads_only_refl. Qed.

Ltac frame :=
  repeat first
    [ apply reads_only_refl
    | apply reads_only_get_payees
    | rewrite run_ret; cbn [snd]
    | rewrite run_mret; cbn [snd]
    | rewrite run_lift; cbn [snd]
    | apply reads_only_execute; reflexivity
    | match goal with
      | |- reads_only _ ((_ ≫= _) _).2 => apply reads_only_bind; [|intros ? ?]
      end ].

Section Frames.
Variable settings : Settings.
Variable doublemetaphone : str → str * str.
Variable format_3f : Q → str.
Variable format_pct : Q → str.
Variable pg_trgm_search : list payee → str → Z → option (list (Z * Q)).
Variable pg_vector_search : list payee → list Q → Z → option (list (Z * Q)).
Variable fuzz : rapidfuzz.
Variable IDF_CACHE : gmap str Q.
Variable classifier : PayeeClassifier.

Lemma reads_only_exact q w : reads_only w (get_exact_match q w).2.
Proof. unfold get_exact_match. frame. destruct (filter _ _); frame. Qed.

Lemma reads_only_trigram q limit w :
  reads_only w
    (get_trigram_candidates settings format_3f pg_trgm_search q limit w).2.
Proof.
  unfold get_trigram_candidates. frame.
  destruct (pg_trgm_search _ _ _); frame.
Qed.

Lemma reads_only_vector q limit w :
  reads_only w
    (get_vector_candidates settings format_3f pg_vector_search q limit w).2.
Proof.
  unfold get_vector_candidates, get_embedding. frame.
  { destruct (decide (q = [])); frame. }
  destruct (decide (_ = [])); frame.
  destruct (pg_vector_search _ _ _); frame.
Qed.

Lemma reads_only_phonetic qd limit w :
  reads_only w (get_phonetic_candidates settings format_3f qd limit w).2.
Proof.
  unfold get_phonetic_candidates. destruct (decide (_ = [])); frame.
  destruct (phonetic_rows _ _ _); frame.
Qed.

Lemma reads_only_candidates name w :
  reads_only w
    (get_candidates settings doublemetaphone format_3f pg_trgm_search
       pg_vector_search name w).2.
Proof.
  unfold get_candidates. destruct (decide (_ = [])); frame.
  { apply reads_only_exact. }
  match goal with |- context [match ?a with [] => _ | _ :: _ => _ end] =>
    destruct a as [|e ?] end; frame.
  { apply reads_only_trigram. }
  { destruct (decide (_ ≠ _)); frame. apply reads_only_vector. }
  { apply reads_only_phonetic. }
Qed.

Lemma reads_only_score name c w :
  reads_only w
    (score_candidate doublemetaphone fuzz IDF_CACHE classifier name c w).2.
Proof.
  unfold score_candidate. frame.
  destruct (filter _ _); frame.
  match goal with |- context [let '(_, _) := ?a in _] => destruct a end.
  frame.
Qed.
End Frames.

Section Effects_of_match.
Variable settings : Settings.
Variable doublemetaphone : str → str * str.
Variable format_3f : Q → str.
Variable format_pct : Q → str.
Variable pg_trgm_search : list payee → str → Z → option (list (Z * Q)).
Variable pg_vector_search : list payee → list Q → Z → option (list (Z * Q)).
Variable fuzz : rapidfuzz.
Variable IDF_CACHE : gmap str Q.
Variable classifier : PayeeClassifier.
Variable llm_same_entity : str → str → option (bool * Q).

Let run_match :=
  match_one settings doublemetaphone format_3f format_pct pg_trgm_search
    pg_vector_search fuzz IDF_CACHE classifier llm_same_entity.


Lemma sorted_desc {A} (key : A → Q) (l : list A) :
  StronglySorted (λ a b, (key b <= key a)%Q) (sorted (desc_by key) l).
Proof.
  eapply StronglySorted_mono;
    [|apply (sorted_StronglySorted (desc_by key))].
  - intros a b H. by apply Qle_bool_iff in H.
  - apply desc_by_total.
  - apply desc_by_trans.
Qed.

(** The ways in which a call of [match_one] ends. *)
Lemma match_one_cases name w :
  ∃ out w',
    run_match name w = (out, w')
    ∧ match out with
      | Raise _ => reads_only w w'
      | Ok r =>
          (reads_only w w' ∧ candidates r = [] ∧ decision_of r = no_match
           ∧ confidence r = 0 ∧ matched_payee r = None)
          ∨ ∃ w2 best rest,
              reads_only w w2
              ∧ StronglySorted (λ a b, (probability b <= probability a)%Q)
                  (best :: rest)
              ∧ candidates r = slice_to 5 (best :: rest)
              ∧ (decision_of r, confidence r)
                = (if bool_decide (threshold_decision settings (probability best)
                                   = needs_review)
                      && bool_decide (rerank_provider settings = lit "openai")
                   then rerank_with_llm settings llm_same_entity name
                          (slice_to 5 (best :: rest))
                   else (threshold_decision settings (probability best),
                         probability best))
              ∧ matched_payee r
                = (if decide (decision_of r = auto_match)
                   then Some (sc_payee_id best, sc_name best,
                              sc_bq_supplier_id best)
                   else None)
              ∧ if decide (decision_of r = needs_review) then
                  payees w' = payees w2
                  ∧ statements w' = statements w2 ++ [InsertReview name]
                  ∧ review_queue w'
                    = review_queue w2
                      ++ [review_row name
                            (canon (canonicalize doublemetaphone name))
                            (slice_to 10 (best :: rest))]
                else w' = w2
      end.
Proof.
  unfold run_match, match_one, _match_one_internal.
  destruct (decide _) as [|Hne].
  { eexists _, _. split; [reflexivity|]. left. cbn.
    split; [apply reads_only_refl | done]. }
  run.
  pose proof (reads_only_candidates settings doublemetaphone format_3f
                pg_trgm_search pg_vector_search name w) as H1.
  destruct (get_candidates _ _ _ _ _ _ _) as [[cands|e] w1];
    cbn [snd] in H1; [|by eexists _, _].
  destruct cands as [|c cands].
  { eexists _, _. split; [reflexivity|]. by left. }
  run.
  pose proof (reads_only_for_each
                (score_candidate doublemetaphone fuzz IDF_CACHE classifier name)
                (c :: cands) w1
                (reads_only_score doublemetaphone fuzz IDF_CACHE classifier name))
    as H2.
  destruct (for_each _ _ _) as [[scored|e] w2]; cbn [snd] in H2;
    [|eexists _, _; split; [reflexivity|]; by eapply reads_only_trans].
  pose proof (reads_only_trans _ _ _ H1 H2) as H12.
  pose proof (sorted_desc probability scored) as Hsorted.
  destruct (sorted _ scored) as [|best rest].
  { eexists _, _. split; [reflexivity|]. by left. }
  fold (threshold_decision settings (probability best)).
  destruct (if _ && _ then _ else _) as [d conf] eqn:Hd.
  destruct d; run; eexists _, _; (split; [reflexivity|]); right;
    exists w2, best, rest; cbn [decision_of confidence candidates matched_payee];
    (split; [exact H12|]); (split; [exact Hsorted|]); (split; [reflexivity|]);
    (split; [by rewrite Hd|]).
  - by rewrite decide_True, decide_False.
  - rewrite decide_False, decide_True by done. done.
  - by rewrite !decide_False.
Qed.


(** The answer of [match_one] lists at most five candidates, from the
    largest probability down; it names a matched payee exactly when the
    decision is [auto_match], and that payee is the first candidate; a
    decision other than [no_match] comes with a candidate. *)
Theorem match_result_shape name w r w' :
  run_match name w = (Ok r, w') →
  (length (candidates r) ≤ 5)%nat
  ∧ StronglySorted (λ a b, (probability b <= probability a)%Q) (candidates r)
  ∧ matched_payee r
    = match decision_of r, candidates r with
      | auto_match, best :: _ =>
          Some (sc_payee_id best, sc_name best, sc_bq_supplier_id best)
      | _, _ => None
      end
  ∧ (decision_of r ≠ no_match → candidates r ≠ []).
Proof.
  intros Hrun.
  destruct (match_one_cases name w) as (out & w0 & Hrun' & H).
  rewrite Hrun in Hrun'. injection Hrun' as <- <-.
  destruct H as [(_ & Hc & Hd & _ & Hm)
                |(w2 & best & rest & _ & Hs & Hc & _ & Hm & _)].
  { rewrite Hc, Hd, Hm. cbn [length]. repeat split; [lia | constructor | done]. }
  rewrite Hc, Hm. rewrite slice_to_nonneg by lia.
  split; [rewrite length_take; lia|].
  split; [by apply StronglySorted_take|].
  change (take (Z.to_nat 5) (best :: rest)) with (best :: take 4 rest).
  split; [by destruct (decision_of r) | done].
Qed.

(** The reranker answers [auto_match] or [needs_review], never
    [no_match], and never lowers the confidence: it keeps the probability
    of the first candidate unless a key is configured and the model says
    that the names are the same entity with confidence at least 0.90, in
    which case the answer is [auto_match] with the larger of the two
    numbers. *)
Theorem rerank_with_llm_spec query (best : scored_candidate) rest :
  let answer :=
    rerank_with_llm settings llm_same_entity query (best :: rest) in
  (answer = (needs_review, probability best)
   ∨ ∃ key conf,
       openai_api_key settings = Some key ∧ key ≠ []
       ∧ llm_same_entity query (sc_name best) = Some (true, conf)
       ∧ (90 # 100 <= conf)%Q
       ∧ answer = (auto_match, py_max2 (probability best) conf))
  ∧ (probability best <= answer.2)%Q.
Proof.
  cbn zeta. unfold rerank_with_llm.
  destruct (openai_api_key settings) as [key|];
    [|split; [by left | apply Qle_refl]].
  destruct (decide (key = []));
    [split; [by left | apply Qle_refl]|].
  destruct (llm_same_entity query (sc_name best)) as [[same conf]|];
    [|split; [by left | apply Qle_refl]].
  destruct same; cbn [andb]; [|split; [by left | apply Qle_refl]].
  destruct (bool_decide_reflect (90 # 100 <= conf)%Q) as [Hc|Hc];
    [|split; [by left | apply Qle_refl]].
  split; [right; by exists key, conf|].
  cbn [snd]. unfold py_max2.
  destruct (Qlt_le_dec (probability best) conf);
    [by apply Qlt_le_weak | apply Qle_refl].
Qed.

(** How the decision follows from the probability [p] of the first
    candidate: [auto_match] when [p] reaches [T_high], or when [p] is in
    the review band and the reranker, being enabled, raised the answer,
    the confidence then being at least 0.90; [needs_review] when [p] is
    in the review band; [no_match] when [p] is below both thresholds.
    Without an upgrade the confidence is [p]. *)
Theorem match_one_decision name w r w' best tail :
  run_match name w = (Ok r, w') →
  candidates r = best :: tail →
  match decision_of r with
  | auto_match =>
      ((t_high settings <= probability best)%Q
       ∧ confidence r = probability best)
      ∨ (rerank_provider settings = lit "openai"
         ∧ ¬ (t_high settings <= probability best)%Q
         ∧ (t_low settings <= probability best)%Q
         ∧ (90 # 100 <= confidence r)%Q
         ∧ (probability best <= confidence r)%Q)
  | needs_review =>
      ¬ (t_high settings <= probability best)%Q
      ∧ (t_low settings <= probability best)%Q
      ∧ confidence r = probability best
  | no_match =>
      ¬ (t_high settings <= probability best)%Q
      ∧ ¬ (t_low settings <= probability best)%Q
      ∧ confidence r = probability best
  end.
Proof.
  intros Hrun Hbest.
  destruct (match_one_cases name w) as (out & w0 & Hrun' & H).
  rewrite Hrun in Hrun'. injection Hrun' as <- <-.
  destruct H as [(_ & Hc & _)|(w2 & best' & rest & _ & _ & Hc & Hd & _)];
    [congruence|].
  rewrite slice_to_nonneg in * by lia.
  change (take (Z.to_nat 5) (best' :: rest)) with (best' :: take 4 rest) in *.
  assert (best' = best) as -> by congruence.
  revert Hd. unfold threshold_decision.
  destruct (bool_decide_reflect (t_high settings <= probability best)%Q)
    as [Hh|Hh].
  { cbn [bool_decide andb]. rewrite bool_decide_false by done. cbn [andb].
    intros [= -> ->]. by left. }
  destruct (bool_decide_reflect (t_low settings <= probability best)%Q)
    as [Hl|Hl].
  2:{ rewrite bool_decide_false by done. cbn [andb]. by intros [= -> ->]. }
  rewrite bool_decide_true by done. cbn [andb].
  destruct (bool_decide_reflect (rerank_provider settings = lit "openai"))
    as [Hp|Hp]; [|by intros [= -> ->]].
  destruct (rerank_with_llm_spec name best (take 4 rest))
    as [[Ha|(key & conf & _ & _ & _ & Hconf & Ha)] Hle];
    cbn zeta in *; rewrite Ha in *; intros [= -> ->]; [done|].
  right. repeat split; try done. cbn [snd] in Hle.
  unfold py_max2 in *. destruct (Qlt_le_dec (probability best) conf); [done|].
  by eapply Qle_trans.
Qed.
End Effects_of_match.

(** ** The scored candidates of a run *)

Lemma score_candidate_one dm fuzz IDF classifier name c w ys w' :
  score_candidate dm fuzz IDF classifier name c w = (Ok ys, w') →
  ys = [] ∨ ∃ sc, ys = [sc] ∧ sc_payee_id sc = c_payee_id c
                  ∧ sc_sources sc = sources c.
Proof.
  unfold score_candidate. run.
  destruct (filter _ _) as [|p ?] eqn:Hf; run; [intros [= <- _]; by left|].
  destruct (compute_features _ _ _ _ _ _) as [[vector dict]|e]; run; [|done].
  intros [= <- _]. right. eexists. split; [reflexivity|]. cbn.
  split; [|done].
  assert (Hp : p ∈ filter (λ p, payee_id p = c_payee_id c) (payees w))
    by (rewrite Hf; left).
  by apply list_elem_of_filter in Hp as [Hp _].
Qed.

(** The candidates are scored in the order of the shortlist. *)
Lemma scored_in_shortlist_order dm fuzz IDF classifier name l w scored w' :
  for_each (score_candidate dm fuzz IDF classifier name) l w = (Ok scored, w') →
  map sc_payee_id scored `sublist_of` map c_payee_id l.
Proof.
  revert w scored w'. induction l as [|c l IH]; intros w scored w'; simpl.
  - intros [= <- _]. constructor.
  - run. destruct (score_candidate _ _ _ _ _ _ _) as [[ys|e] w1] eqn:Hc; [|done].
    run. destruct (for_each _ l w1) as [[zs|e] w2] eqn:Hl; [|done].
    run. intros [= <- _]. apply IH in Hl.
    apply score_candidate_one in Hc as [->|(sc & -> & Hid & _)]; cbn.
    + by apply sublist_cons.
    + rewrite Hid. by apply sublist_skip.
Qed.

Section Scored.
Variable settings : Settings.
Variable doublemetaphone : str → str * str.
Variable format_3f : Q → str.
Variable format_pct : Q → str.
Variable pg_trgm_search : list payee → str → Z → option (list (Z * Q)).
Variable pg_vector_search : list payee → list Q → Z → option (list (Z * Q)).
Variable fuzz : rapidfuzz.
Variable IDF_CACHE : gmap str Q.
Variable classifier : PayeeClassifier.
Variable llm_same_entity : str → str → option (bool * Q).

Let run_match :=
  match_one settings doublemetaphone format_3f format_pct pg_trgm_search
    pg_vector_search fuzz IDF_CACHE classifier llm_same_entity.

Let shortlist_of :=
  get_candidates settings doublemetaphone format_3f pg_trgm_search
    pg_vector_search.

Let score := score_candidate doublemetaphone fuzz IDF_CACHE classifier.

(** The scored candidates behind an answer of [match_one]: the shortlist
    of [get_candidates], scored entry by entry; the answer lists the first
    five in descending order of probability, and a row added to the
    review queue holds the first ten. *)
Lemma match_one_scored name w r w' :
  run_match name w = (Ok r, w') →
  ∃ shortlist w1 scored w2,
    shortlist_of name w = (Ok shortlist, w1)
    ∧ for_each (score name) shortlist w1 = (Ok scored, w2)
    ∧ candidates r = slice_to 5 (sorted (desc_by probability) scored)
    ∧ (review_queue w' = review_queue w
       ∨ review_queue w'
         = review_queue w
           ++ [review_row name (canon (canonicalize doublemetaphone name))
                 (slice_to 10 (sorted (desc_by probability) scored))]).
Proof.
  unfold run_match, shortlist_of, score, match_one, _match_one_internal.
  destruct (decide _) as [He|Hne].
  { intros [= <- <-]. exists [], w, [], w.
    unfold get_candidates. rewrite decide_True by done.
    repeat split. by left. }
  run.
  pose proof (reads_only_candidates settings doublemetaphone format_3f
                pg_trgm_search pg_vector_search name w) as H1.
  destruct (get_candidates _ _ _ _ _ _ _) as [[cands|e] w1];
    cbn [snd] in H1; [|done].
  destruct cands as [|c cands].
  { intros [= <- <-]. exists [], w1, [], w1. repeat split.
    left. by destruct H1 as (_ & -> & _). }
  run.
  pose proof (reads_only_for_each
                (score_candidate doublemetaphone fuzz IDF_CACHE classifier name)
                (c :: cands) w1
                (reads_only_score doublemetaphone fuzz IDF_CACHE classifier name))
    as H2.
  destruct (for_each _ _ _) as [[scored|e] w2] eqn:Hfe; cbn [snd] in H2;
    [|done].
  destruct (reads_only_trans _ _ _ H1 H2) as (_ & Hq & _).
  intros Hrun. exists (c :: cands), w1, scored, w2.
  split; [done|]. split; [exact Hfe|]. revert Hrun.
  destruct (sorted _ scored) as [|best rest].
  { intros [= <- <-]. split; [done | by left]. }
  destruct (if _ && _ then _ else _) as [d conf].
  destruct d; run; intros [= <- <-]; cbn [candidates review_queue];
    (split; [done|]); [by left | right | by left].
  by rewrite Hq.
Qed.

(** C5: every scored candidate of a run of [match_one] that answers has a
    probability between 0 and 1: each candidate that the scoring loop
    makes of the shortlist, and so each of the five that the answer lists
    and of the ten that a row of the review queue holds.  The heuristic
    clamps its sum; a learned model is taken to give probabilities, as a
    calibrated classifier does. *)
Theorem scored_probability_in_unit name w r w' :
  calibrated classifier →
  run_match name w = (Ok r, w') →
  ∃ shortlist w1 scored w2,
    shortlist_of name w = (Ok shortlist, w1)
    ∧ for_each (score name) shortlist w1 = (Ok scored, w2)
    ∧ Forall (λ sc, in_unit (probability sc)) scored
    ∧ candidates r = slice_to 5 (sorted (desc_by probability) scored)
    ∧ Forall (λ sc, in_unit (probability sc)) (candidates r)
    ∧ Forall (λ row, Forall (λ sc, in_unit (probability sc))
                       (rv_candidates row))
        (drop (length (review_queue w)) (review_queue w')).
Proof.
  intros Hcal Hrun.
  destruct (match_one_scored name w r w' Hrun)
    as (shortlist & w1 & scored & w2 & Hs & Hf & Hc & Hq).
  exists shortlist, w1, scored, w2.
  assert (Hall : Forall (λ sc, in_unit (probability sc)) scored).
  { apply (for_each_Forall (λ sc, in_unit (probability sc))) in Hf; [done|].
    intros ????. by apply score_candidate_in_unit. }
  assert (Hslice : ∀ k, Forall (λ sc, in_unit (probability sc))
                          (slice_to k (sorted (desc_by probability) scored))).
  { intros k. unfold slice_to.
    destruct (0 <=? k)%Z; apply Forall_take;
      by rewrite (sorted_Permutation (desc_by probability)). }
  split; [done|]. split; [done|]. split; [done|]. split; [done|].
  split; [rewrite Hc; apply Hslice|].
  destruct Hq as [-> | ->].
  - rewrite drop_all. constructor.
  - rewrite drop_app_length. repeat constructor. apply Hslice.
Qed.

(** C7, as the code has it: the candidates that [match_one] answers with
    are the first five of the scored candidates in descending order of
    probability; two candidates with the same probability stand in the
    order in which they were scored, which is the order of the shortlist.
    Neither the number of sources nor the payee id is looked at. *)
Theorem scored_candidates_order name w r w' :
  run_match name w = (Ok r, w') →
  ∃ shortlist w1 scored w2,
    shortlist_of name w = (Ok shortlist, w1)
    ∧ for_each (score name) shortlist w1 = (Ok scored, w2)
    ∧ map sc_payee_id scored `sublist_of` map c_payee_id shortlist
    ∧ let ranked := sorted (desc_by probability) scored in
      candidates r = slice_to 5 ranked
      ∧ ranked ≡ₚ scored
      ∧ StronglySorted (λ a b, (probability b <= probability a)%Q) ranked
      ∧ ∀ a b, before a b ranked →
          (probability a == probability b)%Q → before a b scored.
Proof.
  intros Hrun.
  destruct (match_one_scored name w r w' Hrun)
    as (shortlist & w1 & scored & w2 & Hs & Hf & Hc & _).
  exists shortlist, w1, scored, w2.
  split; [done|]. split; [done|].
  split; [by eapply scored_in_shortlist_order|].
  cbn zeta. split; [done|]. split; [apply sorted_Permutation|]. split.
  - apply sorted_desc.
  - intros a b Hab Heq. eapply sorted_stable; [exact Hab|].
    unfold desc_by. apply Qle_bool_iff. rewrite Heq. apply Qle_refl.
Qed.

End Scored.

Section Without_llm.
Variable settings : Settings.
Variable doublemetaphone : str → str * str.
Variable format_3f : Q → str.
Variable format_pct : Q → str.
Variable pg_trgm_search : list payee → str → Z → option (list (Z * Q)).
Variable pg_vector_search : list payee → list Q → Z → option (list (Z * Q)).
Variable fuzz : rapidfuzz.
Variable IDF_CACHE : gmap str Q.
Variable classifier : PayeeClassifier.

(** The language model is asked nothing unless the rerank provider is
    [openai] and a key is configured: otherwise the answer and the
    database are the same whatever the model would say. *)
Theorem match_one_ignores_llm (llm1 llm2 : str → str → option (bool * Q))
    name w :
  rerank_provider settings ≠ lit "openai"
  ∨ openai_api_key settings = None
  ∨ openai_api_key settings = Some [] →
  match_one settings doublemetaphone format_3f format_pct pg_trgm_search
    pg_vector_search fuzz IDF_CACHE classifier llm1 name w
  = match_one settings doublemetaphone format_3f format_pct pg_trgm_search
      pg_vector_search fuzz IDF_CACHE classifier llm2 name w.
Proof.
  intros Hoff. unfold match_one, _match_one_internal.
  destruct (decide _); [done|]. run.
  destruct (get_candidates _ _ _ _ _ _ _) as [[cands|e] w1]; [|done].
  destruct cands as [|c cands]; [done|]. run.
  destruct (for_each _ _ _) as [[scored|e] w2]; [|done].
  destruct (sorted _ scored) as [|best rest]; [done|].
  assert (Hsame :
    (if bool_decide
          ((if bool_decide (t_high settings <= probability best)%Q
            then auto_match
            else if bool_decide (t_low settings <= probability best)%Q
                 then needs_review else no_match) = needs_review)
        && bool_decide (rerank_provider settings = lit "openai")
     then rerank_with_llm settings llm1 name (slice_to 5 (best :: rest))
     else (if bool_decide (t_high settings <= probability best)%Q
           then auto_match
           else if bool_decide (t_low settings <= probability best)%Q
                then needs_review else no_match, probability best))
    = (if bool_decide
          ((if bool_decide (t_high settings <= probability best)%Q
            then auto_match
            else if bool_decide (t_low settings <= probability best)%Q
                 then needs_review else no_match) = needs_review)
        && bool_decide (rerank_provider settings = lit "openai")
     then rerank_with_llm settings llm2 name (slice_to 5 (best :: rest))
     else (if bool_decide (t_high settings <= probability best)%Q
           then auto_match
           else if bool_decide (t_low settings <= probability best)%Q
                then needs_review else no_match, probability best))).
  { destruct Hoff as [Hp|[Hk|Hk]].
    - rewrite (bool_decide_false _ Hp). by rewrite !andb_false_r.
    - unfold rerank_with_llm. by rewrite Hk.
    - unfold rerank_with_llm. by rewrite Hk, decide_True. }
  by rewrite Hsame.
Qed.
End Without_llm.

Section Views_fail.
Variable settings : Settings.
Variable doublemetaphone : str → str * str.
Variable format_3f : Q → str.
Variable format_pct : Q → str.
Variable pg_trgm_search : list payee → str → Z → option (list (Z * Q)).
Variable pg_vector_search : list payee → list Q → Z → option (list (Z * Q)).
Variable fuzz : rapidfuzz.
Variable IDF_CACHE : gmap str Q.
Variable classifier : PayeeClassifier.
Variable llm_same_entity : str → str → option (bool * Q).

Let run_match :=
  match_one settings doublemetaphone format_3f format_pct pg_trgm_search
    pg_vector_search fuzz IDF_CACHE classifier llm_same_entity.

Lemma filter_none {A} (P : A → Prop) `{∀ x, Decision (P x)} (l : list A) :
  Forall (λ x, ¬ P x) l → filter P l = [].
Proof.
  induction 1 as [|x l Hx _ IH]; [done|].
  by rewrite filter_cons, decide_False.
Qed.

(** With an embeddings provider configured, a query whose canonical form
    is not empty and is the canonical name of no payee does not get an
    answer: after the exact probe and the trigram query, [get_embedding]
    raises [TypeError], and nothing is written. *)
Theorem match_one_embedding_type_error name w :
  canon (canonicalize doublemetaphone name) ≠ [] →
  Forall (λ p, name_canon p ≠ canon (canonicalize doublemetaphone name))
    (payees w) →
  embeddings_provider settings ≠ lit "none" →
  run_match name w
  = (Raise TypeError,
     {| payees := payees w;
        review_queue := review_queue w;
        statements :=
          statements w
          ++ [SelectExact (canon (canonicalize doublemetaphone name));
              SelectTrigram (canon (canonicalize doublemetaphone name))] |}).
Proof.
  intros Hne Hnone Hemb.
  unfold run_match, match_one, _match_one_internal.
  rewrite decide_False by done.
  unfold get_candidates. rewrite decide_False by done.
  unfold get_exact_match. run.
  rewrite (filter_none _ _ Hnone). run.
  unfold get_trigram_candidates. run.
  destruct (pg_trgm_search _ _ _); run;
    rewrite (decide_True (P := embeddings_provider settings ≠ lit "none"))
      by done;
    unfold get_vector_candidates, get_embedding;
    rewrite (decide_False (P := canon (canonicalize doublemetaphone name) = []))
      by done;
    run; unfold raise; by rewrite <- app_assoc.
Qed.

Lemma slice_to_nil {A} (k : Z) : slice_to k ([] : list A) = [].
Proof. unfold slice_to. destruct (0 <=? k)%Z; apply take_nil. Qed.

Lemma union_candidates_nil k : union_candidates settings [] k = [].
Proof. unfold union_candidates. cbn. apply slice_to_nil. Qed.

Lemma get_phonetic_candidates_none query_data limit w :
  Forall (λ p, inter_len (Runtime.dm_codes p)
                 (Canonicalize.dm_codes query_data) = 0%Z) (payees w) →
  ∃ w', get_phonetic_candidates settings format_3f query_data limit w
        = (Ok [], w').
Proof.
  intros Hdm. unfold get_phonetic_candidates.
  destruct (decide (Canonicalize.dm_codes query_data = [])); run;
    [by eexists|].
  unfold phonetic_rows. destruct (_ <? 0)%Z; run; [by eexists|].
  rewrite (filter_none (λ r : payee * Z, (0 < r.2)%Z)).
  - cbn [sorted foldr]. rewrite take_nil. cbn [flat_map sorted foldr].
    rewrite slice_to_nil. by eexists.
  - apply Forall_fmap. eapply Forall_impl; [exact Hdm|].
    intros p Hp. unfold compose. cbn beta in *. cbn [snd]. lia.
Qed.

(** Without embeddings, when the exact probe finds nothing, the trigram
    query fails or is empty and no payee shares a phonetic code with the
    query, the answer is [no_match] for want of candidates, and nothing is
    written. *)
Theorem match_one_no_candidates name w :
  canon (canonicalize doublemetaphone name) ≠ [] →
  Forall (λ p, name_canon p ≠ canon (canonicalize doublemetaphone name))
    (payees w) →
  embeddings_provider settings = lit "none" →
  pg_trgm_search (payees w) (canon (canonicalize doublemetaphone name))
    (or_default None (topk_trigram settings)) ∈ [None; Some []] →
  Forall (λ p, inter_len (Runtime.dm_codes p)
                 (Canonicalize.dm_codes (canonicalize doublemetaphone name))
               = 0%Z) (payees w) →
  ∃ w', run_match name w = (Ok (no_match_because "No candidates found"), w')
        ∧ reads_only w w'.
Proof.
  intros Hne Hnone Hemb Htrgm Hdm.
  pose proof (reads_only_candidates settings doublemetaphone format_3f
                pg_trgm_search pg_vector_search name w) as Hread.
  unfold run_match, match_one, _match_one_internal.
  rewrite decide_False by done. run.
  assert (Hc : ∃ w', get_candidates settings doublemetaphone format_3f
                 pg_trgm_search pg_vector_search name w = (Ok [], w')).
  { unfold get_candidates. rewrite decide_False by done.
    unfold get_exact_match. run. rewrite (filter_none _ _ Hnone). run.
    unfold get_trigram_candidates. run.
    assert (Ht : match pg_trgm_search (payees w)
                         (canon (canonicalize doublemetaphone name))
                         (or_default None (topk_trigram settings)) with
                 | Some rows =>
                     map (λ row : Z * Q,
                       (row.1, row.2, lit "trgm:" ++ format_3f row.2)) rows
                 | None => []
                 end = []).
    { apply elem_of_cons in Htrgm as [->|Htrgm]; [done|].
      by apply list_elem_of_singleton in Htrgm as ->. }
    destruct (pg_trgm_search _ _ _) as [rows|]; run;
      [rewrite Ht|];
      rewrite (decide_False (P := embeddings_provider settings ≠ lit "none"))
        by (intros H; by apply H);
      rewrite decide_True by done; run.
    all: match goal with
         | |- context [get_phonetic_candidates ?s ?f ?q ?l ?w0] =>
             destruct (get_phonetic_candidates_none q l w0 Hdm) as [w' ->]
         end; run; rewrite decide_True by done; rewrite union_candidates_nil;
         by eexists. }
  destruct Hc as [w' Hc]. rewrite Hc in *. cbn [snd] in Hread.
  exists w'. split; [reflexivity | done].
Qed.
End Views_fail.

Ltac run_of term :=
  let v := eval vm_compute in term in
  assert (Hrun : term = v) by (vm_compute; reflexivity).


Lemma match_result_shape_witness :
  ∃ r w',
    Examples.match_name Config.defaults "Microsoft Corp" Examples.registry
      = (Ok r, w')
    ∧ (length (candidates r) ≤ 5)%nat
    ∧ (decision_of r ≠ no_match → candidates r ≠ []).
Proof.
  run_of (Examples.match_name Config.defaults "Microsoft Corp"
            Examples.registry).
  match type of Hrun with _ = (Ok ?r, ?w') => exists r, w' end.
  split; [exact Hrun|].
  destruct (match_result_shape _ _ _ _ _ _ _ _ _ _ _ _ _ _ Hrun)
    as (Hlen & _ & _ & Hne).
  split; [exact Hlen | exact Hne].
Defined.

(** The theorem on the decision, at a query in the review band that the
    reranker raises to [auto_match]. *)
Lemma match_one_decision_witness :
  ∃ r w' best tail,
    match_one reranking Examples.metaphone Examples.format Examples.format
      Examples.no_search Examples.no_search Examples.fuzz ∅ Examples.coin
      yes_llm (lit "Microsoft Corp") Examples.registry = (Ok r, w')
    ∧ candidates r = best :: tail
    ∧ decision_of r = auto_match
    ∧ ¬ (t_high reranking <= probability best)%Q
    ∧ (90 # 100 <= confidence r)%Q.
Proof.
  run_of (match_one reranking Examples.metaphone Examples.format
      Examples.format Examples.no_search Examples.no_search Examples.fuzz ∅
      Examples.coin yes_llm (lit "Microsoft Corp") Examples.registry).
  match type of Hrun with _ = (Ok ?r, ?w') => exists r, w' end.
  eexists _, _.
  split; [exact Hrun|]. split; [reflexivity|]. split; [reflexivity|].
  pose proof (match_one_decision _ _ _ _ _ _ _ _ _ _ _ _ _ _ _ _ Hrun eq_refl)
    as H.
  cbn [decision_of] in H. destruct H as [[H _]|(_ & H1 & _ & H2 & _)].
  - exfalso. revert H. vm_compute. intros H. by apply H.
  - split; [exact H1 | exact H2].
Defined.

Lemma match_one_ignores_llm_witness :
  rerank_provider Config.defaults ≠ lit "openai"
  ∧ match_one Config.defaults Examples.metaphone Examples.format
      Examples.format Examples.no_search Examples.no_search Examples.fuzz ∅
      untrained Examples.no_llm (lit "Microsoft Corp") Examples.registry
    = match_one Config.defaults Examples.metaphone Examples.format
        Examples.format Examples.no_search Examples.no_search Examples.fuzz ∅
        untrained yes_llm (lit "Microsoft Corp") Examples.registry.
Proof.
  assert (H : rerank_provider Config.defaults ≠ lit "openai")
    by (vm_compute; discriminate).
  split; [exact H|].
  apply match_one_ignores_llm. left. exact H.
Defined.

(** The theorem at the default settings, whose embeddings provider is
    [openai], and a name that is not in the registry. *)
Lemma match_one_embedding_type_error_witness :
  canon (canonicalize Examples.metaphone (lit "Acme Plumbing")) ≠ []
  ∧ embeddings_provider Config.defaults ≠ lit "none"
  ∧ Examples.match_name Config.defaults "Acme Plumbing" Examples.registry
    = (Raise TypeError,
       {| payees := payees Examples.registry;
          review_queue := [];
          statements := [SelectExact (lit "acme plumbing");
                         SelectTrigram (lit "acme plumbing")] |}).
Proof.
  assert (H1 : canon (canonicalize Examples.metaphone (lit "Acme Plumbing")) ≠ [])
    by (vm_compute; discriminate).
  assert (H2 : Forall (λ p, name_canon p
                 ≠ canon (canonicalize Examples.metaphone (lit "Acme Plumbing")))
                 (payees Examples.registry))
    by (repeat constructor; vm_compute; discriminate).
  assert (H3 : embeddings_provider Config.defaults ≠ lit "none")
    by (vm_compute; discriminate).
  split; [exact H1|]. split; [exact H3|].
  assert (E : canon (canonicalize Examples.metaphone (lit "Acme Plumbing"))
              = lit "acme plumbing") by (vm_compute; reflexivity).
  pose proof (match_one_embedding_type_error Config.defaults Examples.metaphone
    Examples.format Examples.format Examples.no_search Examples.no_search
    Examples.fuzz ∅ untrained Examples.no_llm (lit "Acme Plumbing")
    Examples.registry H1 H2 H3) as H.
  rewrite E in H. exact H.
Defined.

Lemma match_one_no_candidates_witness :
  canon (canonicalize Examples.metaphone (lit "Zebra")) ≠ []
  ∧ embeddings_provider lenient = lit "none"
  ∧ ∃ w',
      Examples.match_name lenient "Zebra" Examples.registry
      = (Ok (no_match_because "No candidates found"), w')
      ∧ reads_only Examples.registry w'.
Proof.
  assert (H1 : canon (canonicalize Examples.metaphone (lit "Zebra")) ≠ [])
    by (vm_compute; discriminate).
  assert (H2 : Forall (λ p, name_canon p
                 ≠ canon (canonicalize Examples.metaphone (lit "Zebra")))
                 (payees Examples.registry))
    by (repeat constructor; vm_compute; discriminate).
  assert (H3 : embeddings_provider lenient = lit "none") by reflexivity.
  assert (H4 : Forall (λ p, inter_len (Runtime.dm_codes p)
                 (Canonicalize.dm_codes
                    (canonicalize Examples.metaphone (lit "Zebra"))) = 0%Z)
                 (payees Examples.registry))
    by (repeat constructor; vm_compute; reflexivity).
  assert (H5 : Examples.no_search (payees Examples.registry)
                 (canon (canonicalize Examples.metaphone (lit "Zebra")))
                 (or_default None (topk_trigram lenient))
               ∈ [None; Some []])
    by (unfold Examples.no_search; left).
  split; [exact H1|]. split; [exact H3|].
  exact (match_one_no_candidates lenient Examples.metaphone Examples.format
    Examples.format Examples.no_search Examples.no_search Examples.fuzz ∅
    untrained Examples.no_llm (lit "Zebra") Examples.registry H1 H2 H3 H5 H4).
Defined.

(** The theorem on probabilities, at a query that the trigram view
    answers with six payees: six candidates are scored, of which the
    answer lists five. *)
Lemma scored_probability_in_unit_witness :
  calibrated untrained
  ∧ ∃ r w' scored,
      match_number "100 200 300" numbers = (Ok r, w')
      ∧ length scored = 6%nat
      ∧ Forall (λ sc, in_unit (probability sc)) scored
      ∧ candidates r = slice_to 5 (sorted (desc_by probability) scored)
      ∧ length (candidates r) = 5%nat.
Proof.
  assert (H : calibrated untrained) by (intros m features p [=]).
  split; [exact H|]. unfold match_number.
  run_of (match_one lenient letter_codes Examples.format Examples.format
            tied_search Examples.no_search Examples.fuzz ∅ untrained
            Examples.no_llm (lit "100 200 300") numbers).
  match type of Hrun with _ = (Ok ?r, ?w') => exists r, w' end.
  destruct (scored_probability_in_unit lenient letter_codes Examples.format
              Examples.format tied_search Examples.no_search Examples.fuzz ∅
              untrained Examples.no_llm (lit "100 200 300") numbers _ _ H Hrun)
    as (shortlist & w1 & scored & w2 & Hs & Hf & Hall & Hc & _).
  exists scored. split; [exact Hrun|].
  vm_compute in Hs. injection Hs as <- <-.
  vm_compute in Hf. injection Hf as <- _.
  split; [reflexivity|]. split; [exact Hall|]. split; [exact Hc|].
  reflexivity.
Defined.

(** The theorem on the order, at the same query: the six payees are
    scored in the order of the shortlist, the last row of the trigram view
    first, and stay in that order. *)
Lemma scored_candidates_order_witness :
  ∃ r w' scored,
    match_number "100 200 300" numbers = (Ok r, w')
    ∧ map sc_payee_id scored = [6; 5; 4; 3; 2; 1]%Z
    ∧ candidates r = slice_to 5 (sorted (desc_by probability) scored)
    ∧ ∀ a b, before a b (sorted (desc_by probability) scored) →
        (probability a == probability b)%Q → before a b scored.
Proof.
  unfold match_number.
  run_of (match_one lenient letter_codes Examples.format Examples.format
            tied_search Examples.no_search Examples.fuzz ∅ untrained
            Examples.no_llm (lit "100 200 300") numbers).
  match type of Hrun with _ = (Ok ?r, ?w') => exists r, w' end.
  destruct (scored_candidates_order lenient letter_codes Examples.format
              Examples.format tied_search Examples.no_search Examples.fuzz ∅
              untrained Examples.no_llm (lit "100 200 300") numbers _ _ Hrun)
    as (shortlist & w1 & scored & w2 & Hs & Hf & _ & Hc & _ & _ & Hst).
  exists scored. split; [exact Hrun|].
  split; [|split; [exact Hc | exact Hst]].
  vm_compute in Hs. injection Hs as <- <-.
  vm_compute in Hf. injection Hf as <- _. reflexivity.
Defined.

(** C7, as the specification states it, fails on that run: the six payees
    have the same probability and were each found by one view, and the
    answer lists payee 6 before payee 5. *)
Lemma scored_candidates_order_counterexample :
  ∃ r w' a b,
    match_number "100 200 300" numbers = (Ok r, w')
    ∧ map sc_payee_id (candidates r) = [6; 5; 4; 3; 2]%Z
    ∧ before a b (candidates r)
    ∧ sc_payee_id a = 6%Z ∧ sc_payee_id b = 5%Z
    ∧ (probability a == probability b)%Q
    ∧ sc_num_sources a = sc_num_sources b
    ∧ ¬ scored_order a b.
Proof.
  unfold match_number.
  run_of (match_one lenient letter_codes Examples.format Examples.format
            tied_search Examples.no_search Examples.fuzz ∅ untrained
            Examples.no_llm (lit "100 200 300") numbers).
  match type of Hrun with
  | _ = (Ok ?r, ?w') =>
      match eval cbv [candidates] in (candidates r) with
      | ?a :: ?b :: _ => exists r, w', a, b
      end
  end.
  split; [exact Hrun|]. split; [reflexivity|].
  split; [left; split; [reflexivity | left]|].
  split; [reflexivity|]. split; [reflexivity|].
  split; [reflexivity|]. split; [reflexivity|].
  unfold scored_order, sc_num_sources. cbn [probability sc_sources sc_payee_id].
  intros [H|[_ [H|[_ H]]]].
  - revert H. apply Qlt_irrefl.
  - revert H. apply Z.lt_irrefl.
  - revert H. vm_compute. intros H. by apply H.
Qed.

(** ** The abbreviation and variation checks *)

Lemma find_after_spec c l :
  match find_after c l with
  | Some rest => ∃ pre, l = pre ++ c :: rest ∧ c ∉ pre
  | None => c ∉ l
  end.
Proof.
  induction l as [|x l IH]; cbn [find_after]; [apply not_elem_of_nil|].
  destruct (decide (x = c)) as [->|Hx].
  - exists []. split; [done | apply not_elem_of_nil].
  - destruct (find_after c l) as [rest|].
    + destruct IH as (pre & -> & Hpre). exists (x :: pre). split; [done|].
      intros [E|H]%elem_of_cons; [by subst | done].
    + intros [E|H]%elem_of_cons; [by subst | done].
Qed.

Lemma sublist_after_first {A} (c : A) k pre rest :
  c ∉ pre → c :: k `sublist_of` pre ++ c :: rest → k `sublist_of` rest.
Proof.
  induction pre as [|x pre IH]; cbn [app]; intros Hc H.
  - inversion H as [|? ? ? H'|? ? ? H']; subst; [done|].
    eapply sublist_cons_l in H' as (l1 & l2 & -> & H').
    by apply sublist_inserts_l, sublist_cons.
  - inversion H as [|? ? ? H'|? ? ? H']; subst.
    + exfalso. apply Hc. left.
    + apply IH; [|done]. intros ?. apply Hc. by right.
Qed.

Lemma in_order_sublist shorter longer :
  in_order shorter longer = true
  ↔ filter (λ c, c ≠ " "%char) shorter `sublist_of` longer.
Proof.
  revert longer. induction shorter as [|c s IH]; intros l; cbn [in_order].
  - split; [intros _; apply sublist_nil_l | done].
  - rewrite filter_cons. destruct (decide (c = " "%char)) as [->|Hc].
    + rewrite decide_False by (intros H; by apply H). apply IH.
    + rewrite decide_True by done.
      pose proof (find_after_spec c l) as Hf.
      destruct (find_after c l) as [rest|].
      * destruct Hf as (pre & -> & Hpre). rewrite IH. split.
        -- intros H. apply sublist_inserts_l. by apply sublist_skip.
        -- by apply sublist_after_first.
      * split; [done|]. intros H. exfalso. apply Hf.
        eapply elem_of_sublist; [|exact H]. left.
Qed.

Lemma check_abbreviation_shorter shorter longer :
  (length shorter < length longer)%nat →
  check_abbreviation shorter longer = 1
  ↔ (2 * length shorter ≤ length longer)%nat
    ∧ filter (λ c, c ≠ " "%char) shorter `sublist_of` longer.
Proof.
  intros Hlen. unfold check_abbreviation.
  rewrite decide_False by lia.
  destruct (decide (length shorter < length longer)%nat); [|lia].
  destruct (Qlt_le_dec _ _) as [H|H].
  - split; [discriminate|]. intros [H2 _]. exfalso.
    revert H. unfold Qlt, len. cbn. lia.
  - assert (H2 : (2 * length shorter ≤ length longer)%nat).
    { revert H. unfold Qle, len. cbn. lia. }
    rewrite <- in_order_sublist.
    destruct (in_order shorter longer); cbn [of_bool]; split; try done.
    intros [_ ?]. done.
Qed.

(** [check_abbreviation] does not depend on the order of its two
    arguments.  On two texts of different lengths it is 1 exactly when
    the shorter text is at most half as long as the longer one and its
    characters, spaces apart, occur in this order in the longer one. *)
Theorem check_abbreviation_spec text1 text2 :
  check_abbreviation text1 text2 = check_abbreviation text2 text1
  ∧ ((length text1 < length text2)%nat →
     check_abbreviation text1 text2 = 1
     ↔ (2 * length text1 ≤ length text2)%nat
       ∧ filter (λ c, c ≠ " "%char) text1 `sublist_of` text2).
Proof.
  split; [|apply check_abbreviation_shorter].
  unfold check_abbreviation.
  destruct (decide (length text1 = length text2)) as [E|E].
  { by rewrite decide_True. }
  rewrite (decide_False (P := length text2 = length text1)) by lia.
  destruct (decide (length text1 < length text2)%nat) as [H|H].
  - destruct (decide (length text2 < length text1)%nat); [lia | done].
  - destruct (decide (length text2 < length text1)%nat); [done | lia].
Qed.

Lemma check_abbreviation_spec_witness :
  (length (lit "ibm") < length (lit "intl business machines"))%nat
  ∧ check_abbreviation (lit "ibm") (lit "intl business machines") = 1
  ∧ check_abbreviation (lit "intl business machines") (lit "ibm") = 1.
Proof.
  assert (H : (length (lit "ibm") < length (lit "intl business machines"))%nat)
    by (vm_compute; lia).
  destruct (check_abbreviation_spec (lit "ibm") (lit "intl business machines"))
    as [Hsym Hspec].
  assert (H1 : check_abbreviation (lit "ibm") (lit "intl business machines") = 1).
  { apply (Hspec H). split; [vm_compute; lia|].
    apply in_order_sublist. vm_compute. reflexivity. }
  split; [exact H|]. split; [exact H1|]. rewrite <- Hsym. exact H1.
Defined.

(** [check_common_variations] does not depend on the order of its two
    arguments, and it is 1 on two texts that are equal up to case: the
    flag is also set when no variation is involved. *)
Theorem check_common_variations_sym a b :
  check_common_variations a b = check_common_variations b a
  ∧ (lower a = lower b → check_common_variations a b = 1).
Proof.
  unfold check_common_variations. split.
  - f_equal. induction variations as [|v vs IH]; [done|].
    cbn [existsb]. rewrite IH. f_equal.
    apply bool_decide_ext. split; by intros ->.
  - intros ->. unfold variations. cbn [map existsb].
    by rewrite bool_decide_true.
Qed.

(** ** The ranges of the ratio features *)

Lemma ratio_unit (n d : Z) :
  (0 <= n)%Z → (n <= d)%Z → (0 < d)%Z → in_unit (inject_Z n / inject_Z d).
Proof.
  intros Hn Hnd Hd. unfold in_unit.
  assert (Hd' : 0 < inject_Z d).
  { change 0 with (inject_Z 0). rewrite <- Zlt_Qlt. lia. }
  split.
  - apply Qle_shift_div_l; [done|]. rewrite Qmult_0_l.
    change 0 with (inject_Z 0). rewrite <- Zle_Qle. lia.
  - apply Qle_shift_div_r; [done|]. rewrite Qmult_1_l.
    by rewrite <- Zle_Qle.
Qed.

Lemma in_unit_0 : in_unit 0.
Proof. split; discriminate. Qed.

Lemma div_if_positive_unit (g : bool) (n d : Z) :
  (0 <= n)%Z → (n <= d)%Z →
  ∃ v, (if g then if (0 <? d)%Z then div (inject_Z n) (inject_Z d) else Ok 0%Q
        else Ok 0%Q) = Ok v ∧ in_unit v.
Proof.
  intros Hn Hnd.
  destruct g; [|exists 0; split; [done | apply in_unit_0]].
  destruct (0 <? d)%Z eqn:E; [|exists 0; split; [done | apply in_unit_0]].
  apply Z.ltb_lt in E.
  rewrite div_ok by (apply inject_Z_nonzero; lia).
  eexists. split; [done|]. by apply ratio_unit.
Qed.

Lemma div_if_nonempty_unit (s1 s2 : gset str) (n : Z) :
  (0 <= n)%Z → (n <= set_size s1)%Z →
  ∃ v, (if bool_decide (s1 ≠ ∅) && bool_decide (s2 ≠ ∅)
        then div (inject_Z n) (inject_Z (set_size s1)) else Ok 0%Q) = Ok v
       ∧ in_unit v.
Proof.
  intros Hn Hnd.
  destruct (bool_decide (s1 ≠ ∅)) eqn:E; cbn [andb];
    [|exists 0; split; [done | apply in_unit_0]].
  destruct (bool_decide (s2 ≠ ∅));
    [|exists 0; split; [done | apply in_unit_0]].
  apply bool_decide_eq_true in E. apply set_size_nonzero in E.
  rewrite div_ok by by apply inject_Z_nonzero.
  eexists. split; [done|]. apply ratio_unit; [done..|].
  unfold set_size in *. lia.
Qed.

Lemma div_by_max_unit (a b : Z) :
  (0 <= a)%Z → (0 <= b)%Z →
  ∃ v, div (inject_Z (Z.min a b)) (inject_Z (Z.max (Z.max a b) 1)) = Ok v
       ∧ in_unit v.
Proof.
  intros Ha Hb. rewrite div_ok by (apply inject_Z_nonzero; lia).
  eexists. split; [done|]. apply ratio_unit; lia.
Qed.

Lemma size_inter_union (a b : gset str) :
  (0 <= set_size (a ∩ b))%Z ∧ (set_size (a ∩ b) <= set_size (a ∪ b))%Z
  ∧ (set_size (a ∩ b) <= set_size a)%Z.
Proof.
  unfold set_size. split; [lia|]. split; apply inj_le, subseteq_size.
  - intros x [Hx _]%elem_of_intersection. by apply elem_of_union_l.
  - by intros x [Hx _]%elem_of_intersection.
Qed.

Ltac take_value :=
  match goal with
  | |- context [mbind ?k (Ok ?v)] => change (mbind k (Ok v)) with (k v); cbv beta
  end.

(** [compute_features] returns, and the two Jaccard indices, the two
    overlap ratios, the length ratio and the token-count ratio it returns
    are between 0 and 1. *)
Theorem compute_features_ratios dm fuzz IDF query record scores :
  ∃ vector dict,
    compute_features dm fuzz IDF query record scores = Ok (vector, dict)
    ∧ in_unit (feature_of vector "dm_jaccard")
    ∧ in_unit (feature_of vector "dm_overlap_ratio")
    ∧ in_unit (feature_of vector "token_jaccard")
    ∧ in_unit (feature_of vector "token_overlap_ratio")
    ∧ in_unit (feature_of vector "len_ratio")
    ∧ in_unit (feature_of vector "token_count_ratio").
Proof.
  unfold compute_features.
  do 5 next_division.
  set (q_dm := list_to_set (Canonicalize.dm_codes (canonicalize dm query))
               : gset str).
  set (c_dm := list_to_set (Runtime.dm_codes record) : gset str).
  set (q_tokens := list_to_set (tokens (canonicalize dm query)) : gset str).
  set (c_tokens := list_to_set (name_tokens record) : gset str).
  destruct (size_inter_union q_dm c_dm) as (Hd0 & Hd1 & Hd2).
  destruct (size_inter_union q_tokens c_tokens) as (Ht0 & Ht1 & Ht2).
  destruct (div_if_positive_unit
              (bool_decide (q_dm ≠ ∅) && bool_decide (c_dm ≠ ∅))
              _ _ Hd0 Hd1) as (dm_jaccard & -> & H1).
  take_value.
  destruct (div_if_nonempty_unit q_dm c_dm _ Hd0 Hd2)
    as (dm_overlap_ratio & -> & H2).
  take_value.
  destruct (div_if_positive_unit
              (bool_decide (q_tokens ≠ ∅) && bool_decide (c_tokens ≠ ∅))
              _ _ Ht0 Ht1) as (token_jaccard & -> & H3).
  take_value.
  destruct (div_if_nonempty_unit q_tokens c_tokens _ Ht0 Ht2)
    as (token_overlap_ratio & -> & H4).
  take_value.
  destruct (div_by_max_unit (len (canon (canonicalize dm query)))
              (len (name_canon record))) as (len_ratio & -> & H5);
    [unfold len; lia..|].
  take_value.
  destruct (div_by_max_unit (set_size q_tokens) (set_size c_tokens))
    as (token_count_ratio & -> & H6); [unfold set_size; lia..|].
  take_value.
  next_division.
  eexists _, _. split; [reflexivity|].
  revert H1 H2 H3 H4 H5 H6. name_values. intros H1 H2 H3 H4 H5 H6.
  repeat split; read_features; apply H1 || apply H2 || apply H3 || apply H4
    || apply H5 || apply H6.
Qed.

(** ** The explanation of a score *)

(** [explain] lists features with a positive contribution, each the value
    of the feature times its weight, from the largest contribution down,
    and at most [top_n] of them when [top_n] is not negative. *)
Theorem explain_spec features top_n :
  StronglySorted (λ a b : str * Q, b.2 <= a.2) (explain features top_n)
  ∧ Forall (λ e : str * Q,
              0 < e.2
              ∧ ∃ weight, (e.1, weight) ∈ weights
                  ∧ e.2 = dict_get_default (feature_dict features) e.1 0
                          * weight)
      (explain features top_n)
  ∧ ((0 <= top_n)%Z → (Z.of_nat (length (explain features top_n)) <= top_n)%Z).
Proof.
  unfold explain.
  set (weighted := flat_map _ weights).
  destruct (slice_to_take top_n (sorted (desc_by snd) weighted)) as [n Hn].
  split; [|split].
  - rewrite Hn. apply StronglySorted_take.
    eapply StronglySorted_mono;
      [|apply (sorted_StronglySorted (desc_by snd))].
    + intros a b H. by apply Qle_bool_iff in H.
    + apply desc_by_total.
    + apply desc_by_trans.
  - rewrite Hn. apply Forall_take.
    rewrite (sorted_Permutation (desc_by snd)).
    apply Forall_forall. intros e He. unfold weighted in He.
    apply list_elem_of_In, in_flat_map in He as ([name weight] & Hw & He).
    apply list_elem_of_In in Hw, He. cbn [fst snd] in He.
    destruct (Qlt_le_dec 0 _) as [Hpos|]; [|by apply elem_of_nil in He].
    apply list_elem_of_singleton in He as ->. cbn [fst snd].
    split; [done|]. by exists weight.
  - apply slice_to_length.
Qed.

(** ** Loops *)

Lemma for_each_returns {A B} (f : A → M (list B)) l w :
  (∀ x w, ∃ ys w', f x w = (Ok ys, w')) →
  ∃ ys w', for_each f l w = (Ok ys, w').
Proof.
  intros Hf. revert w. induction l as [|x l IH]; intros w; cbn [for_each].
  - by exists [], w.
  - destruct (Hf x w) as (ys & w1 & Hx).
    destruct (IH w1) as (zs & w2 & Hl).
    exists (ys ++ zs), w2. run. rewrite Hx. run. rewrite Hl. by run.
Qed.

(** ** Chunks *)

(** For a positive chunk size the chunks are not empty, none is longer
    than the chunk size, and put end to end they are the items. *)
Theorem chunks_of_spec {A} (items : list A) chunk_size :
  (0 < chunk_size)%Z →
  ∃ chunks,
    chunks_of items chunk_size = Ok chunks
    ∧ concat chunks = items
    ∧ Forall (λ chunk, chunk ≠ []
                       ∧ (Z.of_nat (length chunk) <= chunk_size)%Z) chunks.
Proof.
  intros Hpos.
  destruct (chunks_of_concat items chunk_size Hpos) as (chunks & Hc & Hcat).
  exists chunks. split; [done|]. split; [done|].
  unfold chunks_of in Hc. rewrite !decide_False in Hc by lia.
  injection Hc as <-.
  set (size := Z.to_nat chunk_size) in *.
  assert (Hs : size ≠ 0%nat) by (unfold size; lia).
  apply Forall_forall. intros chunk Hchunk.
  apply list_elem_of_fmap in Hchunk as (j & -> & Hj).
  apply elem_of_seq in Hj as [_ Hj]. cbn in Hj.
  pose proof (Nat.div_mod (length items + size - 1) size Hs).
  pose proof (Nat.mod_upper_bound (length items + size - 1) size Hs).
  change (Nat.div ?a ?b) with (a `div` b) in *.
  assert (Hlt : (j * size < length items)%nat) by nia.
  split.
  - intros E. apply (f_equal length) in E.
    rewrite length_take, length_drop in E. cbn [length] in E. lia.
  - rewrite length_take. unfold size. lia.
Qed.

Lemma chunks_of_spec_witness :
  (0 < 2)%Z
  ∧ ∃ chunks,
      chunks_of [1; 2; 3; 4; 5]%Z 2 = Ok chunks
      ∧ concat chunks = [1; 2; 3; 4; 5]%Z.
Proof.
  assert (H : (0 < 2)%Z) by lia.
  split; [exact H|].
  destruct (chunks_of_spec [1; 2; 3; 4; 5]%Z 2 H) as (chunks & Hc & Hcat & _).
  exists chunks. split; [exact Hc | exact Hcat].
Defined.

(** ** The batch helper *)

(** [batch_process] refuses a chunk size of zero, whatever the items, and
    a number of workers that is not positive; with a negative chunk size
    it makes no chunk and returns no result, whatever the items. *)
Theorem batch_process_edge_cases {A B} (items : list A)
    (func : list A → M (list B)) workers chunk_size completion w :
  (chunk_size = 0%Z →
   batch_process items func workers chunk_size completion w
   = (Raise ValueError, w))
  ∧ (chunk_size ≠ 0%Z → (workers <= 0)%Z →
     batch_process items func workers chunk_size completion w
     = (Raise ValueError, w))
  ∧ ((chunk_size < 0)%Z → (0 < workers)%Z →
     batch_process items func workers chunk_size completion w = (Ok [], w)).
Proof.
  unfold batch_process, chunks_of. split; [|split].
  - intros ->. by rewrite decide_True.
  - intros Hc Hw. rewrite decide_False by done.
    destruct (decide (chunk_size < 0)%Z); run; by rewrite decide_True.
  - intros Hc Hw. rewrite decide_False by lia. rewrite decide_True by done.
    run. rewrite decide_False by lia.
    induction completion as [|i completion IH]; [done|].
    cbn [for_each]. run. rewrite lookup_nil. run. rewrite IH. by run.
Qed.

Lemma or_nothing_returns {B} (m : M (list B)) w :
  ∃ ys w', or_nothing m w = (Ok ys, w').
Proof.
  unfold or_nothing. destruct (m w) as [[ys|e] w']; by eexists _, _.
Qed.

(** With a positive number of workers and a positive chunk size
    [batch_process] does not raise, whatever the function does and in
    whatever order the chunks complete: a chunk whose call raises
    contributes no result. *)
Theorem batch_process_returns {A B} (items : list A)
    (func : list A → M (list B)) workers chunk_size completion w :
  (0 < workers)%Z → (0 < chunk_size)%Z →
  ∃ results w',
    batch_process items func workers chunk_size completion w
    = (Ok results, w').
Proof.
  intros Hw Hc. unfold batch_process.
  destruct (chunks_of_concat items chunk_size Hc) as (chunks & -> & _).
  run. rewrite decide_False by lia.
  apply for_each_returns. intros i w0.
  destruct (chunks !! i); [apply or_nothing_returns | by eexists _, _].
Qed.

Lemma batch_process_returns_witness :
  (0 < 8)%Z ∧ (0 < 2)%Z
  ∧ ∃ results w',
      batch_process [1; 2; 3]%Z (λ _, raise TypeError : M (list Z)) 8 2
        [1; 0]%nat Examples.registry
      = (Ok results, w').
Proof.
  assert (H1 : (0 < 8)%Z) by lia. assert (H2 : (0 < 2)%Z) by lia.
  split; [exact H1|]. split; [exact H2|].
  exact (batch_process_returns [1; 2; 3]%Z (λ _, raise TypeError) 8 2
           [1; 0]%nat Examples.registry H1 H2).
Defined.

(** ** The answers of a batch *)

Section Batch_answers.
Variable settings : Settings.
Variable match_one : str → M match_result.

(** The answers of a chunk whose call returns are for the names of the
    chunk, in their order. *)
Lemma process_chunk_names chunk w rs w' :
  process_chunk match_one chunk w = (Ok rs, w') → map fst rs = chunk.
Proof.
  unfold process_chunk. revert w rs w'.
  induction chunk as [|name chunk IH]; intros w rs w'; cbn [for_each].
  - by intros [= <- _].
  - run. destruct (match_one name w) as [[r|e] w1]; [|done].
    run. destruct (for_each _ chunk w1) as [[zs|e] w2] eqn:Hz; [|done].
    run. intros [= <- _]. cbn. f_equal. by eapply IH.
Qed.

(** What the futures give, in the order they complete: the answers of a
    chunk, or nothing when its call raised. *)
Lemma futures_all_or_nothing (chunks : list (list str)) completion w out w' :
  for_each (λ i, match chunks !! i with
                 | Some chunk => or_nothing (process_chunk match_one chunk)
                 | None => ret []
                 end) completion w = (Ok out, w') →
  ∃ kept,
    map fst out = concat kept
    ∧ Forall2 (λ i k, k = [] ∨ chunks !! i = Some k) completion kept.
Proof.
  revert w out w'.
  induction completion as [|i completion IH]; intros w out w'; cbn [for_each].
  - intros [= <- _]. exists []. split; [done | constructor].
  - run.
    destruct (match chunks !! i with
              | Some chunk => or_nothing (process_chunk match_one chunk)
              | None => ret []
              end w) as [[ys|e] w1] eqn:Hi; [|done].
    run. destruct (for_each _ completion w1) as [[zs|e] w2] eqn:Hz; [|done].
    run. intros [= <- _].
    destruct (IH _ _ _ Hz) as (kept & Hk & HF).
    exists (map fst ys :: kept). split.
    + by rewrite map_app, Hk.
    + constructor; [|done].
      destruct (chunks !! i) as [chunk|]; [|injection Hi as <- _; by left].
      unfold or_nothing in Hi.
      destruct (process_chunk match_one chunk w) as [[rs|e] w0] eqn:Hc.
      * injection Hi as <- _. right. f_equal. symmetry.
        by eapply process_chunk_names.
      * injection Hi as <- _. by left.
Qed.

Lemma concat_kept_length (chunks : list (list str)) completion kept :
  Forall2 (λ i k, k = [] ∨ chunks !! i = Some k) completion kept →
  (length (concat kept)
   ≤ length (concat (map (λ i, default [] (chunks !! i)) completion)))%nat
  ∧ (length (concat kept)
     = length (concat (map (λ i, default [] (chunks !! i)) completion)) →
     kept = map (λ i, default [] (chunks !! i)) completion).
Proof.
  induction 1 as [|i k completion kept Hk _ IH]; [done|].
  cbn [map concat]. rewrite !length_app. destruct IH as [IH1 IH2].
  destruct Hk as [->|Hk].
  - cbn [length]. split; [lia|]. intros Heq.
    assert (Hi : default [] (chunks !! i) = []).
    { apply length_zero_iff_nil. lia. }
    rewrite Hi. f_equal. apply IH2. rewrite Hi in Heq. cbn [length] in Heq. lia.
  - rewrite Hk. cbn [from_option id]. split; [lia|]. intros Heq.
    f_equal. apply IH2. lia.
Qed.

Lemma concat_map_Permutation {A B} (f : A → list B) l1 l2 :
  l1 ≡ₚ l2 → concat (map f l1) ≡ₚ concat (map f l2).
Proof.
  induction 1 as [|x l1 l2 _ IH|x y l|l1 l2 l3 _ IH1 _ IH2]; cbn [map concat].
  - done.
  - by rewrite IH.
  - rewrite !app_assoc. f_equiv. apply Permutation_app_comm.
  - by rewrite IH1.
Qed.

Lemma concat_lookup_seq (chunks : list (list str)) :
  concat (map (λ i, default [] (chunks !! i)) (seq 0 (length chunks)))
  = concat chunks.
Proof.
  f_equal. apply list_eq. intros j.
  rewrite list_lookup_fmap.
  destruct (decide (j < length chunks)%nat) as [Hj|Hj].
  - rewrite lookup_seq_lt by done. cbn.
    destruct (lookup_lt_is_Some_2 chunks j Hj) as [c Hc]. by rewrite Hc.
  - rewrite lookup_seq_ge by lia. by rewrite lookup_ge_None_2 by lia.
Qed.

(** The answers of [match_batch] are those of whole chunks, in the order
    in which the futures complete: the call for a chunk gives an answer
    for each of its names, in their order, or, when a match in it raises,
    nothing at all.  So when every chunk completes once there are at most
    as many answers as names, and when none is missing in the count the
    names answered are the names asked, up to their order. *)
Theorem match_batch_whole_chunks names stream completion w out w' :
  (0 < batch_chunk_size settings)%Z →
  match_batch settings match_one names stream completion w = (Ok out, w') →
  ∃ chunks kept,
    chunks_of names (batch_chunk_size settings) = Ok chunks
    ∧ concat chunks = names
    ∧ map fst out = concat kept
    ∧ Forall2 (λ i k, k = [] ∨ chunks !! i = Some k) completion kept
    ∧ (completion ≡ₚ seq 0 (length chunks) →
       (length out ≤ length names)%nat
       ∧ (length out = length names → map fst out ≡ₚ names)).
Proof.
  intros Hsize.
  destruct (chunks_of_concat names _ Hsize) as (chunks & Hchunks & Hnames).
  unfold match_batch, batch_process. rewrite Hchunks. run.
  destruct (decide (batch_workers settings <= 0)%Z); [done|].
  intros Hrun. apply futures_all_or_nothing in Hrun as (kept & Hout & HF).
  exists chunks, kept. do 4 (split; [done|]). intros Hperm.
  destruct (concat_kept_length chunks completion kept HF) as [Hle Heq].
  assert (Hc : concat (map (λ i, default [] (chunks !! i)) completion)
               ≡ₚ names).
  { rewrite <- Hnames, <- (concat_lookup_seq chunks).
    by apply concat_map_Permutation. }
  assert (Hlen : length out = length (concat kept))
    by (by rewrite <- Hout, length_map).
  rewrite (Permutation_length Hc) in Hle, Heq.
  split; [lia|]. intros Hall.
  rewrite Hout, Heq by lia. exact Hc.
Qed.

End Batch_answers.

(** The theorem at two names in chunks of one, with the default provider
    of embeddings: the match of [Acme Plumbing], which is no payee's
    canonical name, raises when it asks for an embedding, so its chunk
    gives nothing and the batch answers for [Microsoft Corp] alone. *)
Lemma match_batch_whole_chunks_witness :
  (0 < batch_chunk_size Examples.small_chunks)%Z
  ∧ ∃ out w',
      match_batch Examples.small_chunks
        (λ name, match_one Examples.small_chunks Examples.metaphone
                   Examples.format Examples.format Examples.no_search
                   Examples.no_search Examples.fuzz ∅ untrained
                   Examples.no_llm name)
        [lit "Microsoft Corp"; lit "Acme Plumbing"] false [1; 0]%nat
        Examples.registry
      = (Ok out, w')
      ∧ map fst out = [lit "Microsoft Corp"]
      ∧ (length out ≤ 2)%nat.
Proof.
  assert (H : (0 < batch_chunk_size Examples.small_chunks)%Z)
    by (vm_compute; reflexivity).
  split; [exact H|].
  run_of (match_batch Examples.small_chunks
        (λ name, match_one Examples.small_chunks Examples.metaphone
                   Examples.format Examples.format Examples.no_search
                   Examples.no_search Examples.fuzz ∅ untrained
                   Examples.no_llm name)
        [lit "Microsoft Corp"; lit "Acme Plumbing"] false [1; 0]%nat
        Examples.registry).
  match type of Hrun with _ = (Ok ?r, ?w') => exists r, w' end.
  split; [exact Hrun|]. split; [reflexivity|].
  destruct (match_batch_whole_chunks _ _ _ _ _ _ _ _ H Hrun)
    as (chunks & kept & Hc & _ & _ & _ & Hperm).
  vm_compute in Hc. injection Hc as <-.
  exact (proj1 (Hperm (perm_swap 0%nat 1%nat []))).
Defined.

(** ** The review handlers *)

Lemma select_open_decided new_status rq_id rows :
  new_status ≠ lit "open" →
  Review.select_open rq_id (Review.set_status new_status rq_id rows) = None.
Proof.
  intros Hs. unfold Review.select_open, Review.set_status.
  induction rows as [|row rows IH]; [done|].
  cbn [map]. rewrite filter_cons.
  destruct (decide (row.1 = rq_id)) as [E|E]; cbn [fst snd status].
  - rewrite decide_False; [exact IH|]. by intros [_ ?].
  - rewrite decide_False; [exact IH|]. by intros [? _].
Qed.

(** An item of the review queue is decided once: after a request that
    approved or rejected it, any further request to approve or reject the
    same item is answered with status 404 and changes nothing. *)
Theorem review_decided_once labels_accept rq_id decision t answer t' :
  Review.approve_match labels_accept rq_id decision t = (Review.Answer answer, t')
  ∨ Review.reject_match labels_accept rq_id decision t
    = (Review.Answer answer, t') →
  ∀ again,
    Review.approve_match labels_accept rq_id again t'
    = (Review.Failed (Review.HTTPException 404), t')
    ∧ Review.reject_match labels_accept rq_id again t'
      = (Review.Failed (Review.HTTPException 404), t').
Proof.
  intros H again.
  assert (Hq : Review.select_open rq_id (Review.queue t') = None).
  { destruct H as [H|H]; revert H;
      unfold Review.approve_match, Review.reject_match;
      destruct (Review.select_open rq_id (Review.queue t)); try done;
      match goal with
      | |- context [match ?l with Review.Answer _ => _ | Review.Failed _ => _ end] =>
          destruct l as [t1|f]; [|done]
      end;
      intros [= _ <-]; cbn [Review.queue]; by apply select_open_decided. }
  unfold Review.approve_match, Review.reject_match. by rewrite Hq.
Qed.

Lemma set_status_ids new_status rq_id rows :
  map fst (Review.set_status new_status rq_id rows) = map fst rows.
Proof.
  unfold Review.set_status. rewrite map_map. apply map_ext.
  intros row. by destruct (decide _).
Qed.

Lemma set_status_others new_status rq_id rows row :
  row.1 ≠ rq_id →
  row ∈ Review.set_status new_status rq_id rows ↔ row ∈ rows.
Proof.
  intros Hrow. unfold Review.set_status. rewrite list_elem_of_fmap. split.
  - intros (row' & -> & Hin).
    destruct (decide (row'.1 = rq_id)); [done | done].
  - intros Hin. exists row. by rewrite decide_False.
Qed.

Lemma insert_label_grows labels_accept l t t1 :
  Review.insert_label labels_accept l t = Review.Answer t1 →
  Review.queue t1 = Review.queue t ∧ Review.labels t1 = Review.labels t ++ [l].
Proof.
  unfold Review.insert_label. destruct (labels_accept l); [|done].
  by intros [= <-].
Qed.

Lemma approve_match_cases labels_accept rq_id decision t :
  (∃ f, Review.approve_match labels_accept rq_id decision t
        = (Review.Failed f, t))
  ∨ ∃ new,
      (length new ≤ 1)%nat
      ∧ Review.approve_match labels_accept rq_id decision t
        = (Review.Answer (lit "approved", rq_id),
           {| Review.queue :=
                Review.set_status (lit "approved") rq_id (Review.queue t);
              Review.labels := Review.labels t ++ new |}).
Proof.
  unfold Review.approve_match.
  destruct (Review.select_open rq_id (Review.queue t)) as [review|];
    [|left; by eexists].
  destruct (if Review.approved decision then _ else _) as [payee_id|].
  - destruct (Review.insert_label _ _ t) as [t1|f] eqn:Hl; [|left; by eexists].
    apply insert_label_grows in Hl as [-> ->]. right. eexists [_].
    split; [done | reflexivity].
  - right. exists []. split; [cbn; lia|]. by rewrite app_nil_r.
Qed.

Lemma reject_match_cases labels_accept rq_id decision t :
  (∃ f, Review.reject_match labels_accept rq_id decision t
        = (Review.Failed f, t))
  ∨ ∃ new,
      (length new ≤ 1)%nat
      ∧ Review.reject_match labels_accept rq_id decision t
        = (Review.Answer (lit "rejected", rq_id),
           {| Review.queue :=
                Review.set_status (lit "rejected") rq_id (Review.queue t);
              Review.labels := Review.labels t ++ new |}).
Proof.
  unfold Review.reject_match.
  destruct (Review.select_open rq_id (Review.queue t)) as [review|];
    [|left; by eexists].
  destruct (Review.given _) as [payee_id|].
  - destruct (Review.insert_label _ _ t) as [t1|f] eqn:Hl; [|left; by eexists].
    apply insert_label_grows in Hl as [-> ->]. right. eexists [_].
    split; [done | reflexivity].
  - right. exists []. split; [cbn; lia|]. by rewrite app_nil_r.
Qed.

(** A request to approve or to reject an item keeps the ids of the
    queue and every row with another id, adds at most one label and
    removes none; a request that fails changes nothing. *)
Theorem review_request_frame labels_accept rq_id decision t :
  Review.request_frame rq_id t
    (Review.approve_match labels_accept rq_id decision t)
  ∧ Review.request_frame rq_id t
      (Review.reject_match labels_accept rq_id decision t).
Proof.
  assert (Hcases : ∀ r,
    (∃ f, r = (Review.Failed f, t))
    ∨ (∃ new new_status,
        (length new ≤ 1)%nat
        ∧ r = (Review.Answer (new_status, rq_id),
               {| Review.queue :=
                    Review.set_status new_status rq_id (Review.queue t);
                  Review.labels := Review.labels t ++ new |})) →
    Review.request_frame rq_id t r).
  { intros r [[f ->]|(new & new_status & Hlen & ->)];
      unfold Review.request_frame; cbn [fst snd].
    - split; [done|]. split; [done|].
      split; [|done]. exists []. rewrite app_nil_r. split; [done | cbn; lia].
    - cbn [Review.queue Review.labels].
      split; [apply set_status_ids|].
      split; [intros row Hrow; exact (set_status_others _ _ _ _ Hrow)|].
      split; [by exists new | done]. }
  split; apply Hcases.
  - destruct (approve_match_cases labels_accept rq_id decision t)
      as [?|(new & ? & ?)]; [by left | right; by eexists new, _].
  - destruct (reject_match_cases labels_accept rq_id decision t)
      as [?|(new & ? & ?)]; [by left | right; by eexists new, _].
Qed.

(** The theorem at a queue with one open item, which is approved and
    then rejected. *)
Lemma review_decided_once_witness :
  ∃ answer t',
    Review.approve_match (λ _, true) 7
      {| Review.approved := true; Review.decision_payee_id := Some 3%Z;
         Review.notes := None |}
      {| Review.queue :=
           [(7%Z, {| q_name_raw := lit "Acme"; q_name_canon := lit "acme";
                     rv_candidates := []; status := lit "open" |})];
         Review.labels := [] |}
    = (Review.Answer answer, t')
    ∧ length (Review.labels t') = 1%nat
    ∧ Review.reject_match (λ _, true) 7
        {| Review.approved := false; Review.decision_payee_id := None;
           Review.notes := None |} t'
      = (Review.Failed (Review.HTTPException 404), t').
Proof.
  eexists _, _.
  assert (Hrun :
    Review.approve_match (λ _, true) 7
      {| Review.approved := true; Review.decision_payee_id := Some 3%Z;
         Review.notes := None |}
      {| Review.queue :=
           [(7%Z, {| q_name_raw := lit "Acme"; q_name_canon := lit "acme";
                     rv_candidates := []; status := lit "open" |})];
         Review.labels := [] |}
    = (Review.Answer (lit "approved", 7%Z),
       {| Review.queue :=
            [(7%Z, {| q_name_raw := lit "Acme"; q_name_canon := lit "acme";
                      rv_candidates := []; status := lit "approved" |})];
          Review.labels :=
            [{| Review.l_q_name_raw := lit "Acme";
                Review.l_q_name_canon := lit "acme";
                Review.c_payee_id := 3;
                Review.y := true;
                Review.meta_notes := None |}] |}))
    by (vm_compute; reflexivity).
  split; [exact Hrun|]. split; [reflexivity|].
  exact (proj2 (review_decided_once (λ _, true) 7 _ _ _ _ (or_introl Hrun)
                  {| Review.approved := false;
                     Review.decision_payee_id := None;
                     Review.notes := None |})).
Defined.

(** ** Inverse document frequencies *)

Lemma dict_get_set {K V} `{EqDecision K} (d : list (K * V)) k v k' :
  dict_get (dict_set d k v) k'
  = if decide (k = k') then Some v else dict_get d k'.
Proof.
  induction d as [|[k0 v0] d IH]; cbn [dict_set dict_get].
  - by destruct (decide (k = k')).
  - destruct (decide (k0 = k)) as [->|Hk0]; cbn [dict_get].
    + by destruct (decide (k = k')).
    + rewrite IH. destruct (decide (k0 = k')) as [->|?]; [|done].
      by rewrite decide_False by done.
Qed.

Lemma dict_get_default_set {K V} `{EqDecision K} (d : list (K * V)) k v k' z :
  dict_get_default (dict_set d k v) k' z
  = if decide (k = k') then v else dict_get_default d k' z.
Proof.
  unfold dict_get_default. rewrite dict_get_set. by destruct (decide (k = k')).
Qed.

Lemma count_tokens_spec (ts : list str) (df : list (str * Z)) :
  NoDup ts →
  NoDup (dict_keys df) →
  (∀ t, dict_get df t ≠ Some 0%Z ∧ (0 <= dict_get_default df t 0)%Z) →
  let df' := fold_left (λ df token,
               dict_set df token (dict_get_default df token 0%Z + 1)%Z) ts df in
  NoDup (dict_keys df')
  ∧ ∀ t, dict_get df' t ≠ Some 0%Z
         ∧ dict_get_default df' t 0%Z
           = (dict_get_default df t 0 + if decide (t ∈ ts) then 1 else 0)%Z.
Proof.
  revert df. induction ts as [|x ts IH]; intros df Hts Hdf Hpos; cbn zeta.
  - cbn [fold_left]. split; [done|]. intros t. split; [apply Hpos|].
    rewrite decide_False by apply not_elem_of_nil. lia.
  - apply NoDup_cons in Hts as [Hx Hts]. cbn [fold_left].
    destruct (IH (dict_set df x (dict_get_default df x 0 + 1)%Z)) as [H1 H2].
    + done.
    + by apply dict_set_NoDup.
    + intros t. unfold dict_get_default. rewrite dict_get_set.
      destruct (decide (x = t)) as [->|?].
      * pose proof (Hpos t) as [_ ?]. unfold dict_get_default in *.
        split; [intros [= ?]; lia | lia].
      * apply Hpos.
    + split; [done|]. intros t. destruct (H2 t) as [H3 H4].
      split; [done|]. rewrite H4, dict_get_default_set.
      destruct (decide (x = t)) as [->|Hxt].
      * rewrite (decide_False (P := t ∈ ts)) by done.
        rewrite (decide_True (P := t ∈ t :: ts)) by left. lia.
      * destruct (decide (t ∈ ts)) as [Ht|Ht].
        -- by rewrite decide_True by by right.
        -- rewrite decide_False; [done|].
           intros [?|?]%elem_of_cons; [by subst | done].
Qed.

Lemma count_document_spec (tokens : list str) (df : list (str * Z)) :
  NoDup (dict_keys df) →
  (∀ t, dict_get df t ≠ Some 0%Z ∧ (0 <= dict_get_default df t 0)%Z) →
  NoDup (dict_keys (Idf.count_document df tokens))
  ∧ ∀ t, dict_get (Idf.count_document df tokens) t ≠ Some 0%Z
         ∧ dict_get_default (Idf.count_document df tokens) t 0%Z
           = (dict_get_default df t 0
              + if decide (t ∈ tokens) then 1 else 0)%Z.
Proof.
  intros Hdf Hpos. unfold Idf.count_document.
  destruct (count_tokens_spec (elements (list_to_set tokens : gset str)) df)
    as [H1 H2]; [apply NoDup_elements | done..|].
  split; [done|]. intros t. destruct (H2 t) as [H3 H4]. split; [done|].
  rewrite H4. f_equal.
  destruct (decide (t ∈ tokens)) as [Ht|Ht].
  - rewrite decide_True; [done|]. by apply elem_of_elements, elem_of_list_to_set.
  - rewrite decide_False; [done|].
    by rewrite elem_of_elements, elem_of_list_to_set.
Qed.

Lemma count_corpus_spec (corpus : list (list str)) (df : list (str * Z)) :
  NoDup (dict_keys df) →
  (∀ t, dict_get df t ≠ Some 0%Z ∧ (0 <= dict_get_default df t 0)%Z) →
  NoDup (dict_keys (fold_left Idf.count_document corpus df))
  ∧ ∀ t, dict_get (fold_left Idf.count_document corpus df) t ≠ Some 0%Z
         ∧ dict_get_default (fold_left Idf.count_document corpus df) t 0%Z
           = (dict_get_default df t 0 + Idf.document_frequency corpus t)%Z.
Proof.
  revert df. induction corpus as [|doc corpus IH]; intros df Hdf Hpos.
  - cbn [fold_left]. split; [done|]. intros t. split; [apply Hpos|].
    unfold Idf.document_frequency. cbn. lia.
  - cbn [fold_left].
    destruct (count_document_spec doc df Hdf Hpos) as [H1 H2].
    destruct (IH (Idf.count_document df doc)) as [H3 H4]; [done| |].
    { intros t. destruct (H2 t) as [? ->]. split; [done|].
      pose proof (Hpos t) as [_ ?]. destruct (decide (t ∈ doc)); lia. }
    split; [done|]. intros t. destruct (H4 t) as [H5 H6]. split; [done|].
    rewrite H6. destruct (H2 t) as [_ ->].
    unfold Idf.document_frequency. rewrite filter_cons.
    destruct (decide (t ∈ doc)); cbn [length]; lia.
Qed.

Lemma for_items_idf (log : Q → Q) (n : Z) (df : list (str * Z)) :
  Forall (λ item : str * Z, item.2 ≠ 0%Z) df →
  Idf.for_items (λ item : str * Z,
      ratio ← div (inject_Z n) (inject_Z item.2);
      Ok (item.1, log ratio)) df
  = Ok (map (λ item : str * Z,
               (item.1, log (inject_Z n / inject_Z item.2)%Q)) df).
Proof.
  induction 1 as [|[t f] df Hf _ IH]; [done|].
  cbn [Idf.for_items map fst snd] in *.
  rewrite div_ok by by apply inject_Z_nonzero.
  change (mbind ?k (Ok ?v)) with (k v). cbv beta. rewrite IH. done.
Qed.

Lemma dict_get_map {K V W} `{EqDecision K} (g : K → V → W)
    (d : list (K * V)) k :
  dict_get (map (λ item : K * V, (item.1, g item.1 item.2)) d) k
  = g k <$> dict_get d k.
Proof.
  induction d as [|[k0 v0] d IH]; [done|]. cbn [map dict_get fst snd].
  destruct (decide (k0 = k)) as [->|?]; [done | exact IH].
Qed.

Lemma dict_get_In {K V} `{EqDecision K} (d : list (K * V)) k v :
  (k, v) ∈ d → NoDup (dict_keys d) → dict_get d k = Some v.
Proof.
  induction d as [|[k0 v0] d IH]; [by intros ?%elem_of_nil|].
  cbn [dict_keys map fst dict_get].
  intros [[= -> ->]|Hin]%elem_of_cons [Hk0 Hnd]%NoDup_cons.
  - by rewrite decide_True.
  - rewrite decide_False; [by apply IH|]. intros ->. apply Hk0.
    apply list_elem_of_fmap. by exists (k, v).
Qed.

(** [compute_idf] does not raise.  The dict it returns has one entry for
    each token of the corpus and no other, and the entry of a token is
    the logarithm of the number of documents over the number of documents
    that hold the token. *)
Theorem compute_idf_spec (log : Q → Q) (corpus : list (list str)) :
  ∃ idf,
    Idf.compute_idf log corpus = Ok idf
    ∧ NoDup (dict_keys idf)
    ∧ ∀ token,
        dict_get idf token
        = if decide (Idf.document_frequency corpus token = 0%Z) then None
          else Some (log (inject_Z (Z.of_nat (length corpus))
                          / inject_Z (Idf.document_frequency corpus token))%Q).
Proof.
  unfold Idf.compute_idf.
  destruct (decide (Z.of_nat (length corpus) = 0%Z)) as [E|E].
  { exists []. split; [done|]. split; [constructor|]. intros token.
    destruct corpus; [|done]. by rewrite decide_True. }
  destruct (count_corpus_spec corpus []) as [Hnd Hdf]; [constructor| |].
  { intros t. cbn. split; [done | lia]. }
  set (df := fold_left Idf.count_document corpus []) in *.
  assert (Hnz : Forall (λ item : str * Z, item.2 ≠ 0%Z) df).
  { apply Forall_forall. intros [t f] Hin. cbn [snd]. intros ->.
    destruct (Hdf t) as [Hne _]. apply Hne. by apply dict_get_In. }
  rewrite (for_items_idf log _ df Hnz).
  eexists. split; [reflexivity|]. split.
  - unfold dict_keys in *. rewrite map_map. exact Hnd.
  - intros token.
    rewrite (dict_get_map (λ _ f, log (inject_Z (Z.of_nat (length corpus))
                                       / inject_Z f)%Q) df token).
    destruct (Hdf token) as [Hne Hval]. cbn in Hval.
    unfold dict_get_default in Hval.
    destruct (dict_get df token) as [f|] eqn:Hget; cbn [fmap option_fmap option_map].
    + rewrite decide_False by (intros H0; apply Hne; f_equal; lia).
      by rewrite Hval.
    + by rewrite decide_True by lia.
Qed.
